(** * OrderedMap: an insertion-ordered map with a duplicate-rejecting JSON codec

    A shallow embedding of [orderedmap.go] (package [orderedmap]).

    - Go values of type [any] are the inductive [any]; a Go map is a
      [gmap], wrapped in [option] because a Go map may be [nil].
    - Methods with a pointer receiver mutate the container; here they take
      the container and return the new one.
    - A run-time panic (index out of range, assignment to an entry of a nil
      map, failed type assertion) is an explicit outcome.
    - [encoding/json] is not part of the package.  Its [Decoder], [Encoder],
      [Marshal] and [Unmarshal] are modelled from the library's
      documentation and source over a stream of lexemes instead of bytes: a
      string or number literal is one lexeme that carries the scalar it
      decodes to.  How a scalar is spelled (escapes, the digits of a number)
      stays inside the library; what the library does to the scalars
      themselves is modelled: invalid UTF-8 is replaced when a string is
      written, a number literal outside [float64] is an error, a value the
      encoder does not support is an error, and nesting is limited. *)

From Stdlib Require Import SpecFloat Ascii.
From stdpp Require Import gmap strings list sorting.

Set Warnings "-register-all".
Set Default Proof Using "Type".
Set Warnings "-clear-no-such-hyp".

Open Scope Z_scope.

(** ** Values *)

(** A [float64], as a binary64 value of the IEEE 754 specification. *)
Definition float64 : Type := spec_float.

Definition is_finite (f : float64) : bool :=
  match f with
  | S754_zero _ | S754_finite _ _ _ => true
  | _ => false
  end.

(** The [float64] that the decimal literal of an integer decodes to: the
    nearest one, ties to even. *)
Definition float64_of_int (x : Z) : float64 := binary_normalize 53 1024 x 0 false.

(** A Go [any] holds a value of any type.  The types here are the ones the
    package tests for ([[]any], [map[string]any], [OrderedMap]), the other
    ones [json.Unmarshal] stores into an [interface{}] ([nil], [bool],
    [float64], [string]), and two that stand for what else a caller can hand
    to [Set]: [Int], an [int], for the numbers that are not a [float64] (the
    encoder writes its digits, which the decoder reads as the nearest
    [float64]; an [int] is 64 bits wide), and [Chan], a channel, for the
    values the encoder refuses.  A slice is not nil, and an [OrderedMap] is
    held by value. *)
Inductive any : Type :=
| Nil
| Bool (b : bool)
| Float64 (f : float64)
| Int (x : Z)
| String_ (s : string)
| Slice (s : list any)
| Map (m : option (gmap string any))
| OMap (keys : list string) (values : option (gmap string any))
| Chan.

(** [type OrderedMap struct { keys []string; values map[string]any }] *)
Record OrderedMap : Type := mkOrderedMap {
  keys : list string;
  values : option (gmap string any)
}.

(** An [OrderedMap] stored (by value) in an [any]. *)
Definition OrderedMapV (o : OrderedMap) : any := OMap (keys o) (values o).

(** ** Outcomes *)

Inductive panic : Type :=
| IndexOutOfRange
| NilMapAssign
| TypeAssertion.

(** The errors the package returns or passes on: [io.EOF], and of
    [encoding/json] the errors of the decoder ([*SyntaxError],
    [*UnmarshalTypeError]) and of the encoder ([*UnsupportedTypeError],
    [*UnsupportedValueError], [*MarshalerError] around the error of a
    [MarshalJSON] method). *)
Inductive error : Type :=
| io_EOF
| SyntaxError
| UnmarshalTypeError
| ErrJSONDuplicate (key : string)
| UnsupportedTypeError
| UnsupportedValueError
| MarshalerError (err : error).

(** A call returns, panics, or (for the functions that recurse on fuel)
    exhausts its fuel. *)
Inductive run (A : Type) : Type :=
| Ret (a : A)
| Panics (p : panic)
| Exhausted.
Arguments Ret {A} a.
Arguments Panics {A} p.
Arguments Exhausted {A}.

(** ** Go map primitives *)

(** [v, ok := m[k]]: reading a nil map is allowed and finds nothing. *)
Definition map_index (m : option (gmap string any)) (k : string) : any * bool :=
  match m ≫= (.!! k) with
  | Some v => (v, true)
  | None => (Nil, false)
  end.

(** [m[k] = v]: panics on a nil map. *)
Definition map_assign (m : option (gmap string any)) (k : string) (v : any)
  : option (option (gmap string any)) :=
  match m with
  | Some g => Some (Some (<[k:=v]> g))
  | None => None
  end.

(** [delete(m, k)]: a no-op on a nil map. *)
Definition map_delete (m : option (gmap string any)) (k : string)
  : option (gmap string any) :=
  delete k <$> m.

(** The key set of a Go map. *)
Definition map_keys (m : option (gmap string any)) : gset string :=
  match m with
  | Some g => dom g
  | None => ∅
  end.

(** ** The container *)

Definition New : OrderedMap := {| keys := []; values := Some ∅ |}.

Definition Get (key : string) (o : OrderedMap) : any :=
  fst (map_index (values o) key).

Definition Set_ (key : string) (value : any) (o : OrderedMap) : run OrderedMap :=
  let '(_, ok) := map_index (values o) key in
  let ks := if ok then keys o else keys o ++ [key] in
  match map_assign (values o) key value with
  | Some vs => Ret {| keys := ks; values := vs |}
  | None => Panics NilMapAssign
  end.

(** Position of the first [k == key] in [for i, k := range ks]. *)
Fixpoint index_of (key : string) (ks : list string) : option nat :=
  match ks with
  | [] => None
  | k :: ks' => if decide (k = key) then Some 0%nat else S <$> index_of key ks'
  end.

Definition Delete (key : string) (o : OrderedMap) : OrderedMap :=
  let '(_, ok) := map_index (values o) key in
  if ok then
    {| keys := match index_of key (keys o) with
               | Some i => take i (keys o) ++ drop (S i) (keys o)
               | None => keys o
               end;
       values := map_delete (values o) key |}
  else o.

Definition Keys (o : OrderedMap) : list string := keys o.

Definition Values (o : OrderedMap) : list any :=
  (λ k, fst (map_index (values o) k)) <$> keys o.

Definition KeysValues (o : OrderedMap) : option (gmap string any) := values o.

Definition Len (o : OrderedMap) : Z := Z.of_nat (length (keys o)).

(** [s[pos]] on a slice: a negative or too large index panics. *)
Definition slice_index {A} (s : list A) (pos : Z) : run A :=
  if decide (0 ≤ pos) then
    match s !! Z.to_nat pos with
    | Some x => Ret x
    | None => Panics IndexOutOfRange
    end
  else Panics IndexOutOfRange.

Definition GetValueAt (pos : Z) (o : OrderedMap) : run any :=
  match slice_index (keys o) pos with
  | Ret k => Ret (fst (map_index (values o) k))
  | Panics p => Panics p
  | Exhausted => Exhausted
  end.

Definition GetKeyAt (pos : Z) (o : OrderedMap) : run string :=
  slice_index (keys o) pos.

(** [sortFunc] works on the slice [o.keys] in place; it is given as the
    function from the old contents to the new ones. *)
Definition SortKeys (sortFunc : list string → list string) (o : OrderedMap)
  : OrderedMap :=
  {| keys := sortFunc (keys o); values := values o |}.

(** ** Sorting by pairs *)

Record pair_ : Type := mkPair { key : string; value : any }.

Definition Key (kv : pair_) : string := key kv.
Definition Value (kv : pair_) : any := value kv.

Record byPair : Type := mkByPair {
  Pairs : list pair_;
  LessFunc : pair_ → pair_ → bool
}.

Definition byPair_Len (a : byPair) : nat := length (Pairs a).

Definition byPair_Swap (a : byPair) (i j : nat) : byPair :=
  match Pairs a !! i, Pairs a !! j with
  | Some x, Some y => {| Pairs := <[j:=x]> (<[i:=y]> (Pairs a)); LessFunc := LessFunc a |}
  | _, _ => a
  end.

Definition byPair_Less (a : byPair) (i j : nat) : bool :=
  match Pairs a !! i, Pairs a !! j with
  | Some x, Some y => LessFunc a x y
  | _, _ => false
  end.

(** [sort.Sort] sees its argument only through [Len], [Less] and [Swap].
    It is modelled by the insertion sort the library runs on short inputs:
    [for j := i; j > 0 && Less(j, j-1); j-- { Swap(j, j-1) }] for each [i]. *)
Fixpoint sift_down (j : nat) (data : byPair) : byPair :=
  match j with
  | O => data
  | S j' => if byPair_Less data j j' then sift_down j' (byPair_Swap data j j') else data
  end.

Definition sort_Sort (data : byPair) : byPair :=
  foldl (λ d i, sift_down i d) data (seq 1 (pred (byPair_Len data))).

(** [for i, pair := range pairs { keys[i] = pair.key }] *)
Fixpoint write_keys (i : nat) (pairs : list pair_) (ks : list string) : list string :=
  match pairs with
  | [] => ks
  | p :: pairs' => write_keys (S i) pairs' (<[i:=key p]> ks)
  end.

Definition Sort (lessFunc : pair_ → pair_ → bool) (o : OrderedMap) : OrderedMap :=
  let pairs := (λ k, {| key := k; value := fst (map_index (values o) k) |}) <$> keys o in
  let sorted := sort_Sort {| Pairs := pairs; LessFunc := lessFunc |} in
  {| keys := write_keys 0 (Pairs sorted) (keys o); values := values o |}.

(** ** Lexemes of JSON text *)

(** [json.Delim]: one of the four delimiters. *)
Inductive Delim : Type := LBrace | RBrace | LBracket | RBracket.

Inductive space : Type := SP | HT | LF | CR.

(** JSON text as the library's scanner cuts it.  A string literal carries
    the string it decodes to, a number literal the [float64] it decodes to;
    [LBigNumber] is a number literal too large for a [float64], which the
    scanner accepts and the decoder refuses.  [LInvalid] stands for a
    stretch of input that is no JSON literal. *)
Inductive lexeme : Type :=
| LDelim (d : Delim)
| LColon
| LComma
| LString (s : string)
| LNumber (f : float64)
| LBigNumber
| LBool (b : bool)
| LNull
| LSpace (w : space)
| LInvalid.

Definition is_space (l : lexeme) : bool :=
  match l with LSpace _ => true | _ => false end.

(** What the library's [compact] leaves of a JSON text; also the view every
    reader of the library has of its input, white space between lexemes
    being insignificant. *)
Definition compact (b : list lexeme) : list lexeme :=
  filter (λ l, is_space l = false) b.

(** The library's scanner refuses a text that nests arrays and objects
    deeper than this. *)
Definition maxNestingDepth : Z := 10000.

(** The deepest nesting a text reaches, from the nesting [cur]. *)
Fixpoint deepest (cur : Z) (b : list lexeme) : Z :=
  match b with
  | [] => cur
  | LDelim LBrace :: b' | LDelim LBracket :: b' => deepest (cur + 1) b'
  | LDelim RBrace :: b' | LDelim RBracket :: b' => cur `max` deepest (cur - 1) b'
  | _ :: b' => deepest cur b'
  end.

(** ** json.Decoder: the token reader *)

(** [json.Token]: a delimiter, or a scalar of its Go type. *)
Inductive Token : Type :=
| TDelim (d : Delim)
| TBool (b : bool)
| TNumber (f : float64)
| TString (s : string)
| TNil.

Inductive tokenState_ : Type :=
| tokenTopValue
| tokenArrayStart
| tokenArrayValue
| tokenArrayComma
| tokenObjectStart
| tokenObjectKey
| tokenObjectColon
| tokenObjectValue
| tokenObjectComma.

(** The unread input with the state [Token] keeps between calls.  The head
    of [tokenStack] is its last pushed entry. *)
Record Decoder : Type := mkDecoder {
  buf : list lexeme;
  tokenState : tokenState_;
  tokenStack : list tokenState_
}.

(** [json.NewDecoder(bytes.NewReader(b))].  The decoder skips white space
    before every lexeme it looks at; it is dropped here once. *)
Definition NewDecoder (b : list lexeme) : Decoder :=
  {| buf := compact b; tokenState := tokenTopValue; tokenStack := [] |}.

Definition tokenValueAllowed (st : tokenState_) : bool :=
  match st with
  | tokenTopValue | tokenArrayStart | tokenArrayValue | tokenObjectValue => true
  | _ => false
  end.

Definition tokenValueEnd (st : tokenState_) : tokenState_ :=
  match st with
  | tokenArrayStart | tokenArrayValue => tokenArrayComma
  | tokenObjectValue => tokenObjectComma
  | _ => st
  end.

(** The state a closing delimiter returns to. *)
Definition tokenPop (stk : list tokenState_) : tokenState_ :=
  tokenValueEnd (default tokenTopValue (head stk)).

(** [Decoder.Token]: the next token, with commas and colons checked and
    passed over.  A syntax error leaves the decoder where it is.  A scalar
    is read with [Decode] into an [interface{}]; for a number literal too
    large for a [float64] this returns [*UnmarshalTypeError], the literal
    being read. *)
Fixpoint Token_loop (b : list lexeme) (st : tokenState_) (stk : list tokenState_)
  : Decoder * (Token + error) :=
  let stay := (mkDecoder b st stk, inr SyntaxError) in
  match b with
  | [] => (mkDecoder [] st stk, inr io_EOF)
  | LSpace _ :: b' => Token_loop b' st stk
  | LDelim LBracket :: b' =>
      if tokenValueAllowed st
      then (mkDecoder b' tokenArrayStart (st :: stk), inl (TDelim LBracket))
      else stay
  | LDelim RBracket :: b' =>
      match st with
      | tokenArrayStart | tokenArrayComma =>
          (mkDecoder b' (tokenPop stk) (tail stk), inl (TDelim RBracket))
      | _ => stay
      end
  | LDelim LBrace :: b' =>
      if tokenValueAllowed st
      then (mkDecoder b' tokenObjectStart (st :: stk), inl (TDelim LBrace))
      else stay
  | LDelim RBrace :: b' =>
      match st with
      | tokenObjectStart | tokenObjectComma =>
          (mkDecoder b' (tokenPop stk) (tail stk), inl (TDelim RBrace))
      | _ => stay
      end
  | LColon :: b' =>
      match st with
      | tokenObjectColon => Token_loop b' tokenObjectValue stk
      | _ => stay
      end
  | LComma :: b' =>
      match st with
      | tokenArrayComma => Token_loop b' tokenArrayValue stk
      | tokenObjectComma => Token_loop b' tokenObjectKey stk
      | _ => stay
      end
  | LString s :: b' =>
      match st with
      | tokenObjectStart | tokenObjectKey =>
          (mkDecoder b' tokenObjectColon stk, inl (TString s))
      | _ =>
          if tokenValueAllowed st
          then (mkDecoder b' (tokenValueEnd st) stk, inl (TString s))
          else stay
      end
  | LNumber x :: b' =>
      if tokenValueAllowed st
      then (mkDecoder b' (tokenValueEnd st) stk, inl (TNumber x))
      else stay
  | LBigNumber :: b' =>
      if tokenValueAllowed st
      then (mkDecoder b' (tokenValueEnd st) stk, inr UnmarshalTypeError)
      else stay
  | LBool x :: b' =>
      if tokenValueAllowed st
      then (mkDecoder b' (tokenValueEnd st) stk, inl (TBool x))
      else stay
  | LNull :: b' =>
      if tokenValueAllowed st
      then (mkDecoder b' (tokenValueEnd st) stk, inl TNil)
      else stay
  | LInvalid :: _ => stay
  end.

Definition Token_ (d : Decoder) : Decoder * (Token + error) :=
  Token_loop (buf d) (tokenState d) (tokenStack d).

(** [Decoder.peek]: the next lexeme that is not white space. *)
Fixpoint peek (b : list lexeme) : option lexeme :=
  match b with
  | [] => None
  | LSpace _ :: b' => peek b'
  | l :: _ => Some l
  end.

(** [Decoder.More]: the next lexeme is there and closes nothing. *)
Definition More (d : Decoder) : bool :=
  match peek (buf d) with
  | None => false
  | Some (LDelim RBracket) | Some (LDelim RBrace) => false
  | Some _ => true
  end.

(** ** CheckDuplicate *)

(** [for d.More() { ... }] of the ['{'] case, with [keys] the keys seen. *)
Fixpoint CheckDuplicate_object (check : Decoder → run (Decoder * option error))
    (n : nat) (keys : gset string) (d : Decoder) : run (Decoder * option error) :=
  match n with
  | O => Exhausted
  | S n' =>
      if More d then
        match Token_ d with
        | (d, inr err) => Ret (d, Some err)
        | (d, inl (TString key)) =>
            if decide (key ∈ keys) then Ret (d, Some (ErrJSONDuplicate key))
            else
              match check d with
              | Ret (d, None) => CheckDuplicate_object check n' ({[key]} ∪ keys) d
              | other => other
              end
        | (d, inl _) => Panics TypeAssertion
        end
      else
        match Token_ d with
        | (d, inr err) => Ret (d, Some err)
        | (d, inl _) => Ret (d, None)
        end
  end.

(** [for d.More() { ... }] of the ['['] case. *)
Fixpoint CheckDuplicate_array (check : Decoder → run (Decoder * option error))
    (n : nat) (d : Decoder) : run (Decoder * option error) :=
  match n with
  | O => Exhausted
  | S n' =>
      if More d then
        match check d with
        | Ret (d, None) => CheckDuplicate_array check n' d
        | other => other
        end
      else
        match Token_ d with
        | (d, inr err) => Ret (d, Some err)
        | (d, inl _) => Ret (d, None)
        end
  end.

Fixpoint CheckDuplicate_fuel (n : nat) (d : Decoder) : run (Decoder * option error) :=
  match n with
  | O => Exhausted
  | S n' =>
      match Token_ d with
      | (d, inr err) => Ret (d, Some err)
      | (d, inl (TDelim LBrace)) =>
          CheckDuplicate_object (CheckDuplicate_fuel n') n' ∅ d
      | (d, inl (TDelim LBracket)) =>
          CheckDuplicate_array (CheckDuplicate_fuel n') n' d
      | (d, inl _) => Ret (d, None)
      end
  end.

(** Every call and every loop round reads a lexeme, so fuel beyond the length
    of the unread input is never used up. *)
Definition CheckDuplicate (d : Decoder) : run (Decoder * option error) :=
  CheckDuplicate_fuel (S (length (buf d))) d.

(** ** JSON documents and json.Unmarshal *)

(** The syntax tree of a JSON text.  The members of an object are kept in
    document order, repeated keys included; [JBigNumber] is a number too
    large for a [float64]. *)
Inductive json : Type :=
| JNull
| JBool (b : bool)
| JNumber (f : float64)
| JBigNumber
| JString (s : string)
| JArray (elements : list json)
| JObject (members : list (string * json)).

(** [x1 , x2 , ... , xn] *)
Definition join_comma (xs : list (list lexeme)) : list lexeme :=
  match xs with
  | [] => []
  | x :: xs' => x ++ concat ((λ y, LComma :: y) <$> xs')
  end.

(** The compact text of a document. *)
Fixpoint lexemes (j : json) : list lexeme :=
  match j with
  | JNull => [LNull]
  | JBool b => [LBool b]
  | JNumber x => [LNumber x]
  | JBigNumber => [LBigNumber]
  | JString s => [LString s]
  | JArray l => LDelim LBracket :: join_comma (lexemes <$> l) ++ [LDelim RBracket]
  | JObject m =>
      LDelim LBrace
        :: join_comma ((λ kv, LString kv.1 :: LColon :: lexemes kv.2) <$> m)
        ++ [LDelim RBrace]
  end.

(** Reading one value off a text without white space; the rest is returned. *)
Fixpoint parse_value (n : nat) (ts : list lexeme) {struct n}
  : option (json * list lexeme) :=
  match n with
  | O => None
  | S n' =>
      match ts with
      | LNull :: r => Some (JNull, r)
      | LBool b :: r => Some (JBool b, r)
      | LNumber x :: r => Some (JNumber x, r)
      | LBigNumber :: r => Some (JBigNumber, r)
      | LString s :: r => Some (JString s, r)
      | LDelim LBracket :: r =>
          match r with
          | LDelim RBracket :: r' => Some (JArray [], r')
          | _ =>
              '(v, r1) ← parse_value n' r;
              '(vs, r2) ← parse_elements n' r1;
              Some (JArray (v :: vs), r2)
          end
      | LDelim LBrace :: r =>
          match r with
          | LDelim RBrace :: r' => Some (JObject [], r')
          | LString k :: LColon :: r' =>
              '(v, r1) ← parse_value n' r';
              '(ms, r2) ← parse_members n' r1;
              Some (JObject ((k, v) :: ms), r2)
          | _ => None
          end
      | _ => None
      end
  end
with parse_elements (n : nat) (ts : list lexeme) {struct n}
  : option (list json * list lexeme) :=
  match n with
  | O => None
  | S n' =>
      match ts with
      | LDelim RBracket :: r => Some ([], r)
      | LComma :: r =>
          '(v, r1) ← parse_value n' r;
          '(vs, r2) ← parse_elements n' r1;
          Some (v :: vs, r2)
      | _ => None
      end
  end
with parse_members (n : nat) (ts : list lexeme) {struct n}
  : option (list (string * json) * list lexeme) :=
  match n with
  | O => None
  | S n' =>
      match ts with
      | LDelim RBrace :: r => Some ([], r)
      | LComma :: LString k :: LColon :: r =>
          '(v, r1) ← parse_value n' r;
          '(ms, r2) ← parse_members n' r1;
          Some ((k, v) :: ms, r2)
      | _ => None
      end
  end.

(** The grammar: the whole input is one JSON value. *)
Definition parse (b : list lexeme) : option json :=
  match parse_value (S (length (compact b))) (compact b) with
  | Some (j, []) => Some j
  | _ => None
  end.

(** [m[k1] = v1; m[k2] = v2; ...] in list order. *)
Definition insert_all (g : gmap string any) (l : list (string * any))
  : gmap string any :=
  foldl (λ g kv, <[kv.1:=kv.2]> g) g l.

(** What the library stores into an [interface{}]: an object becomes a fresh
    [map[string]any] (a repeated key keeps its last value), an array a
    [[]any], a number a [float64]; for a number too large the error is
    noted and nil is stored. *)
Fixpoint plain (j : json) : any :=
  match j with
  | JNull => Nil
  | JBool b => Bool b
  | JNumber x => Float64 x
  | JBigNumber => Nil
  | JString s => String_ s
  | JArray l => Slice (plain <$> l)
  | JObject m => Map (Some (insert_all ∅ ((λ kv, (kv.1, plain kv.2)) <$> m)))
  end.

(** Some number of the document is too large for a [float64]. *)
Fixpoint overflows (j : json) : bool :=
  match j with
  | JBigNumber => true
  | JArray l => existsb overflows l
  | JObject m => existsb (λ kv, overflows kv.2) m
  | _ => false
  end.

(** [json.Unmarshal(b, &m)] for [m] of type [map[string]any].  A text that
    is not valid, or nests too deep, is refused before anything is stored.
    An object is stored into the map [m] holds, the entries already there
    being kept (a new map is made when [m] is nil), and the error for a
    number too large is returned after the rest is stored; [null] sets [m]
    to nil; any other value is a type error and leaves [m] alone. *)
Definition json_Unmarshal (b : list lexeme) (m : option (gmap string any))
  : option (gmap string any) * option error :=
  match parse b with
  | None => (m, Some SyntaxError)
  | Some j =>
      if decide (maxNestingDepth < deepest 0 (compact b)) then (m, Some SyntaxError)
      else
        match j with
        | JObject members =>
            (Some (insert_all (default ∅ m) ((λ kv, (kv.1, plain kv.2)) <$> members)),
             if overflows j then Some UnmarshalTypeError else None)
        | JNull => (None, None)
        | _ => (m, Some UnmarshalTypeError)
        end
  end.

(** ** decode and decodeSlice *)

(** The key bookkeeping of [decode].  A key seen before is moved to the end:
    [copy(keys[j:], keys[j+1:])] at its first position [j], then
    [keys[len(keys)-1] = key], which panics on an empty slice. *)
Definition record_key (key : string) (seen : bool) (ks : list string)
  : option (list string) :=
  if seen then
    let ks1 := match index_of key ks with
               | Some j => take j ks ++ drop (S j) ks ++ drop (pred (length ks)) ks
               | None => ks
               end in
    match ks1 with
    | [] => None
    | _ => Some (<[pred (length ks1):=key]> ks1)
    end
  else Some (ks ++ [key]).

(** A write through a map or slice that [o.values[key]] shares with a local
    variable: it shows in [o] without an assignment to [o.values[key]]. *)
Definition shared_write (m : option (gmap string any)) (k : string) (v : any)
  : option (gmap string any) :=
  <[k:=v]> <$> m.

Fixpoint decode_loop (n : nat) (dec : Decoder) (o : OrderedMap)
    (hasKey : gset string) {struct n} : run (Decoder * OrderedMap * option error) :=
  match n with
  | O => Exhausted
  | S n' =>
    match Token_ dec with
    | (dec, inr err) => Ret (dec, o, Some err)
    | (dec, inl (TDelim RBrace)) => Ret (dec, o, None)
    | (dec, inl (TString key)) =>
      match record_key key (bool_decide (key ∈ hasKey)) (keys o) with
      | None => Panics IndexOutOfRange
      | Some ks =>
        let o := {| keys := ks; values := values o |} in
        let hasKey := {[key]} ∪ hasKey in
        match Token_ dec with
        | (dec, inr err) => Ret (dec, o, Some err)
        | (dec, inl (TDelim LBrace)) =>
          match fst (map_index (values o) key) with
          | Map vals =>
            match decode_loop n' dec {| keys := []; values := vals |} ∅ with
            | Ret (dec, newMap, None) =>
              match map_assign (values o) key (OrderedMapV newMap) with
              | Some vs => decode_loop n' dec {| keys := keys o; values := vs |} hasKey
              | None => Panics NilMapAssign
              end
            | Ret (dec, newMap, Some err) =>
              Ret (dec, {| keys := keys o;
                           values := shared_write (values o) key (Map (values newMap)) |},
                   Some err)
            | Panics p => Panics p
            | Exhausted => Exhausted
            end
          | OMap oldKeys oldVals =>
            match decode_loop n' dec {| keys := []; values := oldVals |} ∅ with
            | Ret (dec, newMap, None) =>
              match map_assign (values o) key (OrderedMapV newMap) with
              | Some vs => decode_loop n' dec {| keys := keys o; values := vs |} hasKey
              | None => Panics NilMapAssign
              end
            | Ret (dec, newMap, Some err) =>
              Ret (dec, {| keys := keys o;
                           values := shared_write (values o) key (OMap oldKeys (values newMap)) |},
                   Some err)
            | Panics p => Panics p
            | Exhausted => Exhausted
            end
          | _ =>
            match decode_loop n' dec {| keys := []; values := None |} ∅ with
            | Ret (dec, _, None) => decode_loop n' dec o hasKey
            | Ret (dec, _, Some err) => Ret (dec, o, Some err)
            | Panics p => Panics p
            | Exhausted => Exhausted
            end
          end
        | (dec, inl (TDelim LBracket)) =>
          match fst (map_index (values o) key) with
          | Slice vals =>
            match decodeSlice_loop n' dec vals 0 with
            | Ret (dec, vals', err) =>
              let o := {| keys := keys o;
                          values := shared_write (values o) key (Slice vals') |} in
              match err with
              | None => decode_loop n' dec o hasKey
              | Some e => Ret (dec, o, Some e)
              end
            | Panics p => Panics p
            | Exhausted => Exhausted
            end
          | _ =>
            match decodeSlice_loop n' dec [] 0 with
            | Ret (dec, _, None) => decode_loop n' dec o hasKey
            | Ret (dec, _, Some err) => Ret (dec, o, Some err)
            | Panics p => Panics p
            | Exhausted => Exhausted
            end
          end
        | (dec, inl _) => decode_loop n' dec o hasKey
        end
      end
    | (dec, inl _) => Panics TypeAssertion
    end
  end
with decodeSlice_loop (n : nat) (dec : Decoder) (s : list any) (index : nat)
    {struct n} : run (Decoder * list any * option error) :=
  match n with
  | O => Exhausted
  | S n' =>
    match Token_ dec with
    | (dec, inr err) => Ret (dec, s, Some err)
    | (dec, inl (TDelim LBrace)) =>
      match s !! index with
      | Some (Map vals) =>
        match decode_loop n' dec {| keys := []; values := vals |} ∅ with
        | Ret (dec, newMap, None) =>
            decodeSlice_loop n' dec (<[index:=OrderedMapV newMap]> s) (S index)
        | Ret (dec, newMap, Some err) =>
            Ret (dec, <[index:=Map (values newMap)]> s, Some err)
        | Panics p => Panics p
        | Exhausted => Exhausted
        end
      | Some (OMap oldKeys oldVals) =>
        match decode_loop n' dec {| keys := []; values := oldVals |} ∅ with
        | Ret (dec, newMap, None) =>
            decodeSlice_loop n' dec (<[index:=OrderedMapV newMap]> s) (S index)
        | Ret (dec, newMap, Some err) =>
            Ret (dec, <[index:=OMap oldKeys (values newMap)]> s, Some err)
        | Panics p => Panics p
        | Exhausted => Exhausted
        end
      | _ =>
        match decode_loop n' dec {| keys := []; values := None |} ∅ with
        | Ret (dec, _, None) => decodeSlice_loop n' dec s (S index)
        | Ret (dec, _, Some err) => Ret (dec, s, Some err)
        | Panics p => Panics p
        | Exhausted => Exhausted
        end
      end
    | (dec, inl (TDelim LBracket)) =>
      match s !! index with
      | Some (Slice vals) =>
        match decodeSlice_loop n' dec vals 0 with
        | Ret (dec, vals', None) =>
            decodeSlice_loop n' dec (<[index:=Slice vals']> s) (S index)
        | Ret (dec, vals', Some err) => Ret (dec, <[index:=Slice vals']> s, Some err)
        | Panics p => Panics p
        | Exhausted => Exhausted
        end
      | _ =>
        match decodeSlice_loop n' dec [] 0 with
        | Ret (dec, _, None) => decodeSlice_loop n' dec s (S index)
        | Ret (dec, _, Some err) => Ret (dec, s, Some err)
        | Panics p => Panics p
        | Exhausted => Exhausted
        end
      end
    | (dec, inl (TDelim RBracket)) => Ret (dec, s, None)
    | (dec, inl _) => decodeSlice_loop n' dec s (S index)
    end
  end.

(** [hasKey := make(map[string]bool, len(o.values))] and the loop. *)
Definition decode (n : nat) (dec : Decoder) (o : OrderedMap)
  : run (Decoder * OrderedMap * option error) :=
  decode_loop n dec o ∅.

Definition decodeSlice (n : nat) (dec : Decoder) (s : list any)
  : run (Decoder * list any * option error) :=
  decodeSlice_loop n dec s 0.

(** ** UnmarshalJSON *)

Definition UnmarshalJSON (b : list lexeme) (o : OrderedMap)
  : run (OrderedMap * option error) :=
  match CheckDuplicate (NewDecoder b) with
  | Ret (_, Some err) => Ret (o, Some err)
  | Ret (_, None) =>
      let o := match values o with
               | None => {| keys := keys o; values := Some ∅ |}
               | Some _ => o
               end in
      match json_Unmarshal b (values o) with
      | (vs, Some err) => Ret ({| keys := keys o; values := vs |}, Some err)
      | (vs, None) =>
          let o := {| keys := keys o; values := vs |} in
          let dec := NewDecoder b in
          match Token_ dec with
          | (_, inr err) => Ret (o, Some err)
          | (dec, inl _) =>
              let o := {| keys := []; values := values o |} in
              match decode (S (length (buf dec))) dec o with
              | Ret (_, o, err) => Ret (o, err)
              | Panics p => Panics p
              | Exhausted => Exhausted
              end
          end
      end
  | Panics p => Panics p
  | Exhausted => Exhausted
  end.

(** ** Strings as the encoder writes them *)

(** [first] and [acceptRanges] of [unicode/utf8]: for the first byte of an
    encoding, how many bytes follow and the bounds of the second one;
    [None] for a byte that starts no encoding. *)
Definition rune_form (c : ascii) : option (nat * N * N) :=
  let n := N_of_ascii c in
  if (n <? 0x80)%N then Some (0%nat, 0x00%N, 0x00%N)
  else if (n <? 0xC2)%N then None
  else if (n <=? 0xDF)%N then Some (1%nat, 0x80%N, 0xBF%N)
  else if (n =? 0xE0)%N then Some (2%nat, 0xA0%N, 0xBF%N)
  else if (n =? 0xED)%N then Some (2%nat, 0x80%N, 0x9F%N)
  else if (n <=? 0xEF)%N then Some (2%nat, 0x80%N, 0xBF%N)
  else if (n =? 0xF0)%N then Some (3%nat, 0x90%N, 0xBF%N)
  else if (n <=? 0xF3)%N then Some (3%nat, 0x80%N, 0xBF%N)
  else if (n =? 0xF4)%N then Some (3%nat, 0x80%N, 0x8F%N)
  else None.

Definition byte_within (lo hi : N) (c : ascii) : bool :=
  ((lo <=? N_of_ascii c) && (N_of_ascii c <=? hi))%N.

(** The next [k] bytes are continuation bytes. *)
Fixpoint continues (k : nat) (s : string) : bool :=
  match k, s with
  | O, _ => true
  | S k', String c s' => byte_within 0x80 0xBF c && continues k' s'
  | S _, EmptyString => false
  end.

(** [utf8.DecodeRuneInString] at [c :: s]: the number of bytes that follow
    [c] in a valid encoding, or [None] for [RuneError] of width 1. *)
Definition rune_tail (c : ascii) (s : string) : option nat :=
  match rune_form c with
  | None => None
  | Some (O, _, _) => Some O
  | Some (S k, lo, hi) =>
      match s with
      | String c1 s' =>
          if byte_within lo hi c1 && continues k s' then Some (S k) else None
      | EmptyString => None
      end
  end.

(** The UTF-8 encoding of U+FFFD. *)
Definition replacement : string :=
  String (ascii_of_N 0xEF) (String (ascii_of_N 0xBF) (String (ascii_of_N 0xBD) EmptyString)).

(** The string that the literal written for [s] decodes to: each byte that
    is not part of a valid UTF-8 encoding is replaced by U+FFFD.  [skip]
    counts the bytes still to copy of the encoding being read. *)
Fixpoint coerce_loop (skip : nat) (s : string) : string :=
  match s with
  | EmptyString => EmptyString
  | String c s' =>
      match skip with
      | S k => String c (coerce_loop k s')
      | O =>
          match rune_tail c s' with
          | Some k => String c (coerce_loop k s')
          | None => (replacement +:+ coerce_loop O s')%string
          end
      end
  end.

Definition coerce (s : string) : string := coerce_loop O s.

(** ** json.Encoder, json.Marshal and MarshalJSON *)

(** The encodings of the values of a list, or the first error. *)
Fixpoint collect {A} (l : list (A + error)) : list A + error :=
  match l with
  | [] => inl []
  | inr err :: _ => inr err
  | inl x :: l' =>
      match collect l' with
      | inl xs => inl (x :: xs)
      | inr err => inr err
      end
  end.

(** The loop of [MarshalJSON] over the keys from position [i] on.
    [Encoder.Encode] writes the JSON encoding of its argument followed by a
    newline character, or writes nothing and returns an error, on which
    [MarshalJSON] returns no bytes and that error; [encode k] is the
    encoding of [o.values[k]]. *)
Fixpoint MarshalJSON_loop (encode : string → list lexeme + error) (i : nat)
    (ks : list string) : list lexeme + error :=
  match ks with
  | [] => inl []
  | k :: ks' =>
      match encode k with
      | inr err => inr err
      | inl v =>
          match MarshalJSON_loop encode (S i) ks' with
          | inr err => inr err
          | inl rest =>
              inl ((if decide (0 < i)%nat then [LComma] else [])
                     ++ ([LString (coerce k)] ++ [LSpace LF])
                     ++ [LColon]
                     ++ (v ++ [LSpace LF])
                     ++ rest)
          end
      end
  end.

Definition MarshalJSON_buf (encode : string → list lexeme + error) (ks : list string)
  : list lexeme + error :=
  match MarshalJSON_loop encode 0 ks with
  | inr err => inr err
  | inl members => inl ([LDelim LBrace] ++ members ++ [LDelim RBrace])
  end.

(** What the library makes of the output of a [MarshalJSON] method: it is
    checked and compacted.  The text [MarshalJSON] writes is valid, so only
    its nesting can be refused. *)
Definition appendCompact (b : list lexeme) : list lexeme + error :=
  if decide (maxNestingDepth < deepest 0 b) then inr SyntaxError
  else inl (compact b).

(** The library's encoding of a value, as [json.Marshal] and
    [Encoder.Encode] (before its newline) produce it, or the error of the
    first value it refuses.  A [float64] that is not finite and a channel
    are refused.  A [map[string]any] is written with its keys sorted; a
    value with a [MarshalJSON] method is written as the compacted output of
    that method. *)
Fixpoint marshal (v : any) : list lexeme + error :=
  match v with
  | Nil => inl [LNull]
  | Bool b => inl [LBool b]
  | Float64 f => if is_finite f then inl [LNumber f] else inr UnsupportedValueError
  | Int x => inl [LNumber (float64_of_int x)]
  | String_ s => inl [LString (coerce s)]
  | Chan => inr UnsupportedTypeError
  | Slice s =>
      match collect (marshal <$> s) with
      | inr err => inr err
      | inl ts => inl (LDelim LBracket :: join_comma ts ++ [LDelim RBracket])
      end
  | Map None => inl [LNull]
  | Map (Some m) =>
      let e := marshal <$> m in
      match collect ((λ k, match default (inl [LNull]) (e !! k) with
                           | inr err => inr err
                           | inl t => inl (LString (coerce k) :: LColon :: t)
                           end)
                       <$> merge_sort String.le (elements (dom m))) with
      | inr err => inr err
      | inl ts => inl (LDelim LBrace :: join_comma ts ++ [LDelim RBrace])
      end
  | OMap ks None =>
      match MarshalJSON_buf (λ _, inl [LNull]) ks with
      | inr err => inr (MarshalerError err)
      | inl b =>
          match appendCompact b with
          | inr err => inr (MarshalerError err)
          | inl t => inl t
          end
      end
  | OMap ks (Some m) =>
      let e := marshal <$> m in
      match MarshalJSON_buf (λ k, default (inl [LNull]) (e !! k)) ks with
      | inr err => inr (MarshalerError err)
      | inl b =>
          match appendCompact b with
          | inr err => inr (MarshalerError err)
          | inl t => inl t
          end
      end
  end.

(** [MarshalJSON]: the bytes, or the error of the encoder. *)
Definition MarshalJSON (o : OrderedMap) : list lexeme + error :=
  MarshalJSON_buf (λ k, marshal (fst (map_index (values o) k))) (keys o).

(** [json.Marshal(o)]: the library calls [MarshalJSON], checks and compacts. *)
Definition json_Marshal (o : OrderedMap) : list lexeme + error :=
  marshal (OrderedMapV o).

(** ** Notions the statements are written in *)

(** [k] is the key of two members of one object somewhere in the document. *)
Inductive duplicated (k : string) : json → Prop :=
| dup_here m i1 i2 v1 v2 :
    i1 ≠ i2 → m !! i1 = Some (k, v1) → m !! i2 = Some (k, v2) →
    duplicated k (JObject m)
| dup_member m k' v :
    (k', v) ∈ m → duplicated k v → duplicated k (JObject m)
| dup_element l v :
    v ∈ l → duplicated k v → duplicated k (JArray l).

(** What stops the scan, in document order: the members of an object are
    read in order with the keys [seen] so far; a key seen before stops it,
    and so does what stops it inside a member value. *)
Fixpoint first_fault_members (first_fault : json → option error)
    (seen : gset string) (m : list (string * json)) : option error :=
  match m with
  | [] => None
  | kv :: m' =>
      if decide (kv.1 ∈ seen) then Some (ErrJSONDuplicate kv.1)
      else
        match first_fault kv.2 with
        | Some e => Some e
        | None => first_fault_members first_fault ({[kv.1]} ∪ seen) m'
        end
  end.

Fixpoint first_fault_elements (first_fault : json → option error) (l : list json)
  : option error :=
  match l with
  | [] => None
  | v :: l' =>
      match first_fault v with
      | Some e => Some e
      | None => first_fault_elements first_fault l'
      end
  end.

(** The first repeated key or number too large of a document, as the error
    it makes. *)
Fixpoint first_fault (j : json) : option error :=
  match j with
  | JBigNumber => Some UnmarshalTypeError
  | JArray l => first_fault_elements first_fault l
  | JObject m => first_fault_members first_fault ∅ m
  | _ => None
  end.

(** What a fault stands for: a repeated key of the document, or a number
    too large in it. *)
Definition fault_of (j : json) (e : error) : Prop :=
  (∃ k, e = ErrJSONDuplicate k ∧ duplicated k j) ∨
  (e = UnmarshalTypeError ∧ overflows j = true).

(** The nesting of arrays and objects in a document. *)
Fixpoint depth (j : json) : Z :=
  match j with
  | JArray l => 1 + foldr Z.max 0 (depth <$> l)
  | JObject m => 1 + foldr Z.max 0 ((λ kv, depth kv.2) <$> m)
  | _ => 0
  end.

(** The value a document stands for in a container: objects are ordered
    maps with their keys in document order, arrays are slices. *)
Fixpoint promote (j : json) : any :=
  match j with
  | JNull => Nil
  | JBool b => Bool b
  | JNumber x => Float64 x
  | JBigNumber => Nil
  | JString s => String_ s
  | JArray l => Slice (promote <$> l)
  | JObject m =>
      OMap (m.*1) (Some (insert_all ∅ ((λ kv, (kv.1, promote kv.2)) <$> m)))
  end.

(** The document the library writes for a value, when it writes one. *)
Fixpoint doc_of (v : any) : json :=
  match v with
  | Nil => JNull
  | Bool b => JBool b
  | Float64 f => JNumber f
  | Int x => JNumber (float64_of_int x)
  | String_ s => JString (coerce s)
  | Chan => JNull
  | Slice s => JArray (doc_of <$> s)
  | Map None => JNull
  | Map (Some m) =>
      let d := doc_of <$> m in
      JObject ((λ k, (coerce k, default JNull (d !! k)))
                 <$> merge_sort String.le (elements (dom m)))
  | OMap ks None => JObject ((λ k, (coerce k, JNull)) <$> ks)
  | OMap ks (Some m) =>
      let d := doc_of <$> m in
      JObject ((λ k, (coerce k, default JNull (d !! k))) <$> ks)
  end.

(** The encoder accepts the value: every [float64] in it is finite, there
    is no channel, and no ordered map in it is written with a nesting
    beyond the limit.  Of the entries of an ordered map only those of its
    keys are written. *)
Inductive encodable : any → Prop :=
| enc_Nil : encodable Nil
| enc_Bool b : encodable (Bool b)
| enc_Float64 f : is_finite f = true → encodable (Float64 f)
| enc_Int x : encodable (Int x)
| enc_String s : encodable (String_ s)
| enc_Slice s : Forall encodable s → encodable (Slice s)
| enc_Map_nil : encodable (Map None)
| enc_Map m : (∀ k v, m !! k = Some v → encodable v) → encodable (Map (Some m))
| enc_OMap_nil ks : encodable (OMap ks None)
| enc_OMap ks m :
    (∀ k v, k ∈ ks → m !! k = Some v → encodable v) →
    depth (doc_of (OMap ks (Some m))) ≤ maxNestingDepth →
    encodable (OMap ks (Some m)).

(** The data model's invariant: [keys] lists the keys of [values], each once. *)
Definition keys_match_values (o : OrderedMap) : Prop :=
  NoDup (keys o) ∧ list_to_set (keys o) = map_keys (values o).

(** The values that come back from the text as they are: nil, a [bool], a
    finite [float64], a string of valid UTF-8, a slice of such values, and
    a container built from the empty one by [Set] calls with keys of valid
    UTF-8 and such values. *)
Inductive storable : any → Prop :=
| storable_Nil : storable Nil
| storable_Bool b : storable (Bool b)
| storable_Float64 f : is_finite f = true → storable (Float64 f)
| storable_String s : coerce s = s → storable (String_ s)
| storable_Slice s : Forall storable s → storable (Slice s)
| storable_OrderedMap o : built o → storable (OrderedMapV o)
with built : OrderedMap → Prop :=
| built_New : built New
| built_Set o k v o' :
    built o → coerce k = k → storable v → Set_ k v o = Ret o' → built o'.

(** The shape of such values: no plain map, no nil map, no number that is
    not a [float64], no channel, and every ordered map satisfies the
    invariant. *)
Inductive well_formed : any → Prop :=
| wf_Nil : well_formed Nil
| wf_Bool b : well_formed (Bool b)
| wf_Float64 f : well_formed (Float64 f)
| wf_String s : well_formed (String_ s)
| wf_Slice s : Forall well_formed s → well_formed (Slice s)
| wf_OMap ks m :
    NoDup ks → list_to_set ks = dom m →
    (∀ k v, m !! k = Some v → well_formed v) →
    well_formed (OMap ks (Some m)).

(** The scalars of the value are written as they are: every string and
    every key is valid UTF-8, every [float64] is finite and there is no
    other number. *)
Inductive exact : any → Prop :=
| exact_Nil : exact Nil
| exact_Bool b : exact (Bool b)
| exact_Float64 f : is_finite f = true → exact (Float64 f)
| exact_String s : coerce s = s → exact (String_ s)
| exact_Slice s : Forall exact s → exact (Slice s)
| exact_OMap ks m :
    Forall (λ k, coerce k = k) ks →
    (∀ k v, m !! k = Some v → exact v) →
    exact (OMap ks (Some m)).

(** The scalars of the document are ones the decoder returns: every
    string and every key is valid UTF-8, every number is a finite
    [float64]. *)
Inductive decoded : json → Prop :=
| decoded_Null : decoded JNull
| decoded_Bool b : decoded (JBool b)
| decoded_Number f : is_finite f = true → decoded (JNumber f)
| decoded_String s : coerce s = s → decoded (JString s)
| decoded_Array l : Forall decoded l → decoded (JArray l)
| decoded_Object m :
    Forall (λ kv, coerce kv.1 = kv.1 ∧ decoded kv.2) m → decoded (JObject m).

(** The container comes back from its own text: [MarshalJSON] returns
    bytes, and [UnmarshalJSON] of them into an empty container returns the
    container. *)
Definition comes_back (o : OrderedMap) : Prop :=
  ∃ b, MarshalJSON o = inl b ∧ UnmarshalJSON b New = Ret (o, None).

(** Calls in sequence: [Set] for each pair of the list. *)
Fixpoint Set_all (kvs : list (string * any)) (o : OrderedMap) : run OrderedMap :=
  match kvs with
  | [] => Ret o
  | kv :: kvs' =>
      match Set_ kv.1 kv.2 o with
      | Ret o' => Set_all kvs' o'
      | other => other
      end
  end.

(** Containers the public API leads to from [New()].  [okSort] says which
    functions [SortKeys] is called with, [okTarget] on which containers
    [UnmarshalJSON] is called; a container is still there after a call of
    [UnmarshalJSON] that returned an error. *)
Inductive reachable_by (okSort : (list string → list string) → Prop)
    (okTarget : OrderedMap → Prop) : OrderedMap → Prop :=
| reach_New : reachable_by okSort okTarget New
| reach_Set o k v o' :
    reachable_by okSort okTarget o → Set_ k v o = Ret o' →
    reachable_by okSort okTarget o'
| reach_Delete o k :
    reachable_by okSort okTarget o → reachable_by okSort okTarget (Delete k o)
| reach_SortKeys o f :
    reachable_by okSort okTarget o → okSort f →
    reachable_by okSort okTarget (SortKeys f o)
| reach_Sort o less :
    reachable_by okSort okTarget o → reachable_by okSort okTarget (Sort less o)
| reach_UnmarshalJSON o b o' err :
    reachable_by okSort okTarget o → okTarget o →
    UnmarshalJSON b o = Ret (o', err) →
    reachable_by okSort okTarget o'.

Definition reachable : OrderedMap → Prop :=
  reachable_by (λ _, True) (λ _, True).

(** ** Positions in a text *)

(** The separator [Token] passes over before it reads on in state [st]. *)
Definition pending (st : tokenState_) : list lexeme :=
  match st with
  | tokenObjectColon => [LColon]
  | tokenArrayComma | tokenObjectComma => [LComma]
  | _ => []
  end.

(** The states in which a value comes next, after the pending separator. *)
Definition value_ready (st : tokenState_) : bool :=
  match st with
  | tokenTopValue | tokenArrayStart | tokenArrayValue | tokenArrayComma
  | tokenObjectColon | tokenObjectValue => true
  | _ => false
  end.

(** The state in which that value starts, and the one it leaves behind. *)
Definition value_state (st : tokenState_) : tokenState_ :=
  match st with
  | tokenObjectColon => tokenObjectValue
  | tokenArrayComma => tokenArrayValue
  | _ => st
  end.

Definition value_done (st : tokenState_) : tokenState_ :=
  tokenValueEnd (value_state st).

(** The states in which a member key, or the end of the object, comes next;
    likewise for the elements of an array. *)
Definition key_ready (st : tokenState_) : bool :=
  match st with
  | tokenObjectStart | tokenObjectComma => true
  | _ => false
  end.

Definition element_ready (st : tokenState_) : bool :=
  match st with
  | tokenArrayStart | tokenArrayComma => true
  | _ => false
  end.

(** The text of the members still to come in state [st], up to the closing
    brace; likewise for the elements of an array. *)
Fixpoint obj_items (st : tokenState_) (m : list (string * json)) : list lexeme :=
  match m with
  | [] => []
  | kv :: m' =>
      pending st ++ LString kv.1 :: LColon :: lexemes kv.2
        ++ obj_items tokenObjectComma m'
  end.

Fixpoint arr_items (st : tokenState_) (l : list json) : list lexeme :=
  match l with
  | [] => []
  | v :: l' => pending st ++ lexemes v ++ arr_items tokenArrayComma l'
  end.

(** The lexemes a value can start with. *)
Definition value_start (x : lexeme) : bool :=
  match x with
  | LDelim LBrace | LDelim LBracket | LString _ | LNumber _ | LBigNumber
  | LBool _ | LNull => true
  | _ => false
  end.

(** The token [Token] returns for a scalar lexeme. *)
Definition scalar_token (x : lexeme) : option Token :=
  match x with
  | LString s => Some (TString s)
  | LNumber n => Some (TNumber n)
  | LBool b => Some (TBool b)
  | LNull => Some TNil
  | _ => None
  end.

(** No object of the document has two members with the same key. *)
Inductive dup_free : json → Prop :=
| dup_free_Null : dup_free JNull
| dup_free_Bool b : dup_free (JBool b)
| dup_free_Number x : dup_free (JNumber x)
| dup_free_BigNumber : dup_free JBigNumber
| dup_free_String s : dup_free (JString s)
| dup_free_Array l : Forall dup_free l → dup_free (JArray l)
| dup_free_Object m :
    NoDup (m.*1) → Forall (λ kv, dup_free kv.2) m → dup_free (JObject m).

(** What the scan returns on a document: what stops it as an error, or nil
    with the decoder [d_ok] behind the document. *)
Definition scan_outcome (r : run (Decoder * option error))
    (found : option error) (d_ok : Decoder) : Prop :=
  match found with
  | None => r = Ret (d_ok, None)
  | Some e => ∃ d', r = Ret (d', Some e)
  end.

(** The size of a value, for induction through maps. *)
Fixpoint any_size (v : any) : nat :=
  match v with
  | Slice s => S (sum_list (any_size <$> s))
  | Map (Some m) => S (sum_list ((map_to_list (any_size <$> m)).*2))
  | OMap _ (Some m) => S (sum_list ((map_to_list (any_size <$> m)).*2))
  | _ => 1%nat
  end.

(** The member of [MarshalJSON]'s output for key [k] with the encoding [t]
    of its value, and what the library's compaction leaves of it. *)
Definition member_written (k : string) (t : list lexeme) : list lexeme :=
  [LString (coerce k); LSpace LF; LColon] ++ t ++ [LSpace LF].

Definition member_compact (k : string) (t : list lexeme) : list lexeme :=
  LString (coerce k) :: LColon :: t.

(** The lexeme [More] finds is not a closing delimiter. *)
Definition more_ahead (b : list lexeme) : Prop :=
  match peek b with
  | None | Some (LDelim RBracket) | Some (LDelim RBrace) => False
  | Some _ => True
  end.

(** The part of the invariant that no call of the API breaks: every key of
    [keys] appears once and has an entry in [values]. *)
Definition keys_within_values (o : OrderedMap) : Prop :=
  NoDup (keys o) ∧ list_to_set (keys o) ⊆ map_keys (values o).

(** The keys that a sequence of [Set] calls appends to [keys]: each key at
    its first occurrence in the sequence, unless it is in [seen]. *)
Fixpoint first_occurrences (seen : gset string) (l : list string) : list string :=
  match l with
  | [] => []
  | k :: l' =>
      if decide (k ∈ seen) then first_occurrences seen l'
      else k :: first_occurrences ({[k]} ∪ seen) l'
  end.


(** [a] may come before [b]: [b] is not less than [a]. *)
Definition in_order (less : pair_ → pair_ → bool) (a b : pair_) : Prop :=
  less b a = false.

(** The keys as the loop of [decode] leaves them after the member keys [l],
    from the keys [ks] with [hasKey] seen; [None] is its panic. *)
Fixpoint record_keys (l : list string) (hasKey : gset string) (ks : list string)
  : option (list string) :=
  match l with
  | [] => Some ks
  | k :: l' =>
      match record_key k (bool_decide (k ∈ hasKey)) ks with
      | Some ks' => record_keys l' ({[k]} ∪ hasKey) ks'
      | None => None
      end
  end.

(** * Facts about the container operations *)


Lemma map_index_Some m k v :
  m ≫= (.!! k) = Some v → map_index m k = (v, true).
Proof. unfold map_index. by intros ->. Qed.

Lemma map_index_None m k :
  m ≫= (.!! k) = None → map_index m k = (Nil, false).
Proof. unfold map_index. by intros ->. Qed.

Lemma map_index_ok m k :
  snd (map_index m k) = true ↔ k ∈ map_keys m.
Proof.
  unfold map_index, map_keys. destruct m as [g|]; simpl.
  - rewrite elem_of_dom. destruct (g !! k) eqn:E; simpl.
    + split; [by eauto | done].
    + split; [done | by intros [? ?]].
  - split; [done | set_solver].
Qed.

Lemma Get_lookup o k :
  Get k o = default Nil (values o ≫= (.!! k)).
Proof. unfold Get, map_index. by destruct (values o ≫= _). Qed.

Lemma index_of_Some key ks i :
  index_of key ks = Some i →
  ks !! i = Some key ∧ ∀ j, (j < i)%nat → ks !! j ≠ Some key.
Proof.
  revert i. induction ks as [|k ks IH]; intros i; simpl; [done|].
  destruct (decide (k = key)) as [->|Hne].
  - intros [= <-]. split; [done|]. intros j Hj. lia.
  - destruct (index_of key ks) as [i'|]; simpl; [|done].
    intros [= <-]. destruct (IH i' eq_refl) as [H1 H2]. split; [done|].
    intros [|j] Hj; simpl; [congruence|]. apply H2. lia.
Qed.

Lemma index_of_None key ks :
  index_of key ks = None ↔ key ∉ ks.
Proof.
  induction ks as [|k ks IH]; simpl.
  - split; [intros _; apply not_elem_of_nil | done].
  - destruct (decide (k = key)) as [->|Hne].
    + split; [done|]. intros H. exfalso. apply H. left.
    + rewrite not_elem_of_cons. destruct (index_of key ks); simpl.
      * split; [done|]. intros [_ H]. by apply IH in H.
      * split; [|done]. intros _. split; [done|]. by apply IH.
Qed.

Lemma index_of_elem key ks :
  key ∈ ks → ∃ i, index_of key ks = Some i.
Proof.
  intros H. destruct (index_of key ks) as [i|] eqn:E; [by eauto|].
  by apply index_of_None in E.
Qed.

Lemma NoDup_lookup_inj (ks : list string) i j key :
  NoDup ks → ks !! i = Some key → ks !! j = Some key → i = j.
Proof. intros Hnd Hi Hj. by eapply NoDup_lookup. Qed.

Lemma lookup_cut (ks : list string) i (j : nat) :
  (take i ks ++ drop (S i) ks) !! j =
  if decide (j < i)%nat then ks !! j else ks !! S j.
Proof.
  destruct (decide (i ≤ length ks)%nat) as [Hle|Hgt].
  - case_decide.
    + rewrite lookup_app_l by (rewrite length_take; lia).
      by rewrite lookup_take_lt.
    + rewrite lookup_app_r by (rewrite length_take; lia).
      rewrite length_take, lookup_drop. f_equal. lia.
  - rewrite take_ge, drop_ge, app_nil_r by lia. case_decide; [done|].
    rewrite !lookup_ge_None_2; [done | lia | lia].
Qed.

Lemma cut_not_elem key (ks : list string) i :
  NoDup ks → ks !! i = Some key → key ∉ take i ks ++ drop (S i) ks.
Proof.
  intros Hnd Hi [j Hj]%list_elem_of_lookup. rewrite lookup_cut in Hj.
  case_decide.
  - pose proof (NoDup_lookup_inj _ _ _ _ Hnd Hi Hj). lia.
  - pose proof (NoDup_lookup_inj _ _ _ _ Hnd Hi Hj). lia.
Qed.

Lemma filter_all {A} (P : A → Prop) `{!∀ x, Decision (P x)} (l : list A) :
  Forall P l → filter P l = l.
Proof.
  induction 1 as [|x l Hx _ IH]; [done|]. by rewrite filter_cons_True, IH.
Qed.

Lemma cut_filter (key : string) ks i :
  NoDup ks → ks !! i = Some key →
  take i ks ++ drop (S i) ks = filter (λ k, k ≠ key) ks.
Proof.
  revert i. induction ks as [|k ks IH]; intros i Hnd Hi; [done|].
  apply NoDup_cons in Hnd as [Hk Hnd]. destruct i as [|i]; simpl in *.
  - injection Hi as ->. rewrite filter_cons_False by naive_solver.
    rewrite drop_0. symmetry. apply filter_all, Forall_forall.
    intros x Hx ->. done.
  - rewrite filter_cons_True.
    + f_equal. by apply IH.
    + intros ->. apply Hk. by eapply list_elem_of_lookup_2.
Qed.

Lemma slice_index_Ret {A} (s : list A) (pos : Z) x :
  slice_index s pos = Ret x ↔ 0 ≤ pos ∧ s !! Z.to_nat pos = Some x.
Proof.
  unfold slice_index. case_decide as Hpos.
  - destruct (s !! Z.to_nat pos) as [y|].
    + split; [by intros [= ->] | by intros [_ [= ->]]].
    + split; [done | by intros [_ ?]].
  - split; [done | by intros [? _]].
Qed.

Lemma slice_index_out {A} (s : list A) (pos : Z) :
  pos < 0 ∨ Z.of_nat (length s) ≤ pos → slice_index s pos = Panics IndexOutOfRange.
Proof.
  intros H. unfold slice_index. case_decide; [|done].
  rewrite lookup_ge_None_2; [done | lia].
Qed.

Lemma slice_index_in {A} (s : list A) (pos : Z) :
  0 ≤ pos < Z.of_nat (length s) → ∃ x, slice_index s pos = Ret x.
Proof.
  intros H. unfold slice_index. rewrite decide_True by lia.
  destruct (lookup_lt_is_Some_2 s (Z.to_nat pos)) as [x ->]; [lia | by eauto].
Qed.

Lemma slice_index_nat {A} (s : list A) (j : nat) :
  slice_index s (Z.of_nat j) =
  match s !! j with Some x => Ret x | None => Panics IndexOutOfRange end.
Proof. unfold slice_index. rewrite decide_True by lia. by rewrite Nat2Z.id. Qed.

Lemma slice_index_neg {A} (s : list A) (pos : Z) :
  pos < 0 → slice_index s pos = Panics IndexOutOfRange.
Proof. intros. apply slice_index_out. by left. Qed.


(** ** Set *)

Lemma Set_present o k v x :
  values o ≫= (.!! k) = Some x →
  ∃ g, values o = Some g ∧
       Set_ k v o = Ret {| keys := keys o; values := Some (<[k:=v]> g) |}.
Proof.
  intros H. unfold Set_. rewrite (map_index_Some _ _ _ H).
  destruct (values o) as [g|]; [|done]. by exists g.
Qed.

Lemma Set_absent o k v g :
  values o = Some g → g !! k = None →
  Set_ k v o = Ret {| keys := keys o ++ [k]; values := Some (<[k:=v]> g) |}.
Proof.
  intros Hg H. unfold Set_. rewrite Hg. simpl.
  rewrite map_index_None; [done | by simpl].
Qed.

Lemma Set_all_fresh kvs : ∀ o g,
  values o = Some g → NoDup (kvs.*1) → (∀ k, k ∈ kvs.*1 → g !! k = None) →
  ∃ o', Set_all kvs o = Ret o' ∧ keys o' = keys o ++ kvs.*1 ∧
        values o' = Some (insert_all g kvs).
Proof.
  induction kvs as [|[k v] kvs IH]; intros o g Hg Hnd Hfresh; simpl.
  - exists o. by rewrite app_nil_r.
  - apply NoDup_cons in Hnd as [Hk Hnd].
    rewrite (Set_absent o k v g) by (try done; apply Hfresh; left).
    edestruct (IH {| keys := keys o ++ [k]; values := Some (<[k:=v]> g) |})
      as (o' & Hrun & Hkeys & Hvals); [done | done | |].
    + intros k' Hk'. rewrite lookup_insert_ne by (intros ->; done).
      apply Hfresh. by right.
    + exists o'. split; [done|]. split; [|done].
      rewrite Hkeys. simpl. by rewrite <- app_assoc.
Qed.

(** C3. Setting [N] distinct keys [k1..kN] in that order on an empty
    container makes [Keys()] return exactly [[k1..kN]]; and [Set] on a key
    that is present overwrites its value and leaves [Keys()] as it was. *)
Theorem Set_keeps_insertion_order :
  (∀ kvs : list (string * any), NoDup (kvs.*1) →
     ∃ o, Set_all kvs New = Ret o ∧ Keys o = kvs.*1) ∧
  (∀ (o : OrderedMap) (k : string) (v : any),
     k ∈ map_keys (values o) →
     ∃ o', Set_ k v o = Ret o' ∧ Keys o' = Keys o ∧ Get k o' = v ∧
           ∀ k', k' ≠ k → Get k' o' = Get k' o).
Proof.
  split.
  - intros kvs Hnd.
    destruct (Set_all_fresh kvs New ∅ eq_refl Hnd) as (o & Hrun & Hkeys & _).
    + intros k _. apply lookup_empty.
    + by exists o.
  - intros o k v Hk. apply map_index_ok in Hk.
    destruct (values o ≫= (.!! k)) as [x|] eqn:E.
    + destruct (Set_present o k v x E) as (g & Hg & Hset).
      eexists. split; [done|]. split; [done|].
      split.
      * rewrite Get_lookup. simpl. by rewrite lookup_insert_eq.
      * intros k' Hne. rewrite !Get_lookup, Hg. simpl.
        by rewrite lookup_insert_ne.
    + by rewrite (map_index_None _ _ E) in Hk.
Qed.

(** ** Delete *)

Lemma Delete_absent o key :
  key ∉ map_keys (values o) → Delete key o = o.
Proof.
  intros H. unfold Delete.
  destruct (map_index (values o) key) as [x ok] eqn:E.
  destruct ok; [|done]. exfalso. apply H, map_index_ok. by rewrite E.
Qed.

Lemma Delete_present o key :
  key ∈ map_keys (values o) →
  Delete key o =
    {| keys := match index_of key (keys o) with
               | Some i => take i (keys o) ++ drop (S i) (keys o)
               | None => keys o
               end;
       values := map_delete (values o) key |}.
Proof.
  intros H%map_index_ok. unfold Delete.
  destruct (map_index (values o) key) as [x ok]. simpl in H. by subst ok.
Qed.

Lemma Delete_keys_filter o key :
  NoDup (keys o) → key ∈ map_keys (values o) →
  keys (Delete key o) = filter (λ k, k ≠ key) (keys o).
Proof.
  intros Hnd Hk. rewrite (Delete_present _ _ Hk). simpl.
  destruct (index_of key (keys o)) as [i|] eqn:E.
  - apply index_of_Some in E as [Hi _]. by apply cut_filter.
  - apply index_of_None in E. symmetry. apply filter_all, Forall_forall.
    by intros x Hx ->.
Qed.

Lemma Get_Delete o key k :
  Get k (Delete key o) = if decide (k = key) then Nil else Get k o.
Proof.
  destruct (decide (key ∈ map_keys (values o))) as [Hin|Hout].
  - rewrite (Delete_present _ _ Hin), !Get_lookup. simpl.
    unfold map_delete. destruct (values o) as [g|]; simpl.
    + case_decide as Hk.
      * subst k. by rewrite lookup_delete_eq.
      * by rewrite lookup_delete_ne.
    + by case_decide.
  - rewrite (Delete_absent _ _ Hout). case_decide as Hk; [|done].
    subst k. rewrite Get_lookup. unfold map_keys in Hout.
    destruct (values o) as [g|]; simpl; [|done].
    apply not_elem_of_dom in Hout. by rewrite Hout.
Qed.

Lemma GetKeyAt_Delete_before o key i (j : Z) :
  keys o !! i = Some key → index_of key (keys o) = Some i →
  key ∈ map_keys (values o) → j < Z.of_nat i →
  GetKeyAt j (Delete key o) = GetKeyAt j o.
Proof.
  intros Hi Hidx Hin Hj. rewrite (Delete_present _ _ Hin), Hidx.
  unfold GetKeyAt. simpl. unfold slice_index. case_decide; [|done].
  rewrite lookup_cut, decide_True by lia. done.
Qed.

Lemma GetKeyAt_Delete_after o key i (j : Z) :
  index_of key (keys o) = Some i →
  key ∈ map_keys (values o) → Z.of_nat i ≤ j →
  GetKeyAt j (Delete key o) = GetKeyAt (j + 1) o.
Proof.
  intros Hidx Hin Hj. rewrite (Delete_present _ _ Hin), Hidx.
  unfold GetKeyAt. simpl. unfold slice_index. rewrite !decide_True by lia.
  rewrite lookup_cut, decide_False by lia.
  by replace (Z.to_nat (j + 1)) with (S (Z.to_nat j)) by lia.
Qed.

(** C7. [Delete] of a key that is not in the map changes nothing, so
    [Len()] and [Keys()] stay.  [Delete] of a key that is there removes it
    from [Get] and, the keys being free of repetitions, from [Keys()]; the
    other keys keep their order and their values, and the positions behind
    the deleted key move down by one for [GetKeyAt] and [GetValueAt]. *)
Theorem Delete_removes_key (o : OrderedMap) (key : string) :
  (key ∉ map_keys (values o) →
     Delete key o = o ∧ Len (Delete key o) = Len o ∧ Keys (Delete key o) = Keys o) ∧
  (key ∈ map_keys (values o) →
     (key ∉ map_keys (values (Delete key o))) ∧
     Get key (Delete key o) = Nil ∧
     (∀ k, k ≠ key → Get k (Delete key o) = Get k o) ∧
     (NoDup (Keys o) →
        (key ∉ Keys (Delete key o)) ∧
        Keys (Delete key o) = filter (λ k, k ≠ key) (Keys o) ∧
        (∀ i, Keys o !! i = Some key →
           Len (Delete key o) = Len o - 1 ∧
           ∀ j : Z,
             (j < Z.of_nat i →
                GetKeyAt j (Delete key o) = GetKeyAt j o ∧
                GetValueAt j (Delete key o) = GetValueAt j o) ∧
             (Z.of_nat i ≤ j →
                GetKeyAt j (Delete key o) = GetKeyAt (j + 1) o ∧
                GetValueAt j (Delete key o) = GetValueAt (j + 1) o)))).
Proof.
  unfold Keys. split.
  - intros Hout. by rewrite (Delete_absent _ _ Hout).
  - intros Hin. split.
    { rewrite (Delete_present _ _ Hin). simpl. unfold map_delete, map_keys.
      destruct (values o) as [g|]; simpl; [|set_solver].
      rewrite dom_delete. set_solver. }
    split. { rewrite Get_Delete. by rewrite decide_True. }
    split. { intros k Hk. rewrite Get_Delete. by rewrite decide_False. }
    intros Hnd.
    assert (Hfilter := Delete_keys_filter o key Hnd Hin).
    assert (Hnot : key ∉ keys (Delete key o)).
    { rewrite Hfilter. intros Hx. by apply list_elem_of_filter in Hx as [Hx _]. }
    split; [done|]. split; [done|].
    intros i Hi.
    assert (Hidx : index_of key (keys o) = Some i).
    { destruct (index_of_elem key (keys o)) as [i' Hi'].
      - by eapply list_elem_of_lookup_2.
      - rewrite Hi'. f_equal. apply index_of_Some in Hi' as [Hi' _].
        by eapply NoDup_lookup. }
    assert (Hvals : ∀ j a b, GetKeyAt j (Delete key o) = GetKeyAt b o →
              (∀ k, GetKeyAt b o = Ret k → k ≠ key) →
              a = j → GetValueAt a (Delete key o) = GetValueAt b o).
    { intros j a b Heq Hne ->. unfold GetKeyAt in Heq, Hne.
      unfold GetValueAt. rewrite Heq.
      destruct (slice_index (keys o) b) as [k| |]; [|done..].
      fold (Get k (Delete key o)). fold (Get k o).
      rewrite Get_Delete, decide_False; [done | by apply Hne]. }
    split.
    { unfold Len. rewrite (Delete_present _ _ Hin), Hidx. simpl.
      apply lookup_lt_Some in Hi.
      rewrite length_app, length_take, length_drop. lia. }
    intros j. split; intros Hj.
    + assert (Hk := GetKeyAt_Delete_before o key i j Hi Hidx Hin Hj).
      split; [done|]. eapply Hvals; [done| |done].
      intros k [H0 Hk']%slice_index_Ret ->.
      pose proof (NoDup_lookup _ _ _ _ Hnd Hi Hk'). lia.
    + assert (Hk := GetKeyAt_Delete_after o key i j Hidx Hin Hj).
      split; [done|]. eapply Hvals; [done| |done].
      intros k [H0 Hk']%slice_index_Ret ->.
      pose proof (NoDup_lookup _ _ _ _ Hnd Hi Hk'). lia.
Qed.

(** ** Positional access *)

(** C9. A position below zero or from [Len()] on makes [GetKeyAt] and
    [GetValueAt] panic with an index out of range; at a position in range
    they return the key at that position and its value. *)
Theorem positional_access_bounds (o : OrderedMap) (pos : Z) :
  (pos < 0 ∨ Len o ≤ pos →
     GetKeyAt pos o = Panics IndexOutOfRange ∧
     GetValueAt pos o = Panics IndexOutOfRange) ∧
  (0 ≤ pos < Len o →
     ∃ k, Keys o !! Z.to_nat pos = Some k ∧
          GetKeyAt pos o = Ret k ∧ GetValueAt pos o = Ret (Get k o)).
Proof.
  unfold GetKeyAt, GetValueAt, Len, Keys. split.
  - intros H. by rewrite slice_index_out.
  - intros H. destruct (slice_index_in (keys o) pos H) as [k Hk].
    exists k. rewrite Hk. by apply slice_index_Ret in Hk as [_ Hk].
Qed.

(** ** Get *)

(** C10. [Get] of a key that is not in the map returns nil, which is also
    what it returns for a key stored with the value nil: the result of
    [Get] alone does not tell the two apart. *)
Theorem Get_absent_is_nil :
  (∀ (o : OrderedMap) (k : string), k ∉ map_keys (values o) → Get k o = Nil) ∧
  (∀ (o o' : OrderedMap) (k : string),
     values o ≫= (.!! k) = Some Nil → k ∉ map_keys (values o') →
     k ∈ map_keys (values o) ∧ Get k o = Get k o').
Proof.
  assert (Habsent : ∀ o k, k ∉ map_keys (values o) → Get k o = Nil).
  { intros o k H. rewrite Get_lookup. unfold map_keys in H.
    destruct (values o) as [g|]; simpl; [|done].
    apply not_elem_of_dom in H. by rewrite H. }
  split; [done|]. intros o o' k Hnil Hout. split.
  - apply map_index_ok. by rewrite (map_index_Some _ _ _ Hnil).
  - rewrite (Habsent o' k Hout), Get_lookup. by rewrite Hnil.
Qed.

(** ** SortKeys and Sort *)

Lemma swap_adjacent_Permutation {A} (l : list A) (j : nat) x y :
  l !! S j = Some x → l !! j = Some y →
  <[j:=x]> (<[S j:=y]> l) ≡ₚ l.
Proof.
  revert j. induction l as [|a l IH]; intros j Hx Hy; [done|].
  destruct j as [|j]; simpl in *.
  - destruct l as [|b l]; simplify_eq/=. apply perm_swap.
  - constructor. by apply IH.
Qed.

Lemma byPair_Swap_Permutation data j :
  Pairs (byPair_Swap data (S j) j) ≡ₚ Pairs data.
Proof.
  unfold byPair_Swap.
  destruct (Pairs data !! S j) as [x|] eqn:Hx; [|done].
  destruct (Pairs data !! j) as [y|] eqn:Hy; [|done].
  simpl. by apply swap_adjacent_Permutation.
Qed.

Lemma sift_down_Permutation j : ∀ data,
  Pairs (sift_down j data) ≡ₚ Pairs data.
Proof.
  induction j as [|j IH]; intros data; simpl; [done|].
  destruct (byPair_Less data (S j) j); [|done].
  rewrite IH. apply byPair_Swap_Permutation.
Qed.

Lemma sort_Sort_Permutation data :
  Pairs (sort_Sort data) ≡ₚ Pairs data.
Proof.
  unfold sort_Sort. generalize (seq 1 (pred (byPair_Len data))).
  intros l. revert data. induction l as [|i l IH]; intros data; simpl; [done|].
  rewrite IH. apply sift_down_Permutation.
Qed.

Lemma write_keys_all pairs : ∀ ks1 ks2,
  length ks2 = length pairs →
  write_keys (length ks1) pairs (ks1 ++ ks2) = ks1 ++ (key <$> pairs).
Proof.
  induction pairs as [|p pairs IH]; intros ks1 ks2 Hlen; simpl.
  - by destruct ks2.
  - destruct ks2 as [|k ks2]; [done|].
    rewrite insert_app_r_alt, Nat.sub_diag by lia. simpl.
    replace (ks1 ++ key p :: ks2) with ((ks1 ++ [key p]) ++ ks2)
      by (by rewrite <- app_assoc).
    replace (S (length ks1)) with (length (ks1 ++ [key p]))
      by (rewrite length_app; simpl; lia).
    rewrite IH by (simpl in Hlen; lia). by rewrite <- app_assoc.
Qed.

Lemma Sort_keys less o :
  keys (Sort less o) =
  key <$> Pairs (sort_Sort
    {| Pairs := (λ k, {| key := k; value := fst (map_index (values o) k) |}) <$> keys o;
       LessFunc := less |}).
Proof.
  unfold Sort. simpl.
  set (data := {| Pairs := _; LessFunc := less |}).
  apply (write_keys_all _ [] (keys o)).
  rewrite (Permutation_length (sort_Sort_Permutation data)).
  subst data. simpl. by rewrite length_fmap.
Qed.

Lemma Sort_keys_Permutation less o : keys (Sort less o) ≡ₚ keys o.
Proof.
  rewrite Sort_keys, sort_Sort_Permutation. simpl.
  rewrite <- list_fmap_compose. by rewrite list_fmap_id.
Qed.

(** C8. When the function given to [SortKeys] sorts (its result is in
    lexicographic order and a permutation of its argument), [Keys()] is in
    lexicographic order afterwards and holds the same keys; whatever the
    function, the values map is untouched, so [Get] returns for every key
    what it returned before.  [Sort] permutes the keys and leaves the values
    map untouched as well. *)
Theorem sorting_changes_only_key_order (o : OrderedMap) :
  (∀ sortFunc : list string → list string,
     ((∀ ks, Sorted String.le (sortFunc ks) ∧ sortFunc ks ≡ₚ ks) →
        Sorted String.le (Keys (SortKeys sortFunc o)) ∧
        Keys (SortKeys sortFunc o) ≡ₚ Keys o) ∧
     values (SortKeys sortFunc o) = values o ∧
     (∀ k, Get k (SortKeys sortFunc o) = Get k o)) ∧
  (∀ lessFunc : pair_ → pair_ → bool,
     Keys (Sort lessFunc o) ≡ₚ Keys o ∧
     values (Sort lessFunc o) = values o ∧
     (∀ k, Get k (Sort lessFunc o) = Get k o)).
Proof.
  split.
  - intros sortFunc. split; [|by split]. intros H. apply H.
  - intros lessFunc. split; [apply Sort_keys_Permutation|]. by split.
Qed.

(** * Documents and their text *)

(** Induction over documents, with the hypothesis for every element and
    every member value. *)
Lemma json_nested_ind (P : json → Prop) :
  P JNull → (∀ b, P (JBool b)) → (∀ x, P (JNumber x)) → P JBigNumber →
  (∀ s, P (JString s)) →
  (∀ l, Forall P l → P (JArray l)) →
  (∀ m, Forall (λ kv, P kv.2) m → P (JObject m)) →
  ∀ j, P j.
Proof.
  intros Hnull Hbool Hnum Hbig Hstr Harr Hobj.
  fix IH 1. intros [| | | | |l|m]; [done..| |].
  - apply Harr. induction l as [|v l IHl]; constructor; [apply IH | done].
  - apply Hobj. induction m as [|[k v] m IHm]; constructor; [apply IH | done].
Qed.

Lemma obj_items_comma m :
  concat ((λ y, LComma :: y) <$>
            ((λ kv : string * json, LString kv.1 :: LColon :: lexemes kv.2) <$> m)) =
  obj_items tokenObjectComma m.
Proof.
  induction m as [|kv m IH]; [done|]. simpl. do 3 f_equal.
  apply (f_equal (app (lexemes kv.2))), IH.
Qed.

Lemma arr_items_comma l :
  concat ((λ y, LComma :: y) <$> (lexemes <$> l)) = arr_items tokenArrayComma l.
Proof.
  induction l as [|v l IH]; [done|]. simpl. f_equal.
  apply (f_equal (app (lexemes v))), IH.
Qed.

Lemma lexemes_Object m :
  lexemes (JObject m) =
  LDelim LBrace :: obj_items tokenObjectStart m ++ [LDelim RBrace].
Proof.
  destruct m as [|kv m]; [done|].
  change (lexemes (JObject (kv :: m))) with
    (LDelim LBrace :: (LString kv.1 :: LColon :: lexemes kv.2 ++
       concat ((λ y, LComma :: y) <$>
         ((λ kv : string * json, LString kv.1 :: LColon :: lexemes kv.2) <$> m)))
       ++ [LDelim RBrace]).
  by rewrite obj_items_comma.
Qed.

Lemma lexemes_Array l :
  lexemes (JArray l) =
  LDelim LBracket :: arr_items tokenArrayStart l ++ [LDelim RBracket].
Proof.
  destruct l as [|v l]; [done|].
  change (lexemes (JArray (v :: l))) with
    (LDelim LBracket :: (lexemes v ++
       concat ((λ y, LComma :: y) <$> (lexemes <$> l))) ++ [LDelim RBracket]).
  by rewrite arr_items_comma.
Qed.

Lemma lexemes_start j : ∃ x b, lexemes j = x :: b ∧ value_start x = true.
Proof. destruct j; simpl; eauto. Qed.

Lemma lexemes_no_space j : Forall (λ x, is_space x = false) (lexemes j).
Proof.
  induction j as [| | | | |l IH|m IH] using json_nested_ind; simpl;
    try by repeat constructor.
  - constructor; [done|]. apply Forall_app. split; [|by repeat constructor].
    destruct l as [|v l]; simpl; [done|].
    apply Forall_cons in IH as [Hv IH]. apply Forall_app. split; [done|].
    induction IH as [|v' l Hv' _ IHl]; simpl; [done|].
    constructor; [done|]. by apply Forall_app.
  - constructor; [done|]. apply Forall_app. split; [|by repeat constructor].
    destruct m as [|kv m]; simpl; [done|].
    apply Forall_cons in IH as [Hv IH]. do 2 (constructor; [done|]).
    apply Forall_app. split; [done|].
    induction IH as [|kv' m Hv' _ IHm]; simpl; [done|].
    do 3 (constructor; [done|]). by apply Forall_app.
Qed.

Lemma compact_no_space b :
  Forall (λ x, is_space x = false) b → compact b = b.
Proof. apply filter_all. Qed.

Lemma compact_lexemes j : compact (lexemes j) = lexemes j.
Proof. apply compact_no_space, lexemes_no_space. Qed.

Lemma compact_idemp b : compact (compact b) = compact b.
Proof.
  apply compact_no_space, Forall_forall. intros x Hx.
  by apply list_elem_of_filter in Hx as [Hx _].
Qed.

(** * The token reader on the text of a document *)

Lemma Token_scalar st stk x t b :
  value_ready st = true → scalar_token x = Some t →
  Token_ (mkDecoder (pending st ++ x :: b) st stk) =
    (mkDecoder b (value_done st) stk, inl t).
Proof. by destruct st, x; intros [=] [= <-]. Qed.

Lemma Token_big_number st stk b :
  value_ready st = true →
  Token_ (mkDecoder (pending st ++ LBigNumber :: b) st stk) =
    (mkDecoder b (value_done st) stk, inr UnmarshalTypeError).
Proof. by destruct st; intros [=]. Qed.

Lemma Token_open_brace st stk b :
  value_ready st = true →
  Token_ (mkDecoder (pending st ++ LDelim LBrace :: b) st stk) =
    (mkDecoder b tokenObjectStart (value_state st :: stk), inl (TDelim LBrace)).
Proof. by destruct st; intros [=]. Qed.

Lemma Token_open_bracket st stk b :
  value_ready st = true →
  Token_ (mkDecoder (pending st ++ LDelim LBracket :: b) st stk) =
    (mkDecoder b tokenArrayStart (value_state st :: stk), inl (TDelim LBracket)).
Proof. by destruct st; intros [=]. Qed.

Lemma Token_close_brace st s0 stk b :
  key_ready st = true →
  Token_ (mkDecoder (LDelim RBrace :: b) st (s0 :: stk)) =
    (mkDecoder b (tokenValueEnd s0) stk, inl (TDelim RBrace)).
Proof. by destruct st; intros [=]. Qed.

Lemma Token_close_bracket st s0 stk b :
  element_ready st = true →
  Token_ (mkDecoder (LDelim RBracket :: b) st (s0 :: stk)) =
    (mkDecoder b (tokenValueEnd s0) stk, inl (TDelim RBracket)).
Proof. by destruct st; intros [=]. Qed.

Lemma Token_key st stk k b :
  key_ready st = true →
  Token_ (mkDecoder (pending st ++ LString k :: b) st stk) =
    (mkDecoder b tokenObjectColon stk, inl (TString k)).
Proof. by destruct st; intros [=]. Qed.

Lemma More_close st stk d b :
  d = RBrace ∨ d = RBracket →
  More (mkDecoder (LDelim d :: b) st stk) = false.
Proof. by intros [-> | ->]. Qed.

Lemma More_key st stk k b :
  key_ready st = true →
  More (mkDecoder (pending st ++ LString k :: b) st stk) = true.
Proof. by destruct st; intros [=]. Qed.

Lemma More_value st stk j b :
  element_ready st = true →
  More (mkDecoder (pending st ++ lexemes j ++ b) st stk) = true.
Proof.
  destruct (lexemes_start j) as (x & b' & -> & Hx).
  by destruct st, x as [[]| | | | | | | | |]; intros [=].
Qed.

Lemma element_value_ready st : element_ready st = true → value_ready st = true.
Proof. by destruct st. Qed.

Lemma value_done_element st : element_ready st = true → value_done st = tokenArrayComma.
Proof. by destruct st. Qed.

(** * CheckDuplicate on the text of a document *)

(** Goals that compare the lengths of texts. *)
Ltac solve_length :=
  repeat (progress (
    repeat match goal with
           | H : context [length (_ ++ _)] |- _ => rewrite length_app in H
           | |- context [length (_ ++ _)] => rewrite length_app
           end;
    cbn [length] in *));
  lia.

Lemma CheckDuplicate_members n' m :
  Forall (λ kv, ∀ st stk rest, value_ready st = true →
            (length (pending st ++ lexemes kv.2 ++ rest) < n')%nat →
            scan_outcome
              (CheckDuplicate_fuel n' (mkDecoder (pending st ++ lexemes kv.2 ++ rest) st stk))
              (first_fault kv.2) (mkDecoder rest (value_done st) stk)) m →
  ∀ n st s0 stk rest seen,
    key_ready st = true →
    (length (obj_items st m ++ LDelim RBrace :: rest) < n)%nat →
    (length (obj_items st m ++ LDelim RBrace :: rest) < n')%nat →
    scan_outcome
      (CheckDuplicate_object (CheckDuplicate_fuel n') n seen
         (mkDecoder (obj_items st m ++ LDelim RBrace :: rest) st (s0 :: stk)))
      (first_fault_members first_fault seen m)
      (mkDecoder rest (tokenValueEnd s0) stk).
Proof.
  induction 1 as [|[k v] m Hv _ IH]; intros n st s0 stk rest seen Hst Hn Hn'.
  - destruct n as [|n]; [simpl in Hn; lia|]. simpl.
    by rewrite (Token_close_brace _ _ _ _ Hst).
  - destruct n as [|n]; [simpl in Hn; lia|].
    cbn [obj_items fst snd] in *. rewrite <- !app_assoc in *.
    cbn [app] in *. rewrite <- !app_assoc in *.
    cbn [CheckDuplicate_object first_fault_members fst snd].
    rewrite (More_key _ _ _ _ Hst), (Token_key _ _ _ _ Hst).
    destruct (decide (k ∈ seen)) as [Hin|Hout]; [by eexists|].
    rewrite !length_app in Hn, Hn'. simpl in Hn, Hn'.
    rewrite !length_app in Hn, Hn'. simpl in Hn, Hn'.
    specialize (Hv tokenObjectColon (s0 :: stk)
                  (obj_items tokenObjectComma m ++ LDelim RBrace :: rest) eq_refl).
    simpl in Hv. rewrite !length_app in Hv. simpl in Hv.
    specialize (Hv ltac:(lia)). unfold scan_outcome in Hv.
    destruct (first_fault v) as [k'|].
    + destruct Hv as [d' ->]. by eexists.
    + rewrite Hv. change (value_done tokenObjectColon) with tokenObjectComma.
      apply IH; [done | |]; rewrite !length_app; simpl; lia.
Qed.

Lemma CheckDuplicate_elements n' l :
  Forall (λ v, ∀ st stk rest, value_ready st = true →
            (length (pending st ++ lexemes v ++ rest) < n')%nat →
            scan_outcome
              (CheckDuplicate_fuel n' (mkDecoder (pending st ++ lexemes v ++ rest) st stk))
              (first_fault v) (mkDecoder rest (value_done st) stk)) l →
  ∀ n st s0 stk rest,
    element_ready st = true →
    (length (arr_items st l ++ LDelim RBracket :: rest) < n)%nat →
    (length (arr_items st l ++ LDelim RBracket :: rest) < n')%nat →
    scan_outcome
      (CheckDuplicate_array (CheckDuplicate_fuel n') n
         (mkDecoder (arr_items st l ++ LDelim RBracket :: rest) st (s0 :: stk)))
      (first_fault_elements first_fault l)
      (mkDecoder rest (tokenValueEnd s0) stk).
Proof.
  induction 1 as [|v l Hv _ IH]; intros n st s0 stk rest Hst Hn Hn'.
  - destruct n as [|n]; [simpl in Hn; lia|]. simpl.
    by rewrite (Token_close_bracket _ _ _ _ Hst).
  - destruct n as [|n]; [simpl in Hn; lia|].
    cbn [arr_items] in *. rewrite <- !app_assoc in *.
    cbn [CheckDuplicate_array first_fault_elements].
    rewrite (More_value _ _ _ _ Hst).
    specialize (Hv st (s0 :: stk)
                  (arr_items tokenArrayComma l ++ LDelim RBracket :: rest)
                  (element_value_ready _ Hst) Hn').
    unfold scan_outcome in Hv. destruct (first_fault v) as [k'|].
    + destruct Hv as [d' ->]. by eexists.
    + rewrite Hv, (value_done_element _ Hst).
      destruct (lexemes_start v) as (x & b & Hx & _).
      rewrite Hx, !length_app in Hn, Hn'. simpl in Hn, Hn'.
      apply IH; [done | |]; rewrite !length_app; simpl; lia.
Qed.

Lemma CheckDuplicate_document j : ∀ fuel st stk rest,
  value_ready st = true →
  (length (pending st ++ lexemes j ++ rest) < fuel)%nat →
  scan_outcome
    (CheckDuplicate_fuel fuel (mkDecoder (pending st ++ lexemes j ++ rest) st stk))
    (first_fault j) (mkDecoder rest (value_done st) stk).
Proof.
  intros fuel. revert j.
  induction fuel as [fuel IHfuel] using lt_wf_ind.
  intros j st stk rest Hst Hn.
  destruct fuel as [|n]; [lia|].
  assert (Hscalar : ∀ x t, lexemes j = [x] → scalar_token x = Some t →
            first_fault j = None → (∀ d, t ≠ TDelim d) →
            scan_outcome
              (CheckDuplicate_fuel (S n) (mkDecoder (pending st ++ lexemes j ++ rest) st stk))
              (first_fault j) (mkDecoder rest (value_done st) stk)).
  { intros x t -> Ht -> Hnd. cbn [app CheckDuplicate_fuel scan_outcome].
    rewrite (Token_scalar _ _ _ _ _ Hst Ht).
    destruct t as [d| | | |]; [by destruct (Hnd d) | done..]. }
  destruct j as [|b|x| |s|l|m].
  - by eapply Hscalar.
  - by eapply Hscalar.
  - by eapply Hscalar.
  - cbn [lexemes app CheckDuplicate_fuel first_fault scan_outcome].
    rewrite (Token_big_number _ _ _ Hst). by eexists.
  - by eapply Hscalar.
  - rewrite lexemes_Array in *. cbn [app] in *. rewrite <- !app_assoc in *.
    cbn [CheckDuplicate_fuel]. rewrite (Token_open_bracket _ _ _ Hst).
    rewrite !length_app in Hn. simpl in Hn.
    apply CheckDuplicate_elements; [|done|..].
    + apply Forall_forall. intros v _ st' stk' rest' Hst' Hn'.
      apply IHfuel; [lia | done | done].
    + solve_length.
    + solve_length.
  - rewrite lexemes_Object in *. cbn [app] in *. rewrite <- !app_assoc in *.
    cbn [CheckDuplicate_fuel]. rewrite (Token_open_brace _ _ _ Hst).
    rewrite !length_app in Hn. simpl in Hn.
    apply CheckDuplicate_members; [|done|..].
    + apply Forall_forall. intros v _ st' stk' rest' Hst' Hn'.
      apply IHfuel; [lia | done | done].
    + solve_length.
    + solve_length.
Qed.

(** The value of a member, behind its colon. *)
Lemma Token_colon_scalar stk x t b :
  scalar_token x = Some t →
  Token_ (mkDecoder (LColon :: x :: b) tokenObjectColon stk) =
    (mkDecoder b tokenObjectComma stk, inl t).
Proof. apply (Token_scalar tokenObjectColon stk x t b eq_refl). Qed.

Lemma Token_colon_brace stk b :
  Token_ (mkDecoder (LColon :: LDelim LBrace :: b) tokenObjectColon stk) =
    (mkDecoder b tokenObjectStart (tokenObjectValue :: stk), inl (TDelim LBrace)).
Proof. done. Qed.

Lemma Token_colon_bracket stk b :
  Token_ (mkDecoder (LColon :: LDelim LBracket :: b) tokenObjectColon stk) =
    (mkDecoder b tokenArrayStart (tokenObjectValue :: stk), inl (TDelim LBracket)).
Proof. done. Qed.

(** * Repeated keys and numbers too large *)

Lemma first_fault_members_None seen m :
  first_fault_members first_fault seen m = None ↔
  NoDup (m.*1) ∧ (∀ k, k ∈ m.*1 → k ∉ seen) ∧
  Forall (λ kv, first_fault kv.2 = None) m.
Proof.
  revert seen. induction m as [|[k v] m IH]; intros seen; simpl.
  - split; [|done]. intros _. split; [constructor|]. split; [|done].
    intros k Hk. by apply elem_of_nil in Hk.
  - destruct (decide (k ∈ seen)) as [Hin|Hout].
    { split; [done|]. intros (_ & H & _). destruct (H k); [simpl; left | done]. }
    destruct (first_fault v) as [k'|] eqn:Ev.
    { split; [done|]. intros (_ & _ & H). apply Forall_cons in H as [H _].
      simpl in H. congruence. }
    rewrite IH. rewrite NoDup_cons, Forall_cons. simpl. split.
    + intros (Hnd & Hseen & Hall). split; [split; [|done]|split; [|done]].
      * intros Hk. apply (Hseen k Hk). set_solver.
      * intros k' [->|Hk']%elem_of_cons; [done|].
        intros Hin. apply (Hseen k' Hk'). set_solver.
    + intros ([Hk Hnd] & Hseen & _ & Hall). split; [done|]. split; [|done].
      intros k' Hk' [->%elem_of_singleton|Hin]%elem_of_union; [done|].
      apply (Hseen k'); [by right | done].
Qed.

Lemma first_fault_elements_None l :
  first_fault_elements first_fault l = None ↔ Forall (λ v, first_fault v = None) l.
Proof.
  induction l as [|v l IH]; simpl; [done|].
  rewrite Forall_cons. destruct (first_fault v); [|by rewrite IH; naive_solver].
  split; [done | by intros [? _]].
Qed.

Lemma first_fault_Array l :
  first_fault (JArray l) = None ↔ Forall (λ v, first_fault v = None) l.
Proof. apply first_fault_elements_None. Qed.

Lemma first_fault_Object m :
  first_fault (JObject m) = None ↔
  NoDup (m.*1) ∧ Forall (λ kv, first_fault kv.2 = None) m.
Proof.
  cbn [first_fault]. rewrite first_fault_members_None. split.
  - by intros (? & _ & ?).
  - intros [? ?]. split; [done|]. split; [set_solver | done].
Qed.

Lemma Forall_transfer {A} (P Q : A → Prop) (l : list A) :
  Forall (λ x, P x ↔ Q x) l → Forall P l ↔ Forall Q l.
Proof.
  induction 1 as [|x l Hx _ IH]; [done|]. rewrite !Forall_cons. naive_solver.
Qed.

Lemma existsb_false {A} (f : A → bool) (l : list A) :
  existsb f l = false ↔ Forall (λ x, f x = false) l.
Proof.
  induction l as [|x l IH]; simpl; [done|].
  rewrite Forall_cons, orb_false_iff, IH. done.
Qed.

Lemma Forall_and_split {A} (P Q : A → Prop) (l : list A) :
  Forall (λ x, P x ∧ Q x) l ↔ Forall P l ∧ Forall Q l.
Proof. rewrite !Forall_forall. naive_solver. Qed.

Lemma first_fault_None j : first_fault j = None ↔ dup_free j ∧ overflows j = false.
Proof.
  induction j as [| | | | |l IH|m IH] using json_nested_ind;
    try (split; [by split; [constructor|] | done]).
  - split; [done | by intros [_ ?]].
  - rewrite first_fault_Array, (Forall_transfer _ _ _ IH), Forall_and_split.
    cbn [overflows]. rewrite existsb_false. split.
    + intros [? ?]. split; [by constructor | done].
    + intros [H ?]. by inversion_clear H.
  - rewrite first_fault_Object.
    rewrite (Forall_transfer (λ kv, first_fault kv.2 = None)
               (λ kv, dup_free kv.2 ∧ overflows kv.2 = false) _ IH).
    rewrite Forall_and_split. cbn [overflows]. rewrite existsb_false. split.
    + intros (? & ? & ?). split; [by constructor | done].
    + intros [H ?]. by inversion_clear H.
Qed.

Lemma duplicated_not_dup_free k j : duplicated k j → ¬ dup_free j.
Proof.
  induction 1 as [m i1 i2 v1 v2 Hne H1 H2|m k' v Hin _ IH|l v Hin _ IH];
    inversion_clear 1 as [| | | | |? Hall|? Hnd Hall].
  - apply Hne. eapply NoDup_lookup; [done| |].
    + by rewrite list_lookup_fmap, H1.
    + by rewrite list_lookup_fmap, H2.
  - apply IH. rewrite Forall_forall in Hall. apply (Hall _ Hin).
  - apply IH. rewrite Forall_forall in Hall. apply (Hall _ Hin).
Qed.

Lemma duplicated_cons k kv m :
  duplicated k (JObject m) → duplicated k (JObject (kv :: m)).
Proof.
  inversion_clear 1 as [? i1 i2 v1 v2 Hne H1 H2|? k' v Hin Hd|].
  - by apply (dup_here k (kv :: m) (S i1) (S i2) v1 v2); [congruence|..].
  - apply (dup_member k (kv :: m) k' v); [by right | done].
Qed.

Lemma fault_of_member j e k m :
  (k, j) ∈ m → fault_of j e → fault_of (JObject m) e.
Proof.
  intros Hin [(k' & -> & Hd)|[-> Ho]]; [left|right].
  - exists k'. split; [done|]. by apply (dup_member _ _ k j).
  - split; [done|]. cbn [overflows]. apply existsb_exists. exists (k, j).
    split; [by apply list_elem_of_In | done].
Qed.

Lemma fault_of_element j e l :
  j ∈ l → fault_of j e → fault_of (JArray l) e.
Proof.
  intros Hin [(k' & -> & Hd)|[-> Ho]]; [left|right].
  - exists k'. split; [done|]. by apply (dup_element _ _ j).
  - split; [done|]. cbn [overflows]. apply existsb_exists. exists j.
    split; [by apply list_elem_of_In | done].
Qed.

Lemma fault_of_cons kv m e :
  fault_of (JObject m) e → fault_of (JObject (kv :: m)) e.
Proof.
  intros [(k' & -> & Hd)|[-> Ho]]; [left|right].
  - exists k'. split; [done|]. by apply duplicated_cons.
  - split; [done|]. cbn [overflows existsb] in *. rewrite Ho. by rewrite orb_true_r.
Qed.

Lemma first_fault_members_Some seen m e :
  Forall (λ kv, ∀ e, first_fault kv.2 = Some e → fault_of kv.2 e) m →
  first_fault_members first_fault seen m = Some e →
  (∃ k, e = ErrJSONDuplicate k ∧ k ∈ seen ∧ ∃ i v, m !! i = Some (k, v)) ∨
  fault_of (JObject m) e.
Proof.
  intros Hall. revert seen.
  induction Hall as [|[k1 v1] m Hv _ IH]; intros seen; simpl; [done|].
  destruct (decide (k1 ∈ seen)) as [Hin|Hout].
  { intros [= <-]. left. exists k1. split; [done|]. split; [done|]. by exists 0%nat, v1. }
  destruct (first_fault v1) as [e'|] eqn:Ev.
  { intros [= <-]. right. apply (fault_of_member v1 _ k1); [left | by apply Hv]. }
  intros [(k & -> & Hin & i & v & Hi)|Hd]%IH.
  - apply elem_of_union in Hin as [->%elem_of_singleton|Hin].
    + right. left. exists k1. split; [done|].
      by apply (dup_here k1 ((k1, v1) :: m) 0 (S i) v1 v).
    + left. exists k. split; [done|]. split; [done|]. by exists (S i), v.
  - right. by apply fault_of_cons.
Qed.

Lemma first_fault_Some j : ∀ e, first_fault j = Some e → fault_of j e.
Proof.
  induction j as [| | | | |l IH|m IH] using json_nested_ind; intros e; try done.
  - intros [= <-]. by right.
  - simpl. induction IH as [|v l Hv _ IHl]; simpl; [done|].
    destruct (first_fault v) as [e'|] eqn:Ev.
    + intros [= <-]. apply (fault_of_element v); [left | by apply Hv].
    + intros [(k & -> & Hd)|[-> Ho]]%IHl; [left|right].
      * exists k. split; [done|]. inversion_clear Hd as [| |? v' Hin Hd'].
        apply (dup_element _ _ v'); [by right | done].
      * split; [done|]. cbn [overflows existsb] in *. rewrite Ho. by rewrite orb_true_r.
  - simpl. intros [(k & _ & Hin & _)|Hd]%first_fault_members_Some;
      [set_solver|done|done].
Qed.

(** A document with a repeated key and no number too large: the scan stops
    at a repeated key. *)
Lemma duplicated_first_fault k j :
  duplicated k j → overflows j = false →
  ∃ k', first_fault j = Some (ErrJSONDuplicate k') ∧ duplicated k' j.
Proof.
  intros H%duplicated_not_dup_free Ho. destruct (first_fault j) as [e|] eqn:E.
  - apply first_fault_Some in E as [(k' & -> & Hd)|[_ Ho']]; [by eauto|congruence].
  - by apply first_fault_None in E as [? _].
Qed.

Lemma duplicated_fault k j : duplicated k j → ∃ e, first_fault j = Some e.
Proof.
  intros H%duplicated_not_dup_free. destruct (first_fault j) as [e|] eqn:E.
  - by eauto.
  - by apply first_fault_None in E as [? _].
Qed.

(** * Insertions in sequence *)

Lemma insert_all_cons g kv l :
  insert_all g (kv :: l) = insert_all (<[kv.1:=kv.2]> g) l.
Proof. done. Qed.

Lemma lookup_insert_all_notin l : ∀ g k,
  k ∉ l.*1 → insert_all g l !! k = g !! k.
Proof.
  induction l as [|[k' v] l IH]; intros g k Hk; [done|].
  rewrite insert_all_cons, IH by set_solver. simpl.
  apply lookup_insert_ne. set_solver.
Qed.

Lemma lookup_insert_all_NoDup l : ∀ g k v,
  NoDup (l.*1) → (k, v) ∈ l → insert_all g l !! k = Some v.
Proof.
  induction l as [|[k' v'] l IH]; intros g k v Hnd Hin.
  - by apply elem_of_nil in Hin.
  - simpl in Hnd. apply NoDup_cons in Hnd as [Hk' Hnd].
    rewrite insert_all_cons. apply elem_of_cons in Hin as [[= -> ->]|Hin].
    + rewrite lookup_insert_all_notin by done. simpl. apply lookup_insert_eq.
    + by apply IH.
Qed.

Lemma dom_insert_all l : ∀ g, dom (insert_all g l) = dom g ∪ list_to_set (l.*1).
Proof.
  induction l as [|[k v] l IH]; intros g.
  - simpl. set_solver.
  - rewrite insert_all_cons, IH. simpl. rewrite dom_insert_L. set_solver.
Qed.

Lemma insert_all_agree l : ∀ g1 g2,
  (∀ k, k ∉ l.*1 → g1 !! k = g2 !! k) → insert_all g1 l = insert_all g2 l.
Proof.
  induction l as [|[k v] l IH]; intros g1 g2 H.
  - apply map_eq. intros k. apply H. apply not_elem_of_nil.
  - rewrite !insert_all_cons. apply IH. intros k' Hk'. simpl.
    destruct (decide (k = k')) as [->|Hne].
    + by rewrite !lookup_insert_eq.
    + rewrite !lookup_insert_ne by done. apply H. simpl. set_solver.
Qed.

Lemma insert_all_overwrite l1 l2 :
  l1.*1 = l2.*1 → insert_all (insert_all ∅ l1) l2 = insert_all ∅ l2.
Proof.
  intros H. apply insert_all_agree. intros k Hk.
  apply lookup_insert_all_notin. by rewrite H.
Qed.

Lemma fst_tagged {A} (f : json → A) (m : list (string * json)) :
  ((λ kv, (kv.1, f kv.2)) <$> m).*1 = m.*1.
Proof. rewrite <- list_fmap_compose. done. Qed.

Lemma lookup_insert_all_Some l : ∀ (g : gmap string any) k x,
  insert_all g l !! k = Some x → (k, x) ∈ l ∨ g !! k = Some x.
Proof.
  induction l as [|[k' v] l IH]; intros g k x H; [by right|].
  rewrite insert_all_cons in H. apply IH in H as [H|H]; [left; by right|].
  cbn in H. destruct (decide (k' = k)) as [->|Hne].
  - rewrite lookup_insert_eq in H. injection H as ->. left. left.
  - rewrite lookup_insert_ne in H by done. by right.
Qed.

(** * decode on the text of a document *)

Lemma lexemes_cases j :
  (∃ x, lexemes j = [x] ∧ plain j = promote j ∧
        ∃ t, scalar_token x = Some t ∧ ∀ d, t ≠ TDelim d) ∨
  j = JBigNumber ∨ (∃ l, j = JArray l) ∨ (∃ m, j = JObject m).
Proof.
  destruct j as [| | | | |l|m]; eauto; left; eexists; (split; [done|]);
    (split; [done|]); eexists; (split; [done|]); done.
Qed.

Lemma record_key_new k (hasKey : gset string) ks :
  k ∉ hasKey → record_key k (bool_decide (k ∈ hasKey)) ks = Some (ks ++ [k]).
Proof. intros H. by rewrite bool_decide_eq_false_2. Qed.

Lemma decode_document n :
  (∀ m st s0 stk rest o g hasKey,
     key_ready st = true →
     (length (obj_items st m ++ LDelim RBrace :: rest) < n)%nat →
     values o = Some g → NoDup (m.*1) → (∀ k, k ∈ m.*1 → k ∉ hasKey) →
     (∀ k v, (k, v) ∈ m → g !! k = Some (plain v)) →
     Forall (λ kv, first_fault kv.2 = None) m →
     decode_loop n (mkDecoder (obj_items st m ++ LDelim RBrace :: rest) st (s0 :: stk))
       o hasKey =
     Ret (mkDecoder rest (tokenValueEnd s0) stk,
          {| keys := keys o ++ m.*1;
             values := Some (insert_all g ((λ kv, (kv.1, promote kv.2)) <$> m)) |},
          None)) ∧
  (∀ l st s0 stk rest done,
     element_ready st = true →
     (length (arr_items st l ++ LDelim RBracket :: rest) < n)%nat →
     Forall (λ v, first_fault v = None) l →
     decodeSlice_loop n
       (mkDecoder (arr_items st l ++ LDelim RBracket :: rest) st (s0 :: stk))
       (done ++ (plain <$> l)) (length done) =
     Ret (mkDecoder rest (tokenValueEnd s0) stk, done ++ (promote <$> l), None)).
Proof.
  induction n as [n IH] using lt_wf_ind. destruct n as [|n].
  { split; intros; lia. }
  assert (IHm := λ m, proj1 (IH n (Nat.lt_succ_diag_r n)) m).
  assert (IHl := λ l, proj2 (IH n (Nat.lt_succ_diag_r n)) l).
  clear IH. split.
  - intros [|[k v] m] st s0 stk rest o g hasKey Hst Hn Hg Hnd Hfresh Hplain Hfree.
    { cbn [obj_items app decode_loop]. rewrite (Token_close_brace _ _ _ _ Hst).
      destruct o as [ks vs]. simpl in *. by rewrite app_nil_r, Hg. }
    cbn [obj_items fst snd] in *. rewrite <- !app_assoc in *.
    cbn [app] in *. rewrite <- !app_assoc in *.
    apply NoDup_cons in Hnd as [Hk Hnd]. apply Forall_cons in Hfree as [Hv Hfree].
    cbn [fst snd] in *.
    cbn [decode_loop]. rewrite (Token_key _ _ _ _ Hst).
    rewrite record_key_new by (apply Hfresh; left).
    assert (Hgk : g !! k = Some (plain v)) by (apply Hplain; left).
    assert (Hrest : ∀ g' : gmap string any, (∀ k', k' ≠ k → g' !! k' = g !! k') →
              ∀ k' v', (k', v') ∈ m → g' !! k' = Some (plain v')).
    { intros g' Hg' k' v' Hin. rewrite Hg'.
      - apply Hplain. by right.
      - intros ->. apply Hk. apply list_elem_of_fmap. by exists (k, v'). }
    assert (Hfresh' : ∀ k', k' ∈ m.*1 → k' ∉ {[k]} ∪ hasKey).
    { intros k' Hk' [->%elem_of_singleton|Hin]%elem_of_union; [done|].
      apply (Hfresh k'); [by right | done]. }
    destruct (lexemes_cases v) as [(x & Hx & Hpv & t & Ht & Hnd')|[->|[[l ->]|[m2 ->]]]];
      [|done|..].
    + rewrite Hx in *. cbn [app] in *.
      rewrite (Token_colon_scalar _ x t _ Ht). cbv zeta.
      transitivity (decode_loop n
        (mkDecoder (obj_items tokenObjectComma m ++ LDelim RBrace :: rest)
           tokenObjectComma (s0 :: stk))
        {| keys := keys o ++ [k]; values := values o |} ({[k]} ∪ hasKey)).
      { destruct t as [d| | | |]; [by destruct (Hnd' d) | done..]. }
      rewrite (IHm m tokenObjectComma s0 stk rest _ g); try done.
      * cbn [keys values]. rewrite <- app_assoc. do 4 f_equal.
        rewrite fmap_cons, insert_all_cons. cbn [fst snd].
        rewrite <- Hpv. by rewrite insert_id.
      * solve_length.
      * by apply Hrest.
    + rewrite lexemes_Array in *. cbn [app] in *. rewrite <- !app_assoc in *.
      cbn [app] in *.
      rewrite Token_colon_bracket. cbv zeta. cbn [values keys]. rewrite Hg.
      unfold map_index at 1. cbn [mbind option_bind]. rewrite Hgk.
      cbn [plain fst].
      apply first_fault_Array in Hv as Hl.
      rewrite (IHl l tokenArrayStart _ _ _ []) by (try done; solve_length).
      cbn [app shared_write fmap option_fmap option_map].
      rewrite (IHm m tokenObjectComma s0 stk rest _ (<[k:=Slice (promote <$> l)]> g));
        try done.
      * cbn [keys values]. rewrite <- app_assoc. by rewrite !fmap_cons, insert_all_cons.
      * solve_length.
      * apply Hrest. intros k' Hk'. by rewrite lookup_insert_ne.
    + rewrite lexemes_Object in *. cbn [app] in *. rewrite <- !app_assoc in *.
      cbn [app] in *.
      rewrite Token_colon_brace. cbv zeta. cbn [values keys]. rewrite Hg.
      unfold map_index at 1. cbn [mbind option_bind]. rewrite Hgk.
      cbn [plain fst].
      apply first_fault_Object in Hv as [Hnd2 Hm2].
      set (g2 := insert_all ∅ ((λ kv, (kv.1, plain kv.2)) <$> m2)).
      rewrite (IHm m2 tokenObjectStart _ _ _ _ g2 ∅); try done.
      * cbn [keys values app map_assign OrderedMapV].
        rewrite (IHm m tokenObjectComma s0 stk rest _
                   (<[k:=promote (JObject m2)]> g)); try done.
        -- cbn [keys values]. rewrite <- app_assoc.
           by rewrite !fmap_cons, insert_all_cons.
        -- solve_length.
        -- unfold OrderedMapV. cbn [keys values promote]. subst g2.
           by rewrite insert_all_overwrite by (by rewrite !fst_tagged).
        -- apply Hrest. intros k' Hk'. by rewrite lookup_insert_ne.
      * solve_length.
      * intros k' v' Hin. subst g2. apply lookup_insert_all_NoDup.
        -- by rewrite fst_tagged.
        -- apply list_elem_of_fmap. by exists (k', v').
  - intros [|v l] st s0 stk rest done Hst Hn Hfree.
    { cbn [arr_items app decodeSlice_loop]. rewrite (Token_close_bracket _ _ _ _ Hst).
      by rewrite !fmap_nil. }
    cbn [arr_items] in *. rewrite <- !app_assoc in *.
    apply Forall_cons in Hfree as [Hv Hfree].
    assert (Hnext : ∀ rest' w,
      (length (arr_items tokenArrayComma l ++ LDelim RBracket :: rest') < n)%nat →
      decodeSlice_loop n
        (mkDecoder (arr_items tokenArrayComma l ++ LDelim RBracket :: rest')
           tokenArrayComma (s0 :: stk))
        (done ++ w :: (plain <$> l)) (S (length done)) =
      Ret (mkDecoder rest' (tokenValueEnd s0) stk, done ++ w :: (promote <$> l), None)).
    { intros rest' w Hlen.
      replace (done ++ w :: (plain <$> l)) with ((done ++ [w]) ++ (plain <$> l))
        by (by rewrite <- app_assoc).
      replace (S (length done)) with (length (done ++ [w]))
        by (rewrite length_app; simpl; lia).
      rewrite (IHl l tokenArrayComma s0 stk rest' (done ++ [w])) by done.
      by rewrite <- app_assoc. }
    assert (Hidx : ∀ w, (done ++ w :: (plain <$> l)) !! length done = Some w).
    { intros w. by rewrite list_lookup_middle. }
    assert (Hins : ∀ w w', <[length done:=w']> (done ++ w :: (plain <$> l)) =
                           done ++ w' :: (plain <$> l)).
    { intros w w'. by rewrite insert_app_r_alt, Nat.sub_diag by lia. }
    rewrite !fmap_cons.
    destruct (lexemes_cases v) as [(x & Hx & Hpv & t & Ht & Hnd')|[->|[[l2 ->]|[m2 ->]]]];
      [|done|..].
    + rewrite Hx in *. cbn [app] in *. cbn [decodeSlice_loop].
      rewrite (Token_scalar st _ x t _ (element_value_ready _ Hst) Ht).
      rewrite (value_done_element _ Hst).
      transitivity (decodeSlice_loop n
        (mkDecoder (arr_items tokenArrayComma l ++ LDelim RBracket :: rest)
           tokenArrayComma (s0 :: stk))
        (done ++ plain v :: (plain <$> l)) (S (length done))).
      { destruct t as [d| | | |]; [by destruct (Hnd' d) | done..]. }
      rewrite Hnext by solve_length. by rewrite Hpv.
    + rewrite lexemes_Array in *. cbn [app] in *. rewrite <- !app_assoc in *.
      cbn [app] in *. cbn [decodeSlice_loop].
      rewrite (Token_open_bracket st _ _ (element_value_ready _ Hst)).
      rewrite Hidx. cbn [plain].
      apply first_fault_Array in Hv as Hl.
      replace (value_state st :: s0 :: stk) with (value_state st :: s0 :: stk) by done.
      rewrite (IHl l2 tokenArrayStart _ _ _ []) by (try done; solve_length).
      cbn [app]. replace (tokenValueEnd (value_state st)) with tokenArrayComma
        by (by destruct st).
      rewrite Hins. by rewrite Hnext by solve_length.
    + rewrite lexemes_Object in *. cbn [app] in *. rewrite <- !app_assoc in *.
      cbn [app] in *. cbn [decodeSlice_loop].
      rewrite (Token_open_brace st _ _ (element_value_ready _ Hst)).
      rewrite Hidx. cbn [plain].
      apply first_fault_Object in Hv as [Hnd2 Hm2].
      set (g2 := insert_all ∅ ((λ kv, (kv.1, plain kv.2)) <$> m2)).
      rewrite (IHm m2 tokenObjectStart _ _ _ _ g2 ∅); try done.
      * cbn [keys values app OrderedMapV].
        replace (tokenValueEnd (value_state st)) with tokenArrayComma
          by (by destruct st).
        rewrite Hins. rewrite Hnext by solve_length.
        unfold OrderedMapV. cbn [promote keys values]. subst g2.
        by rewrite insert_all_overwrite by (by rewrite !fst_tagged).
      * solve_length.
      * intros k' v' Hin. subst g2. apply lookup_insert_all_NoDup.
        -- by rewrite fst_tagged.
        -- apply list_elem_of_fmap. by exists (k', v').
Qed.

(** * The parser reads exactly the texts of documents *)

Lemma parse_complete_fuel n :
  (∀ j rest, (length (lexemes j ++ rest) < n)%nat →
     parse_value n (lexemes j ++ rest) = Some (j, rest)) ∧
  (∀ l rest, (length (arr_items tokenArrayComma l ++ LDelim RBracket :: rest) < n)%nat →
     parse_elements n (arr_items tokenArrayComma l ++ LDelim RBracket :: rest) =
       Some (l, rest)) ∧
  (∀ m rest, (length (obj_items tokenObjectComma m ++ LDelim RBrace :: rest) < n)%nat →
     parse_members n (obj_items tokenObjectComma m ++ LDelim RBrace :: rest) =
       Some (m, rest)).
Proof.
  induction n as [n IH] using lt_wf_ind. destruct n as [|n].
  { repeat split; intros; lia. }
  destruct (IH n (Nat.lt_succ_diag_r n)) as (IHv & IHl & IHm). clear IH.
  split; [|split].
  - intros [| | | | |l|m] rest Hn; try done.
    + rewrite lexemes_Array in *. cbn [app] in *. rewrite <- !app_assoc in *.
      cbn [app] in *. destruct l as [|v l]; [done|].
      cbn [arr_items pending app] in *. rewrite <- !app_assoc in *.
      cbn [parse_value].
      assert (Hv := IHv v (arr_items tokenArrayComma l ++ LDelim RBracket :: rest)
                      ltac:(solve_length)).
      assert (Hl := IHl l rest).
      destruct (lexemes_start v) as (x & b & Hx & Hstart).
      rewrite Hx in *.
      destruct x as [[]| | | | | | | | |]; try discriminate Hstart;
        cbn [app] in *; rewrite Hv; cbn; rewrite Hl by solve_length; done.
    + rewrite lexemes_Object in *. cbn [app] in *. rewrite <- !app_assoc in *.
      cbn [app] in *. destruct m as [|[k v] m]; [done|].
      cbn [obj_items pending app fst snd] in *. rewrite <- !app_assoc in *.
      cbn [parse_value].
      rewrite IHv by solve_length. cbn. by rewrite IHm by solve_length.
  - intros [|v l] rest Hn; [done|].
    cbn [arr_items pending app] in *. rewrite <- !app_assoc in *.
    cbn [parse_elements].
    rewrite IHv by solve_length. cbn. by rewrite IHl by solve_length.
  - intros [|[k v] m] rest Hn; [done|].
    cbn [obj_items pending app fst snd] in *. rewrite <- !app_assoc in *.
    cbn [parse_members].
    rewrite IHv by solve_length. cbn. by rewrite IHm by solve_length.
Qed.

Lemma parse_sound_fuel n :
  (∀ ts j rest, parse_value n ts = Some (j, rest) → ts = lexemes j ++ rest) ∧
  (∀ ts l rest, parse_elements n ts = Some (l, rest) →
     ts = arr_items tokenArrayComma l ++ LDelim RBracket :: rest) ∧
  (∀ ts m rest, parse_members n ts = Some (m, rest) →
     ts = obj_items tokenObjectComma m ++ LDelim RBrace :: rest).
Proof.
  induction n as [|n (IHv & IHl & IHm)]; [done|].
  assert (Harr : ∀ r j rest,
    ('(v, r1) ← parse_value n r; '(vs, r2) ← parse_elements n r1;
       Some (JArray (v :: vs), r2)) = Some (j, rest) →
    LDelim LBracket :: r = lexemes j ++ rest).
  { intros r j rest H.
    destruct (parse_value n r) as [[v r1]|] eqn:Ev; [|done]. cbn in H.
    destruct (parse_elements n r1) as [[vs r2]|] eqn:El; [|done]. cbn in H.
    injection H as <- <-. apply IHv in Ev as ->. apply IHl in El as ->.
    rewrite lexemes_Array. cbn [arr_items pending app].
    by rewrite <- !app_assoc. }
  split; [|split].
  - intros ts j rest H. destruct ts as [|x ts]; [done|].
    destruct x as [[]| | | | | | | | |]; cbn [parse_value] in H; try done;
      try by injection H as <- <-.
    + destruct ts as [|x ts]; [done|].
      destruct x as [[]| | | | | | | | |]; try done.
      * by injection H as <- <-.
      * destruct ts as [|[[]| | | | | | | | |] ts]; try done.
        destruct (parse_value n ts) as [[v r1]|] eqn:Ev; [|done]. cbn in H.
        destruct (parse_members n r1) as [[ms r2]|] eqn:Em; [|done]. cbn in H.
        injection H as <- <-. apply IHv in Ev as ->. apply IHm in Em as ->.
        rewrite lexemes_Object. cbn [obj_items pending app fst snd].
        by rewrite <- !app_assoc.
    + destruct ts as [|x ts]; [by apply Harr|].
      destruct x as [[]| | | | | | | | |]; try (by apply Harr).
      by injection H as <- <-.
  - intros ts l rest H. destruct ts as [|x ts]; [done|].
    destruct x as [[]| | | | | | | | |]; cbn [parse_elements] in H; try done.
    + by injection H as <- <-.
    + destruct (parse_value n ts) as [[v r1]|] eqn:Ev; [|done]. cbn in H.
      destruct (parse_elements n r1) as [[vs r2]|] eqn:El; [|done]. cbn in H.
      injection H as <- <-. apply IHv in Ev as ->. apply IHl in El as ->.
      cbn [arr_items pending app]. by rewrite <- !app_assoc.
  - intros ts m rest H. destruct ts as [|x ts]; [done|].
    destruct x as [[]| | | | | | | | |]; cbn [parse_members] in H; try done.
    + by injection H as <- <-.
    + destruct ts as [|[[]| | | | | | | | |] ts]; try done.
      destruct ts as [|[[]| | | | | | | | |] ts]; try done.
      destruct (parse_value n ts) as [[v r1]|] eqn:Ev; [|done]. cbn in H.
      destruct (parse_members n r1) as [[ms r2]|] eqn:Em; [|done]. cbn in H.
      injection H as <- <-. apply IHv in Ev as ->. apply IHm in Em as ->.
      cbn [obj_items pending app fst snd]. by rewrite <- !app_assoc.
Qed.

Lemma parse_complete b j : compact b = lexemes j → parse b = Some j.
Proof.
  intros H. unfold parse. rewrite H.
  pose proof (proj1 (parse_complete_fuel (S (length (lexemes j)))) j []) as Hp.
  rewrite app_nil_r in Hp. by rewrite Hp by lia.
Qed.

Lemma parse_sound b j : parse b = Some j → compact b = lexemes j.
Proof.
  unfold parse. intros H.
  destruct (parse_value _ _) as [[j' [|x r]]|] eqn:E; [|done..].
  injection H as ->. apply parse_sound_fuel in E. by rewrite app_nil_r in E.
Qed.

(** * The nesting of a text *)

Lemma deepest_ge b : ∀ cur, cur ≤ deepest cur b.
Proof.
  induction b as [|x b IH]; intros cur; [done|].
  destruct x as [[]| | | | | | | | |]; cbn [deepest]; try apply IH.
  - specialize (IH (cur + 1)). lia.
  - lia.
  - specialize (IH (cur + 1)). lia.
  - lia.
Qed.

Lemma depth_nonneg j : 0 ≤ depth j.
Proof.
  destruct j as [| | | | |l|m]; cbn [depth]; try done.
  - assert (0 ≤ foldr Z.max 0 (depth <$> l)); [|lia].
    induction l; cbn; lia.
  - assert (0 ≤ foldr Z.max 0 ((λ kv, depth kv.2) <$> m)); [|lia].
    induction m; cbn; lia.
Qed.

Lemma deepest_pending st cur b :
  deepest cur (pending st ++ b) = deepest cur b.
Proof. by destruct st. Qed.

Lemma deepest_lexemes j : ∀ cur rest,
  deepest cur (lexemes j ++ rest) = (cur + depth j) `max` deepest cur rest.
Proof.
  induction j as [| | | | |l IH|m IH] using json_nested_ind; intros cur rest;
    try (cbn [lexemes app deepest depth]; pose proof (deepest_ge rest cur); lia).
  - rewrite lexemes_Array. cbn [app deepest depth]. rewrite <- app_assoc.
    cbn [app].
    assert (H : ∀ st c r, deepest c (arr_items st l ++ r) =
                (c + foldr Z.max 0 (depth <$> l)) `max` deepest c r).
    { induction IH as [|v l Hv _ IHl]; intros st c r.
      - cbn. pose proof (deepest_ge r c). lia.
      - cbn [arr_items]. rewrite <- !app_assoc, deepest_pending, Hv, IHl.
        cbn [fmap list_fmap foldr]. lia. }
    rewrite H. cbn [deepest]. replace (cur + 1 - 1) with cur by lia.
    pose proof (deepest_ge rest cur).
    assert (0 ≤ foldr Z.max 0 (depth <$> l)) by (clear; induction l; cbn; lia).
    lia.
  - rewrite lexemes_Object. cbn [app deepest depth]. rewrite <- app_assoc.
    cbn [app].
    assert (H : ∀ st c r, deepest c (obj_items st m ++ r) =
                (c + foldr Z.max 0 ((λ kv, depth kv.2) <$> m)) `max` deepest c r).
    { induction IH as [|v m Hv _ IHm]; intros st c r.
      - cbn. pose proof (deepest_ge r c). lia.
      - cbn [obj_items]. rewrite <- !app_assoc, deepest_pending.
        cbn [app deepest]. rewrite <- !app_assoc, Hv, IHm.
        cbn [fmap list_fmap foldr]. lia. }
    rewrite H. cbn [deepest]. replace (cur + 1 - 1) with cur by lia.
    pose proof (deepest_ge rest cur).
    assert (0 ≤ foldr Z.max 0 ((λ kv, depth kv.2) <$> m))
      by (clear; induction m; cbn; lia).
    lia.
Qed.

Lemma deepest_document j : deepest 0 (lexemes j) = depth j.
Proof.
  rewrite <- (app_nil_r (lexemes j)), deepest_lexemes. cbn [deepest].
  pose proof (depth_nonneg j). lia.
Qed.

(** * UnmarshalJSON on a text *)

Lemma CheckDuplicate_text b j :
  compact b = lexemes j →
  scan_outcome (CheckDuplicate (NewDecoder b)) (first_fault j)
    (mkDecoder [] tokenTopValue []).
Proof.
  intros Hb. unfold CheckDuplicate, NewDecoder. cbn [buf]. rewrite Hb.
  pose proof (CheckDuplicate_document j (S (length (lexemes j)))
                tokenTopValue [] [] eq_refl) as H.
  cbn [pending app] in H. rewrite app_nil_r in H. apply H. lia.
Qed.

Lemma UnmarshalJSON_fault b j e o :
  compact b = lexemes j → first_fault j = Some e →
  UnmarshalJSON b o = Ret (o, Some e).
Proof.
  intros Hb Hk. pose proof (CheckDuplicate_text b j Hb) as H.
  rewrite Hk in H. destruct H as [d' H]. unfold UnmarshalJSON. by rewrite H.
Qed.

(** The values map the first decoding pass works on. *)
Lemma UnmarshalJSON_scanned b j o :
  compact b = lexemes j → first_fault j = None →
  UnmarshalJSON b o =
    match json_Unmarshal b (Some (default ∅ (values o))) with
    | (vs, Some err) => Ret ({| keys := keys o; values := vs |}, Some err)
    | (vs, None) =>
        match Token_ (NewDecoder b) with
        | (_, inr err) => Ret ({| keys := keys o; values := vs |}, Some err)
        | (dec, inl _) =>
            match decode (S (length (buf dec))) dec {| keys := []; values := vs |} with
            | Ret (_, o, err) => Ret (o, err)
            | Panics p => Panics p
            | Exhausted => Exhausted
            end
        end
    end.
Proof.
  intros Hb Hk. pose proof (CheckDuplicate_text b j Hb) as H.
  rewrite Hk in H. unfold UnmarshalJSON. rewrite H.
  destruct (values o) as [g|] eqn:Eg; cbn [values keys default from_option];
    rewrite ?Eg; done.
Qed.

Lemma json_Unmarshal_deep b j m :
  compact b = lexemes j → maxNestingDepth < depth j →
  json_Unmarshal b m = (m, Some SyntaxError).
Proof.
  intros Hb Hd. unfold json_Unmarshal. rewrite (parse_complete _ _ Hb), Hb.
  rewrite deepest_document. by rewrite decide_True.
Qed.

Lemma json_Unmarshal_document b j m :
  compact b = lexemes j → depth j ≤ maxNestingDepth →
  json_Unmarshal b m =
    match j with
    | JObject members =>
        (Some (insert_all (default ∅ m) ((λ kv, (kv.1, plain kv.2)) <$> members)),
         if overflows j then Some UnmarshalTypeError else None)
    | JNull => (None, None)
    | _ => (m, Some UnmarshalTypeError)
    end.
Proof.
  intros Hb Hd. unfold json_Unmarshal. rewrite (parse_complete _ _ Hb), Hb.
  rewrite deepest_document. by rewrite decide_False by lia.
Qed.

Lemma UnmarshalJSON_object b m o :
  compact b = lexemes (JObject m) → first_fault (JObject m) = None →
  depth (JObject m) ≤ maxNestingDepth →
  UnmarshalJSON b o =
    Ret ({| keys := m.*1;
            values := Some (insert_all (default ∅ (values o))
                              ((λ kv, (kv.1, promote kv.2)) <$> m)) |}, None).
Proof.
  intros Hb Hfree Hdepth.
  rewrite (UnmarshalJSON_scanned b _ o Hb) by done.
  rewrite (json_Unmarshal_document b _ _ Hb Hdepth).
  pose proof (proj1 (first_fault_None _) Hfree) as [_ ->].
  unfold NewDecoder. rewrite Hb, lexemes_Object.
  change (Token_ (mkDecoder (LDelim LBrace :: ?b) tokenTopValue []))
    with (mkDecoder b tokenObjectStart [tokenTopValue], @inl Token error (TDelim LBrace)).
  cbn [buf]. unfold decode.
  apply first_fault_Object in Hfree as [Hnd Hall].
  set (g0 := default ∅ (Some (default ∅ (values o)))).
  set (g1 := insert_all g0 ((λ kv, (kv.1, plain kv.2)) <$> m)).
  rewrite (proj1 (decode_document _) m tokenObjectStart tokenTopValue [] []
             {| keys := []; values := Some g1 |} g1 ∅); try done.
  - cbn [keys app]. do 4 f_equal. apply insert_all_agree.
    intros k Hk. subst g1. apply lookup_insert_all_notin.
    by rewrite fst_tagged in *.
  - solve_length.
  - intros k v Hin. subst g1. apply lookup_insert_all_NoDup.
    + by rewrite fst_tagged.
    + apply list_elem_of_fmap. by exists (k, v).
Qed.

Lemma UnmarshalJSON_null b o :
  compact b = [LNull] →
  UnmarshalJSON b o = Ret ({| keys := []; values := None |}, Some io_EOF).
Proof.
  intros Hb.
  rewrite (UnmarshalJSON_scanned b JNull o Hb eq_refl).
  rewrite (json_Unmarshal_document b JNull _ Hb) by done.
  unfold NewDecoder. by rewrite Hb.
Qed.

Lemma UnmarshalJSON_other b j o :
  compact b = lexemes j → first_fault j = None →
  depth j ≤ maxNestingDepth →
  j ≠ JNull → (∀ m, j ≠ JObject m) →
  UnmarshalJSON b o =
    Ret ({| keys := keys o; values := Some (default ∅ (values o)) |},
         Some UnmarshalTypeError).
Proof.
  intros Hb Hk Hd Hnull Hobj. rewrite (UnmarshalJSON_scanned b j o Hb Hk).
  rewrite (json_Unmarshal_document b j _ Hb Hd).
  destruct j as [| | | | |l|m]; try done. by destruct (Hobj m).
Qed.

Lemma UnmarshalJSON_deep b j o :
  compact b = lexemes j → first_fault j = None →
  maxNestingDepth < depth j →
  UnmarshalJSON b o =
    Ret ({| keys := keys o; values := Some (default ∅ (values o)) |},
         Some SyntaxError).
Proof.
  intros Hb Hk Hd. rewrite (UnmarshalJSON_scanned b j o Hb Hk).
  by rewrite (json_Unmarshal_deep b j _ Hb Hd).
Qed.

(** Every way a call of [UnmarshalJSON] returns. *)
Lemma UnmarshalJSON_outcome b o r :
  UnmarshalJSON b o = Ret r →
  (∃ e, r = (o, Some e)) ∨
  (∃ e, r = ({| keys := keys o; values := Some (default ∅ (values o)) |}, Some e)) ∨
  (compact b = [LNull] ∧ r = ({| keys := []; values := None |}, Some io_EOF)) ∨
  (∃ m, compact b = lexemes (JObject m) ∧ dup_free (JObject m) ∧
        overflows (JObject m) = false ∧ depth (JObject m) ≤ maxNestingDepth ∧
        r = ({| keys := m.*1;
                values := Some (insert_all (default ∅ (values o))
                                  ((λ kv, (kv.1, promote kv.2)) <$> m)) |}, None)).
Proof.
  destruct (parse b) as [j|] eqn:Ep.
  - apply parse_sound in Ep. destruct (first_fault j) as [k|] eqn:Ek.
    { rewrite (UnmarshalJSON_fault b j k o Ep Ek). intros [= <-]. left. eauto. }
    destruct (decide (depth j ≤ maxNestingDepth)) as [Hd|Hd].
    2:{ rewrite (UnmarshalJSON_deep b j o Ep Ek) by lia.
        intros [= <-]. right. left. eauto. }
    destruct j as [| | | | |l|m];
      try (rewrite (UnmarshalJSON_other b _ o Ep Ek) by done;
           intros [= <-]; right; left; eauto).
    { rewrite (UnmarshalJSON_null b o Ep). intros [= <-]. right. right. left. done. }
    rewrite (UnmarshalJSON_object b m o Ep Ek Hd). intros [= <-].
    apply first_fault_None in Ek as [? ?].
    right. right. right. by exists m.
  - unfold UnmarshalJSON.
    destruct (CheckDuplicate (NewDecoder b)) as [[d [e|]]| |]; try done.
    { intros [= <-]. left. eauto. }
    unfold json_Unmarshal.
    destruct (values o) as [g|] eqn:Eg; cbn [values keys]; rewrite ?Eg, Ep;
      intros [= <-]; right; left; by eexists.
Qed.

(** * Induction over values *)

Lemma sum_list_elem (l : list nat) (x : nat) : x ∈ l → (x ≤ sum_list l)%nat.
Proof.
  induction 1 as [x l|x y l _ IH]; simpl; lia.
Qed.

Lemma any_size_lookup (m : gmap string any) k v :
  m !! k = Some v →
  (any_size v ≤ sum_list ((map_to_list (any_size <$> m)).*2))%nat.
Proof.
  intros H. apply sum_list_elem, list_elem_of_fmap.
  exists (k, any_size v). split; [done|].
  apply elem_of_map_to_list. by rewrite lookup_fmap, H.
Qed.

Lemma any_nested_ind (P : any → Prop) :
  P Nil → (∀ b, P (Bool b)) → (∀ f, P (Float64 f)) → (∀ x, P (Int x)) →
  (∀ s, P (String_ s)) →
  (∀ s, Forall P s → P (Slice s)) →
  P (Map None) →
  (∀ m : gmap string any, (∀ k v, m !! k = Some v → P v) → P (Map (Some m))) →
  (∀ ks, P (OMap ks None)) →
  (∀ ks (m : gmap string any), (∀ k v, m !! k = Some v → P v) → P (OMap ks (Some m))) →
  P Chan →
  ∀ v, P v.
Proof.
  intros Hnil Hbool Hfloat Hint Hstr Hslice Hmapnil Hmap Homapnil Homap Hchan v.
  remember (any_size v) as n eqn:Hn. revert v Hn.
  induction n as [n IH] using lt_wf_ind. intros [| | | | |s|[m|]|ks [m|]|] Hn; auto.
  - apply Hslice. apply Forall_forall. intros v Hv.
    apply (IH (any_size v)); [|done]. subst n. simpl.
    assert (any_size v ≤ sum_list (any_size <$> s))%nat; [|lia].
    by apply sum_list_elem, list_elem_of_fmap_2.
  - apply Hmap. intros k v Hv. apply (IH (any_size v)); [|done].
    subst n. pose proof (any_size_lookup m k v Hv). simpl. lia.
  - apply Homap. intros k v Hv. apply (IH (any_size v)); [|done].
    subst n. pose proof (any_size_lookup m k v Hv). simpl. lia.
Qed.

(** * Strings as the encoder writes them *)

Lemma continues_coerce k : ∀ s,
  continues k s = true → continues k (coerce_loop k s) = true.
Proof.
  induction k as [|k IH]; intros [|c s]; cbn; try done.
  intros [H1 H2]%andb_true_iff. by rewrite H1, IH.
Qed.

Lemma rune_tail_coerce c s k :
  rune_tail c s = Some k → rune_tail c (coerce_loop k s) = Some k.
Proof.
  unfold rune_tail. destruct (rune_form c) as [[[[|j] lo] hi]|]; [| |done].
  - by intros [= <-].
  - destruct s as [|c1 s']; [done|].
    destruct (byte_within lo hi c1 && continues j s') eqn:E; [|done].
    intros [= <-]. cbn [coerce_loop]. apply andb_true_iff in E as [E1 E2].
    by rewrite E1, continues_coerce.
Qed.

Lemma rune_tail_replacement s :
  rune_tail (ascii_of_N 0xEF) (String (ascii_of_N 0xBF) (String (ascii_of_N 0xBD) s)) =
    Some 2%nat.
Proof. reflexivity. Qed.

Lemma replacement_app s :
  (replacement +:+ s)%string =
    String (ascii_of_N 0xEF) (String (ascii_of_N 0xBF) (String (ascii_of_N 0xBD) s)).
Proof. reflexivity. Qed.

Lemma coerce_loop_idemp s : ∀ k, coerce_loop k (coerce_loop k s) = coerce_loop k s.
Proof.
  induction s as [|c s IH]; intros k; [done|].
  destruct k as [|k]; cbn [coerce_loop].
  - destruct (rune_tail c s) as [j|] eqn:E.
    + cbn [coerce_loop]. by rewrite (rune_tail_coerce _ _ _ E), IH.
    + rewrite !replacement_app. cbn [coerce_loop].
      rewrite rune_tail_replacement. cbn [coerce_loop]. by rewrite IH.
  - by rewrite IH.
Qed.

(** What is written for a string is written for itself unchanged. *)
Lemma coerce_idemp s : coerce (coerce s) = coerce s.
Proof. apply coerce_loop_idemp. Qed.

(** * The first error of a list of encodings *)

Lemma collect_fmap_ok {A B} (g : B → A + error) (h : B → A) (l : list B) :
  Forall (λ x, g x = inl (h x)) l → collect (g <$> l) = inl (h <$> l).
Proof. induction 1 as [|x l Hx _ IH]; [done|]. cbn. by rewrite Hx, IH. Qed.

Lemma collect_fmap_inl {A B} (g : B → A + error) (l : list B) xs :
  collect (g <$> l) = inl xs → Forall (λ x, ∃ t, g x = inl t) l.
Proof.
  revert xs. induction l as [|x l IH]; intros xs; cbn; [by constructor|].
  destruct (g x) as [t|e] eqn:E; [|done].
  destruct (collect (g <$> l)) as [ts|e] eqn:El; [|done].
  intros _. constructor; [by eauto | by eapply IH].
Qed.

Lemma collect_fmap_inr {A B} (g : B → A + error) (l : list B) e :
  collect (g <$> l) = inr e →
  ∃ i x, l !! i = Some x ∧ g x = inr e ∧
         ∀ j y, (j < i)%nat → l !! j = Some y → ∃ t, g y = inl t.
Proof.
  induction l as [|x l IH]; cbn; [done|].
  destruct (g x) as [t|e'] eqn:E.
  - destruct (collect (g <$> l)) as [ts|e'] eqn:El; [done|].
    intros [= ->]. destruct (IH eq_refl) as (i & y & Hi & Hy & Hbefore).
    exists (S i), y. split; [done|]. split; [done|].
    intros [|j] z Hj Hz.
    + injection Hz as <-. eauto.
    + apply (Hbefore j); [lia | done].
  - intros [= ->]. exists 0%nat, x. split; [done|]. split; [done|]. intros; lia.
Qed.

(** * What MarshalJSON writes *)

Lemma join_comma_cons (x : list lexeme) xs :
  join_comma (x :: xs) = x ++ concat ((λ y, LComma :: y) <$> xs).
Proof. done. Qed.

(** The member [MarshalJSON] writes for a key, or the error of its value. *)
Lemma MarshalJSON_loop_collect encode ks : ∀ i,
  MarshalJSON_loop encode i ks =
  match collect ((λ k, match encode k with
                       | inl t => inl (member_written k t)
                       | inr err => inr err
                       end) <$> ks) with
  | inr err => inr err
  | inl ms =>
      inl (if decide (0 < i)%nat then concat ((λ y, LComma :: y) <$> ms)
           else join_comma ms)
  end.
Proof.
  induction ks as [|k ks IH]; intros i.
  - cbn. by case_decide.
  - cbn [MarshalJSON_loop fmap list_fmap collect]. rewrite IH.
    destruct (encode k) as [t|e]; [|done].
    destruct (collect _) as [ms|e]; [|done].
    rewrite (decide_True (P := (0 < S i)%nat)) by lia. unfold member_written.
    case_decide; cbn [concat join_comma app fmap list_fmap];
      by rewrite <- ?app_assoc.
Qed.

Lemma MarshalJSON_buf_ok encode (text : string → list lexeme) ks :
  (∀ k, k ∈ ks → encode k = inl (text k)) →
  MarshalJSON_buf encode ks =
    inl (LDelim LBrace
           :: join_comma ((λ k, member_written k (text k)) <$> ks)
           ++ [LDelim RBrace]).
Proof.
  intros H. unfold MarshalJSON_buf. rewrite MarshalJSON_loop_collect.
  rewrite (collect_fmap_ok _ (λ k, member_written k (text k))); [done|].
  apply Forall_forall. intros k Hk. by rewrite (H k Hk).
Qed.

Lemma MarshalJSON_buf_inl encode ks b :
  MarshalJSON_buf encode ks = inl b → ∀ k, k ∈ ks → ∃ t, encode k = inl t.
Proof.
  unfold MarshalJSON_buf. rewrite MarshalJSON_loop_collect.
  destruct (collect _) as [ms|e] eqn:E; [|done]. intros _ k Hk.
  apply collect_fmap_inl in E. rewrite Forall_forall in E.
  destruct (E k Hk) as [t Ht]. destruct (encode k) as [t'|]; [by eauto|done].
Qed.

Lemma MarshalJSON_buf_inr encode ks e :
  MarshalJSON_buf encode ks = inr e →
  ∃ i k, ks !! i = Some k ∧ encode k = inr e ∧
         ∀ j k', (j < i)%nat → ks !! j = Some k' → ∃ t, encode k' = inl t.
Proof.
  unfold MarshalJSON_buf. rewrite MarshalJSON_loop_collect.
  destruct (collect _) as [ms|e'] eqn:E; [done|]. intros [= ->].
  apply collect_fmap_inr in E as (i & k & Hi & Hk & Hbefore).
  exists i, k. split; [done|]. split.
  - by destruct (encode k).
  - intros j k' Hj Hk'. destruct (Hbefore j k' Hj Hk') as [t Ht].
    destruct (encode k'); [by eauto|done].
Qed.

Lemma MarshalJSON_buf_ext encode1 encode2 ks :
  (∀ k, k ∈ ks → encode1 k = encode2 k) →
  MarshalJSON_buf encode1 ks = MarshalJSON_buf encode2 ks.
Proof.
  intros H. unfold MarshalJSON_buf. rewrite !MarshalJSON_loop_collect.
  replace ((λ k, match encode1 k with
                 | inl t => inl (member_written k t)
                 | inr err => inr err
                 end) <$> ks)
    with ((λ k, match encode2 k with
                | inl t => @inl _ error (member_written k t)
                | inr err => inr err
                end) <$> ks); [done|].
  apply list_fmap_ext. intros i k Hi.
  by rewrite H by (by eapply list_elem_of_lookup_2).
Qed.

Lemma compact_app b1 b2 : compact (b1 ++ b2) = compact b1 ++ compact b2.
Proof. apply filter_app. Qed.

Lemma compact_cons_keep x b :
  is_space x = false → compact (x :: b) = x :: compact b.
Proof. intros H. unfold compact. by rewrite filter_cons_True. Qed.

Lemma compact_member k t :
  compact t = t → compact (member_written k t) = member_compact k t.
Proof.
  intros H. unfold member_written, member_compact.
  rewrite !compact_app, H.
  change (compact [LString (coerce k); LSpace LF; LColon])
    with [LString (coerce k); LColon].
  change (compact [LSpace LF]) with (@nil lexeme).
  by rewrite app_nil_r.
Qed.

Lemma compact_join (text : string → list lexeme) ks :
  (∀ k, compact (text k) = text k) →
  compact (join_comma ((λ k, member_written k (text k)) <$> ks)) =
  join_comma ((λ k, member_compact k (text k)) <$> ks).
Proof.
  intros H. destruct ks as [|k ks]; [done|].
  rewrite !fmap_cons, !join_comma_cons, compact_app, compact_member by done.
  f_equal. induction ks as [|k' ks IH]; [done|].
  rewrite !fmap_cons. cbn [concat]. rewrite compact_app, IH.
  by rewrite compact_cons_keep, compact_member.
Qed.

Lemma lexemes_Object_members (f : string → json) ks :
  lexemes (JObject ((λ k, (coerce k, f k)) <$> ks)) =
  LDelim LBrace :: join_comma ((λ k, member_compact k (lexemes (f k))) <$> ks)
    ++ [LDelim RBrace].
Proof.
  cbn [lexemes]. do 3 f_equal. rewrite <- list_fmap_compose. done.
Qed.

(** The text [MarshalJSON] writes for the documents [f] of its values, up
    to white space. *)
Lemma compact_written (f : string → json) ks :
  compact (LDelim LBrace
             :: join_comma ((λ k, member_written k (lexemes (f k))) <$> ks)
             ++ [LDelim RBrace]) =
  lexemes (JObject ((λ k, (coerce k, f k)) <$> ks)).
Proof.
  rewrite lexemes_Object_members, compact_cons_keep, compact_app by done.
  rewrite (compact_join (λ k, lexemes (f k))); [done|].
  intros k. apply compact_lexemes.
Qed.

Lemma deepest_compact b : ∀ cur, deepest cur (compact b) = deepest cur b.
Proof.
  induction b as [|x b IH]; intros cur; [done|].
  destruct x as [[]| | | | | | | | |]; cbn [deepest]; rewrite <- ?IH; done.
Qed.

Lemma appendCompact_written (f : string → json) ks :
  appendCompact (LDelim LBrace
                   :: join_comma ((λ k, member_written k (lexemes (f k))) <$> ks)
                   ++ [LDelim RBrace]) =
  if decide (maxNestingDepth < depth (JObject ((λ k, (coerce k, f k)) <$> ks)))
  then inr SyntaxError
  else inl (lexemes (JObject ((λ k, (coerce k, f k)) <$> ks))).
Proof.
  unfold appendCompact.
  by rewrite <- deepest_compact, compact_written, deepest_document.
Qed.

(** * The document of a value *)

Lemma Get_OMap ks (m : gmap string any) k :
  Get k {| keys := ks; values := Some m |} = default Nil (m !! k).
Proof. by rewrite Get_lookup. Qed.

Lemma doc_of_OrderedMapV o :
  doc_of (OrderedMapV o) = JObject ((λ k, (coerce k, doc_of (Get k o))) <$> keys o).
Proof.
  unfold OrderedMapV, Get, map_index. destruct o as [ks [g|]]; cbn [doc_of keys values].
  - f_equal. apply list_fmap_ext. intros i k _. f_equal. cbn.
    rewrite lookup_fmap. by destruct (g !! k).
  - done.
Qed.

(** [json.Marshal] goes through [MarshalJSON]. *)
Lemma marshal_OrderedMapV o :
  marshal (OrderedMapV o) =
  match MarshalJSON o with
  | inr err => inr (MarshalerError err)
  | inl b =>
      match appendCompact b with
      | inr err => inr (MarshalerError err)
      | inl t => inl t
      end
  end.
Proof.
  unfold OrderedMapV, MarshalJSON. destruct o as [ks [m|]]; cbn [marshal keys values].
  - rewrite (MarshalJSON_buf_ext _ (λ k, marshal (fst (map_index (Some m) k)))); [done|].
    intros k _. unfold map_index. cbn. rewrite lookup_fmap. by destruct (m !! k).
  - done.
Qed.

Lemma MarshalJSON_ok o :
  (∀ k, k ∈ keys o → marshal (Get k o) = inl (lexemes (doc_of (Get k o)))) →
  MarshalJSON o =
    inl (LDelim LBrace
           :: join_comma ((λ k, member_written k (lexemes (doc_of (Get k o)))) <$> keys o)
           ++ [LDelim RBrace]).
Proof. intros H. by apply (MarshalJSON_buf_ok _ (λ k, lexemes (doc_of (Get k o)))). Qed.

Lemma encodable_Get o :
  encodable (OrderedMapV o) → ∀ k, k ∈ keys o → encodable (Get k o).
Proof.
  unfold OrderedMapV. destruct o as [ks [m|]]; cbn [keys values].
  - inversion_clear 1 as [| | | | | | | | |? ? Hall _]. intros k Hk.
    rewrite Get_OMap. destruct (m !! k) as [v|] eqn:E; cbn; [|constructor].
    by apply (Hall k).
  - intros _ k _. rewrite Get_lookup. constructor.
Qed.

Lemma depth_members_null ks :
  depth (JObject ((λ k, (coerce k, JNull)) <$> ks)) = 1.
Proof.
  cbn [depth].
  assert (foldr Z.max 0 ((λ kv : string * json, depth kv.2)
                           <$> ((λ k, (coerce k, JNull)) <$> ks)) = 0) as ->; [|done].
  induction ks as [|k ks IH]; [done|]. cbn. rewrite IH. done.
Qed.

Lemma encodable_OrderedMapV o :
  (∀ k, k ∈ keys o → encodable (Get k o)) →
  depth (doc_of (OrderedMapV o)) ≤ maxNestingDepth →
  encodable (OrderedMapV o).
Proof.
  unfold OrderedMapV. destruct o as [ks [m|]]; cbn [keys values]; [|constructor].
  intros Hall Hd. constructor; [|done]. intros k v Hk Hv.
  specialize (Hall k Hk). by rewrite Get_OMap, Hv in Hall.
Qed.

Lemma encodable_depth o :
  encodable (OrderedMapV o) → depth (doc_of (OrderedMapV o)) ≤ maxNestingDepth.
Proof.
  unfold OrderedMapV. destruct o as [ks [m|]]; cbn [keys values].
  - by inversion_clear 1.
  - intros _. cbn [doc_of]. by rewrite depth_members_null.
Qed.

Lemma lookup_default_marshal (m : gmap string any) k :
  default (inl [LNull]) ((marshal <$> m) !! k) = marshal (default Nil (m !! k)).
Proof. rewrite lookup_fmap. by destruct (m !! k). Qed.

Lemma lookup_default_doc_of (m : gmap string any) k :
  default JNull ((doc_of <$> m) !! k) = doc_of (default Nil (m !! k)).
Proof. rewrite lookup_fmap. by destruct (m !! k). Qed.

Lemma sorted_keys_elem (m : gmap string any) k :
  k ∈ merge_sort String.le (elements (dom m)) ↔ is_Some (m !! k).
Proof. by rewrite merge_sort_Permutation, elem_of_elements, elem_of_dom. Qed.

(** The encoder writes the document of every value it accepts. *)
Lemma marshal_encodable v : encodable v → marshal v = inl (lexemes (doc_of v)).
Proof.
  induction v as [| | | | |s IH| |m IH|ks|ks m IH|] using any_nested_ind;
    inversion 1 as [| |? Hf| | |? Hs| |? Hm| |? ? Hks Hd]; subst; try done.
  - cbn [marshal]. by rewrite Hf.
  - cbn [marshal doc_of lexemes].
    rewrite (collect_fmap_ok _ (λ v, lexemes (doc_of v))).
    + by rewrite <- list_fmap_compose.
    + rewrite Forall_forall in *. intros v Hv. by apply (IH v Hv), Hs.
  - cbn [marshal doc_of]. rewrite lexemes_Object_members.
    rewrite (collect_fmap_ok _
               (λ k, member_compact k (lexemes (default JNull ((doc_of <$> m) !! k)))));
      [done|].
    apply Forall_forall. intros k [v Hv]%sorted_keys_elem.
    rewrite !lookup_fmap, Hv. cbn. by rewrite (IH k v Hv) by (by apply (Hm k)).
  - change (OMap ks None) with (OrderedMapV {| keys := ks; values := None |}).
    rewrite marshal_OrderedMapV, doc_of_OrderedMapV, MarshalJSON_ok.
    + rewrite (appendCompact_written (λ k, doc_of (Get k _))).
      rewrite decide_False; [done|].
      rewrite <- (doc_of_OrderedMapV {| keys := ks; values := None |}).
      cbn [OrderedMapV keys values doc_of]. by rewrite depth_members_null.
    + intros k _. by rewrite Get_lookup.
  - change (OMap ks (Some m)) with (OrderedMapV {| keys := ks; values := Some m |}) in *.
    rewrite marshal_OrderedMapV, MarshalJSON_ok.
    + rewrite (appendCompact_written (λ k, doc_of (Get k _))).
      rewrite <- doc_of_OrderedMapV. by rewrite decide_False by lia.
    + intros k Hk. rewrite Get_OMap. destruct (m !! k) as [v|] eqn:Hv; cbn; [|done].
      by apply (IH k v Hv), (Hks k).
Qed.

Lemma marshal_inl_encodable v t : marshal v = inl t → encodable v.
Proof.
  revert t.
  induction v as [| | | | |s IH| |m IH|ks|ks m IH|] using any_nested_ind;
    intros t; try (by constructor); try done.
  - cbn [marshal]. destruct (is_finite f) eqn:E; [by constructor | done].
  - cbn [marshal]. destruct (collect _) as [ts|e] eqn:E; [|done]. intros _.
    apply collect_fmap_inl in E. constructor. rewrite Forall_forall in *.
    intros v Hv. destruct (E v Hv) as [t' Ht']. by apply (IH v Hv t').
  - cbn [marshal]. destruct (collect _) as [ts|e] eqn:E; [|done]. intros _.
    apply collect_fmap_inl in E. rewrite Forall_forall in E.
    constructor. intros k v Hv.
    destruct (E k) as [t' Ht']; [apply sorted_keys_elem; by eauto|].
    rewrite lookup_fmap, Hv in Ht'. cbn in Ht'.
    destruct (marshal v) as [t''|] eqn:Ev; [|done]. by apply (IH k v Hv t'').
  - change (OMap ks (Some m)) with (OrderedMapV {| keys := ks; values := Some m |}) in *.
    rewrite marshal_OrderedMapV.
    destruct (MarshalJSON _) as [b|e] eqn:Eb; [|done].
    assert (Hall : ∀ k, k ∈ ks → encodable (Get k {| keys := ks; values := Some m |})).
    { intros k Hk. destruct (MarshalJSON_buf_inl _ _ _ Eb k Hk) as [t' Ht'].
      change (marshal (Get k {| keys := ks; values := Some m |}) = inl t') in Ht'.
      rewrite Get_OMap in Ht' |- *.
      destruct (m !! k) as [v|] eqn:Hv; cbn [default from_option] in *; [|constructor].
      by apply (IH k v Hv t'). }
    rewrite MarshalJSON_ok in Eb by (intros k Hk; by apply marshal_encodable, Hall).
    injection Eb as <-.
    rewrite (appendCompact_written (λ k, doc_of (Get k _))).
    rewrite <- doc_of_OrderedMapV. case_decide; [done|]. intros _.
    apply encodable_OrderedMapV; [done | lia].
Qed.

Lemma marshal_doc v t : marshal v = inl t → t = lexemes (doc_of v).
Proof.
  intros H. pose proof (marshal_inl_encodable v t H) as He.
  rewrite (marshal_encodable v He) in H. by injection H.
Qed.

Lemma marshal_compact v t : marshal v = inl t → compact t = t.
Proof. intros ->%marshal_doc. apply compact_lexemes. Qed.

(** * MarshalJSON and json.Marshal on a container *)

Lemma MarshalJSON_encodable o :
  (∀ k, k ∈ keys o → encodable (Get k o)) →
  ∃ b, MarshalJSON o = inl b ∧ compact b = lexemes (doc_of (OrderedMapV o)).
Proof.
  intros H. eexists. split.
  - apply MarshalJSON_ok. intros k Hk. by apply marshal_encodable, H.
  - rewrite doc_of_OrderedMapV. apply (compact_written (λ k, doc_of (Get k o))).
Qed.

Lemma MarshalJSON_inl o b :
  MarshalJSON o = inl b →
  (∀ k, k ∈ keys o → encodable (Get k o)) ∧
  b = LDelim LBrace
        :: join_comma ((λ k, member_written k (lexemes (doc_of (Get k o)))) <$> keys o)
        ++ [LDelim RBrace] ∧
  compact b = lexemes (doc_of (OrderedMapV o)).
Proof.
  intros Hb.
  assert (Hall : ∀ k, k ∈ keys o → encodable (Get k o)).
  { intros k Hk. destruct (MarshalJSON_buf_inl _ _ _ Hb k Hk) as [t Ht].
    by apply (marshal_inl_encodable _ t). }
  split; [done|].
  rewrite MarshalJSON_ok in Hb by (intros k Hk; by apply marshal_encodable, Hall).
  injection Hb as <-. split; [done|].
  rewrite doc_of_OrderedMapV. apply (compact_written (λ k, doc_of (Get k o))).
Qed.

Lemma json_Marshal_inl o t :
  json_Marshal o = inl t ↔
  ∃ b, MarshalJSON o = inl b ∧ t = compact b ∧
       depth (doc_of (OrderedMapV o)) ≤ maxNestingDepth.
Proof.
  unfold json_Marshal. rewrite marshal_OrderedMapV. split.
  - destruct (MarshalJSON o) as [b|e] eqn:Eb; [|done].
    destruct (MarshalJSON_inl o b Eb) as (_ & _ & Hc).
    unfold appendCompact. rewrite <- deepest_compact, Hc, deepest_document.
    case_decide; [done|]. intros [= <-]. exists b. split; [done|]. split; [done|lia].
  - intros (b & Hb & -> & Hd). destruct (MarshalJSON_inl o b Hb) as (_ & _ & Hc).
    rewrite Hb.
    unfold appendCompact. rewrite <- deepest_compact, Hc, deepest_document.
    by rewrite decide_False by lia.
Qed.

(** * Containers built by Set *)

Lemma well_formed_Set o k v o' :
  well_formed (OrderedMapV o) → well_formed v → Set_ k v o = Ret o' →
  well_formed (OrderedMapV o').
Proof.
  unfold OrderedMapV. inversion 1 as [| | | | |ks m Hnd Hdom Hall [Hks Hm]].
  intros Hv. unfold Set_, map_index. rewrite <- Hm. cbn.
  assert (Hall' : ∀ k' v', <[k:=v]> m !! k' = Some v' → well_formed v').
  { intros k' v'. rewrite lookup_insert. case_decide.
    - by intros [= <-].
    - apply Hall. }
  destruct (m !! k) as [x|] eqn:Ek; cbn; intros [= <-]; cbn.
  - constructor; [done| |done]. rewrite dom_insert_L, Hdom.
    apply elem_of_dom_2 in Ek. set_solver.
  - apply not_elem_of_dom in Ek. constructor; [| |done].
    + apply NoDup_app. split; [done|]. split; [|apply NoDup_singleton].
      intros x Hx ->%list_elem_of_singleton. apply Ek. rewrite <- Hdom.
      by apply elem_of_list_to_set.
    + rewrite dom_insert_L, list_to_set_app_L, Hdom. set_solver.
Qed.

Lemma exact_Set o k v o' :
  exact (OrderedMapV o) → coerce k = k → exact v → Set_ k v o = Ret o' →
  exact (OrderedMapV o').
Proof.
  unfold OrderedMapV. inversion 1 as [| | | | |ks m Hks Hall [Hk Hm]].
  intros Hck Hv. unfold Set_, map_index. rewrite <- Hm. cbn.
  assert (Hall' : ∀ k' v', <[k:=v]> m !! k' = Some v' → exact v').
  { intros k' v'. rewrite lookup_insert. case_decide.
    - by intros [= <-].
    - apply Hall. }
  destruct (m !! k) as [x|] eqn:Ek; cbn; intros [= <-]; cbn.
  - by constructor.
  - constructor; [|done]. apply Forall_app. split; [done|]. by constructor.
Qed.

Lemma built_shape :
  (∀ v, storable v → well_formed v ∧ exact v) ∧
  (∀ o, built o → well_formed (OrderedMapV o) ∧ exact (OrderedMapV o)).
Proof.
  assert (Hnew : well_formed (OrderedMapV New) ∧ exact (OrderedMapV New)).
  { split; [constructor; [constructor|set_solver|done] | by constructor]. }
  assert (H : ∀ v, storable v → well_formed v ∧ exact v).
  { fix IHs 2 with (IHb (o : OrderedMap) (Hb : built o) {struct Hb}
                      : well_formed (OrderedMapV o) ∧ exact (OrderedMapV o)).
    - intros v [| |f Hf|s Hc|s Hs|o Hb]; try (split; by constructor).
      + split; constructor; induction Hs as [|x s Hx Hs IH]; constructor;
          try done; by apply IHs.
      + by apply IHb.
    - intros o [|o0 k v o' Hb Hk Hv Hset]; [done|].
      destruct (IHb o0 Hb) as [Hw He]. destruct (IHs v Hv) as [Hvw Hve].
      split; [by eapply well_formed_Set | by eapply exact_Set]. }
  split; [done|].
  induction 1 as [|o k v o' Hb [Hw He] Hk Hv Hset]; [done|].
  destruct (H v Hv) as [Hvw Hve].
  split; [by eapply well_formed_Set | by eapply exact_Set].
Qed.

(** * The document of a value that comes back as it is *)

Lemma overflows_doc_of v : overflows (doc_of v) = false.
Proof.
  induction v as [| | | | |s IH| |m IH|ks|ks m IH|] using any_nested_ind; try done.
  - cbn [doc_of overflows]. apply existsb_false, Forall_fmap.
    eapply Forall_impl; [done|]. done.
  - cbn [doc_of overflows]. apply existsb_false, Forall_fmap, Forall_forall.
    intros k _. cbn. rewrite lookup_fmap. destruct (m !! k) as [v|] eqn:Hv; [|done].
    by apply (IH k v).
  - cbn [doc_of overflows]. apply existsb_false, Forall_fmap, Forall_forall. done.
  - cbn [doc_of overflows]. apply existsb_false, Forall_fmap, Forall_forall.
    intros k _. cbn. rewrite lookup_fmap. destruct (m !! k) as [v|] eqn:Hv; [|done].
    by apply (IH k v).
Qed.

Lemma fmap_coerce_exact {A} (f : string → A) ks :
  Forall (λ k, coerce k = k) ks →
  (λ k, (coerce k, f k)) <$> ks = (λ k, (k, f k)) <$> ks.
Proof.
  intros H. apply Forall_fmap_ext_1. eapply Forall_impl; [done|].
  by intros k ->.
Qed.

Lemma faithful_doc v :
  well_formed v → exact v → dup_free (doc_of v) ∧ promote (doc_of v) = v.
Proof.
  induction v as [| | | | |s IH| |m IH|ks|ks m IH|] using any_nested_ind;
    inversion_clear 1 as [| | | |? Hs|? ? Hnd Hdom Hall];
    inversion_clear 1 as [| |? Hf|? Hc|? Hes|? ? Hkeys Heall];
    try (split; [constructor|done]).
  - split; [constructor|]. cbn. by rewrite Hc.
  - assert (Hboth : Forall (λ v, dup_free (doc_of v) ∧ promote (doc_of v) = v) s).
    { rewrite Forall_forall in *. intros v Hv. by apply (IH v Hv); [apply Hs|apply Hes]. }
    split.
    + constructor. apply Forall_fmap. eapply Forall_impl; [done|]. by intros v [? _].
    + cbn [doc_of promote]. f_equal. rewrite <- list_fmap_compose.
      rewrite <- (list_fmap_id s) at 2. apply Forall_fmap_ext_1.
      eapply Forall_impl; [done|]. by intros v [_ ?].
  - cbn [doc_of]. rewrite (fmap_coerce_exact _ _ Hkeys).
    set (pairs := (λ k, (k, default JNull ((doc_of <$> m) !! k))) <$> ks).
    assert (Hfst : pairs.*1 = ks).
    { subst pairs. rewrite <- list_fmap_compose. apply list_fmap_id. }
    assert (Hin : ∀ k, k ∈ ks → ∃ v, m !! k = Some v ∧ (k, doc_of v) ∈ pairs ∧
                         dup_free (doc_of v) ∧ promote (doc_of v) = v).
    { intros k Hk. assert (Hd : k ∈ dom m) by (rewrite <- Hdom; set_solver).
      apply elem_of_dom in Hd as [v Hv]. exists v. split; [done|].
      split; [|by apply (IH k); [|apply (Hall k)|apply (Heall k)]].
      subst pairs. apply list_elem_of_fmap. exists k. split; [|done].
      by rewrite lookup_fmap, Hv. }
    split.
    + constructor; [by rewrite Hfst|]. subst pairs. apply Forall_fmap, Forall_forall.
      intros k Hk. destruct (Hin k Hk) as (v & Hv & _ & Hfree & _).
      cbn. by rewrite lookup_fmap, Hv.
    + cbn [promote]. rewrite Hfst. do 2 f_equal. apply map_eq. intros k.
      destruct (decide (k ∈ ks)) as [Hk|Hk].
      * destruct (Hin k Hk) as (v & Hv & Hp & _ & Hpv). rewrite Hv.
        apply lookup_insert_all_NoDup; [by rewrite fst_tagged, Hfst|].
        apply list_elem_of_fmap. exists (k, doc_of v).
        split; [cbn; by rewrite Hpv | done].
      * rewrite lookup_insert_all_notin by (by rewrite fst_tagged, Hfst).
        rewrite lookup_empty. symmetry. apply not_elem_of_dom.
        rewrite <- Hdom. set_solver.
Qed.

(** * Nesting *)

Lemma foldr_max_elem (l : list Z) x : x ∈ l → x ≤ foldr Z.max 0 l.
Proof. induction 1 as [x l|x y l _ IH]; cbn; lia. Qed.

Lemma depth_element s v :
  v ∈ s → depth (doc_of v) < depth (doc_of (Slice s)).
Proof.
  intros Hv.
  change (depth (doc_of v) < 1 + foldr Z.max 0 (depth <$> (doc_of <$> s))).
  assert (depth (doc_of v) ≤ foldr Z.max 0 (depth <$> (doc_of <$> s))); [|lia].
  apply foldr_max_elem. by apply list_elem_of_fmap_2, list_elem_of_fmap_2.
Qed.

Lemma depth_Get o k :
  k ∈ keys o → depth (doc_of (Get k o)) < depth (doc_of (OrderedMapV o)).
Proof.
  intros Hk. rewrite doc_of_OrderedMapV.
  change (depth (doc_of (Get k o)) <
          1 + foldr Z.max 0 ((λ kv : string * json, depth kv.2)
                               <$> ((λ k, (coerce k, doc_of (Get k o))) <$> keys o))).
  assert (depth (doc_of (Get k o)) ≤
          foldr Z.max 0 ((λ kv : string * json, depth kv.2)
                           <$> ((λ k, (coerce k, doc_of (Get k o))) <$> keys o))); [|lia].
  apply foldr_max_elem. rewrite <- list_fmap_compose.
  apply list_elem_of_fmap. by exists k.
Qed.

(** A value whose scalars are written as they are is accepted by the
    encoder, unless it nests too deep. *)
Lemma exact_encodable v :
  exact v → depth (doc_of v) ≤ maxNestingDepth → encodable v.
Proof.
  induction v as [| | | | |s IH| |m IH|ks|ks m IH|] using any_nested_ind;
    inversion_clear 1 as [| |? Hf|? Hc|? Hes|? ? Hkeys Heall]; intros Hd;
    try by constructor.
  - constructor. rewrite Forall_forall in *. intros v Hv.
    apply (IH v Hv); [by apply Hes|]. pose proof (depth_element s v Hv). lia.
  - constructor; [|done]. intros k v Hk Hv. apply (IH k v Hv); [by apply (Heall k)|].
    pose proof (depth_Get {| keys := ks; values := Some m |} k Hk) as Hlt.
    rewrite Get_OMap, Hv in Hlt. cbn [default from_option] in Hlt.
    unfold OrderedMapV, id in Hlt. cbn [keys values] in Hlt. lia.
Qed.

(** * From a container to its text and back *)

Lemma UnmarshalJSON_document_of b o :
  well_formed (OrderedMapV o) → exact (OrderedMapV o) →
  depth (doc_of (OrderedMapV o)) ≤ maxNestingDepth →
  compact b = lexemes (doc_of (OrderedMapV o)) →
  UnmarshalJSON b New = Ret (o, None).
Proof.
  intros Hwf Hex Hd Hb.
  destruct (faithful_doc _ Hwf Hex) as [Hfree Hpromote].
  assert (Hfault : first_fault (doc_of (OrderedMapV o)) = None).
  { apply first_fault_None. split; [done | apply overflows_doc_of]. }
  destruct (doc_of (OrderedMapV o)) as [| | | | |l|m] eqn:Ed;
    try (by inversion Hwf as [| | | | |ks g Hnd Hdom Hall [Hks Hg]];
            unfold OrderedMapV in Ed; rewrite <- Hg in Ed).
  rewrite (UnmarshalJSON_object b m New Hb Hfault Hd). do 2 f_equal.
  unfold OrderedMapV in Hpromote. cbn [promote] in Hpromote.
  injection Hpromote as Hk Hv. destruct o as [ks vs]. cbn in *. by subst.
Qed.

Lemma faithful_round_trip o :
  well_formed (OrderedMapV o) → exact (OrderedMapV o) →
  depth (doc_of (OrderedMapV o)) ≤ maxNestingDepth →
  ∃ b, MarshalJSON o = inl b ∧ UnmarshalJSON b New = Ret (o, None) ∧
       json_Marshal o = inl (compact b) ∧
       UnmarshalJSON (compact b) New = Ret (o, None).
Proof.
  intros Hwf Hex Hd.
  pose proof (exact_encodable _ Hex Hd) as Henc.
  destruct (MarshalJSON_encodable o (encodable_Get o Henc)) as (b & Hb & Hc).
  exists b. split; [done|]. split; [by apply UnmarshalJSON_document_of|].
  split.
  - apply json_Marshal_inl. by exists b.
  - apply UnmarshalJSON_document_of; try done. by rewrite compact_idemp.
Qed.

(** * The invariant of the data model *)

Lemma keys_match_values_New : keys_match_values New.
Proof. split; [constructor | set_solver]. Qed.

Lemma keys_match_values_Set o k v o' :
  keys_match_values o → Set_ k v o = Ret o' → keys_match_values o'.
Proof.
  intros [Hnd Hset]. unfold Set_, map_index, keys_match_values, map_keys in *.
  destruct (values o) as [m|]; [|done]. cbn.
  destruct (m !! k) as [x|] eqn:Ek; cbn; intros [= <-]; cbn.
  - split; [done|]. rewrite dom_insert_L, Hset.
    apply elem_of_dom_2 in Ek. set_solver.
  - apply not_elem_of_dom in Ek. split.
    + apply NoDup_app. split; [done|]. split; [|apply NoDup_singleton].
      intros x Hx ->%list_elem_of_singleton. apply Ek. rewrite <- Hset.
      by apply elem_of_list_to_set.
    + rewrite dom_insert_L, list_to_set_app_L, Hset. set_solver.
Qed.

Lemma keys_match_values_Delete o k :
  keys_match_values o → keys_match_values (Delete k o).
Proof.
  intros [Hnd Hset].
  destruct (decide (k ∈ map_keys (values o))) as [Hin|Hout];
    [|by rewrite Delete_absent].
  split.
  - rewrite Delete_keys_filter by done. by apply NoDup_filter.
  - rewrite Delete_keys_filter by done. rewrite (Delete_present _ _ Hin).
    cbn [values]. unfold map_keys, map_delete in *.
    destruct (values o) as [m|]; cbn; [|set_solver].
    rewrite dom_delete_L, <- Hset. apply set_eq. intros x.
    rewrite elem_of_list_to_set, list_elem_of_filter, elem_of_difference,
      elem_of_list_to_set, elem_of_singleton. naive_solver.
Qed.

Lemma keys_match_values_Permutation ks vs ks' :
  ks' ≡ₚ ks → keys_match_values {| keys := ks; values := vs |} →
  keys_match_values {| keys := ks'; values := vs |}.
Proof.
  intros Hp [Hnd Hset]. unfold keys_match_values in *. cbn in *. split.
  - by rewrite Hp.
  - rewrite <- Hset. apply set_eq. intros x.
    rewrite !elem_of_list_to_set. by rewrite Hp.
Qed.

Lemma keys_match_values_UnmarshalJSON b o o' err :
  map_keys (values o) = ∅ → keys_match_values o →
  UnmarshalJSON b o = Ret (o', err) → keys_match_values o'.
Proof.
  intros Hempty Hinv H.
  assert (Hg : default ∅ (values o) = (∅ : gmap string any)).
  { unfold map_keys in Hempty. destruct (values o) as [g|]; [|done].
    cbn. by apply dom_empty_inv_L. }
  assert (Hks : keys o = []).
  { destruct Hinv as [_ Hset]. rewrite Hempty in Hset.
    destruct (keys o) as [|k ks]; [done|]. set_solver. }
  apply UnmarshalJSON_outcome in H
    as [[e [= -> _]]|[[e [= -> _]]|[[_ [= -> _]]|(m & _ & Hfree & _ & _ & [= -> _])]]].
  - done.
  - rewrite Hg, Hks. split; [constructor | set_solver].
  - split; [constructor | set_solver].
  - inversion_clear Hfree as [| | | | | |? Hnd _]. split; [done|]. cbn.
    rewrite dom_insert_all, fst_tagged, Hg. set_solver.
Qed.

Lemma reachable_keys_match_values o :
  reachable_by (λ f, ∀ ks, f ks ≡ₚ ks) (λ o, map_keys (values o) = ∅) o →
  keys_match_values o.
Proof.
  induction 1 as [|o k v o' _ IH Hset|o k _ IH|o f _ IH Hf|o less _ IH
                  |o b o' err _ IH Hempty Hrun].
  - apply keys_match_values_New.
  - by eapply keys_match_values_Set.
  - by apply keys_match_values_Delete.
  - destruct o as [ks vs]. by apply (keys_match_values_Permutation ks).
  - pose proof (Sort_keys_Permutation less o) as Hp.
    destruct o as [ks vs].
    by apply (keys_match_values_Permutation ks vs (keys (Sort less _))).
  - by eapply keys_match_values_UnmarshalJSON.
Qed.

(** * Duplicate keys *)

(** C1 fails as stated: in the text [{"n":1e400,"a":1,"a":2}] the key ["a"]
    is repeated, but the scan first meets the number [1e400], which is too
    large for a [float64]; [UnmarshalJSON] returns the type error of the
    library, not the duplicate-key error. *)
Lemma UnmarshalJSON_large_number_before_duplicate :
  let j := JObject [("n"%string, JBigNumber);
                    ("a"%string, JNumber (float64_of_int 1));
                    ("a"%string, JNumber (float64_of_int 2))] in
  let b := [LDelim LBrace; LString "n"; LColon; LBigNumber; LComma;
            LString "a"; LColon; LNumber (float64_of_int 1); LComma;
            LString "a"; LColon; LNumber (float64_of_int 2); LDelim RBrace] in
  parse b = Some j ∧ duplicated "a" j ∧
  ∀ o, UnmarshalJSON b o = Ret (o, Some UnmarshalTypeError).
Proof.
  intros j b. split; [reflexivity|]. split.
  - by apply (dup_here _ _ 1%nat 2%nat (JNumber (float64_of_int 1))
                (JNumber (float64_of_int 2))).
  - intros o. by apply (UnmarshalJSON_fault b j).
Qed.

(** C1, amended.  A JSON text in which some object, at any depth, has two
    members with the same key makes [UnmarshalJSON] fail and leave the
    container as it was.  The error is the one of what the scan meets
    first: a key repeated in the text, or a number too large for a
    [float64]; in a text without such a number it is the duplicate-key
    error for a key that is repeated in the text.  The texts
    [{"a":1,"b":2,"a":3}], [{"a":{"x":1,"x":2}}] and [[{"a":1,"a":2}]] are
    rejected for the keys ["a"], ["x"] and ["a"]. *)
Theorem UnmarshalJSON_rejects_duplicates :
  (∀ (b : list lexeme) (j : json) (k0 : string) (o : OrderedMap),
     compact b = lexemes j → duplicated k0 j →
     ∃ e, first_fault j = Some e ∧ fault_of j e ∧
          UnmarshalJSON b o = Ret (o, Some e) ∧
          (overflows j = false → ∃ k, e = ErrJSONDuplicate k ∧ duplicated k j)) ∧
  (∀ o, UnmarshalJSON
          [LDelim LBrace; LString "a"; LColon; LNumber (float64_of_int 1); LComma;
           LString "b"; LColon; LNumber (float64_of_int 2); LComma;
           LString "a"; LColon; LNumber (float64_of_int 3); LDelim RBrace] o =
        Ret (o, Some (ErrJSONDuplicate "a"))) ∧
  (∀ o, UnmarshalJSON
          [LDelim LBrace; LString "a"; LColon;
             LDelim LBrace; LString "x"; LColon; LNumber (float64_of_int 1); LComma;
                            LString "x"; LColon; LNumber (float64_of_int 2);
             LDelim RBrace;
           LDelim RBrace] o =
        Ret (o, Some (ErrJSONDuplicate "x"))) ∧
  (∀ o, UnmarshalJSON
          [LDelim LBracket;
             LDelim LBrace; LString "a"; LColon; LNumber (float64_of_int 1); LComma;
                            LString "a"; LColon; LNumber (float64_of_int 2);
             LDelim RBrace;
           LDelim RBracket] o =
        Ret (o, Some (ErrJSONDuplicate "a"))).
Proof.
  split; [|split; [|split]].
  - intros b j k0 o Hb Hdup. destruct (duplicated_fault _ _ Hdup) as [e He].
    exists e. split; [done|]. split; [by apply first_fault_Some|].
    split; [by apply (UnmarshalJSON_fault b j)|].
    intros Ho. destruct (duplicated_first_fault _ _ Hdup Ho) as (k & Hk & Hd).
    exists k. split; [congruence | done].
  - intros o.
    by apply (UnmarshalJSON_fault _
      (JObject [("a"%string, JNumber (float64_of_int 1));
                ("b"%string, JNumber (float64_of_int 2));
                ("a"%string, JNumber (float64_of_int 3))])).
  - intros o.
    by apply (UnmarshalJSON_fault _
      (JObject [("a"%string,
                 JObject [("x"%string, JNumber (float64_of_int 1));
                          ("x"%string, JNumber (float64_of_int 2))])])).
  - intros o.
    by apply (UnmarshalJSON_fault _
      (JArray [JObject [("a"%string, JNumber (float64_of_int 1));
                        ("a"%string, JNumber (float64_of_int 2))]])).
Qed.

Lemma UnmarshalJSON_rejects_duplicates_witness :
  let j := JObject [("k"%string, JArray [JObject
                      [("a"%string, JNull); ("a"%string, JBool true)]])] in
  let b := [LSpace SP; LDelim LBrace; LString "k"; LColon; LSpace LF;
            LDelim LBracket; LDelim LBrace; LString "a"; LColon; LNull; LComma;
            LSpace SP; LString "a"; LColon; LBool true; LDelim RBrace;
            LDelim RBracket; LDelim RBrace; LSpace LF] in
  ∃ e, first_fault j = Some e ∧ fault_of j e ∧
       UnmarshalJSON b New = Ret (New, Some e) ∧
       (overflows j = false → ∃ k, e = ErrJSONDuplicate k ∧ duplicated k j).
Proof.
  intros j b.
  apply (proj1 UnmarshalJSON_rejects_duplicates b j "a"%string New).
  - reflexivity.
  - apply (dup_member _ _ "k"%string (JArray [JObject
             [("a"%string, JNull); ("a"%string, JBool true)]])); [left|].
    apply (dup_element _ _ (JObject
             [("a"%string, JNull); ("a"%string, JBool true)])); [left|].
    by apply (dup_here _ _ 0%nat 1%nat JNull (JBool true)).
Defined.

(** * Round trip *)

(** C2 fails as stated, in four ways.  A [map[string]any] given to [Set]
    comes back as an ordered map; an [int] comes back as a [float64]; two
    keys that are not valid UTF-8 are both written as U+FFFD, and the
    output is refused for a repeated key; and for a value the encoder
    refuses, a channel, there are no bytes to unmarshal. *)
Lemma round_trip_changes_values :
  (∃ c b c',
     Set_ "p" (Map (Some (<["x"%string:=Nil]> ∅))) New = Ret c ∧
     MarshalJSON c = inl b ∧ UnmarshalJSON b New = Ret (c', None) ∧
     Get "p" c = Map (Some (<["x"%string:=Nil]> ∅)) ∧
     Get "p" c' = OMap ["x"%string] (Some (<["x"%string:=Nil]> ∅))) ∧
  (∃ c b c',
     Set_ "a" (Int 1) New = Ret c ∧
     MarshalJSON c = inl b ∧ UnmarshalJSON b New = Ret (c', None) ∧
     Get "a" c = Int 1 ∧ Get "a" c' = Float64 (float64_of_int 1)) ∧
  (∃ c b,
     Set_all [(String (ascii_of_N 0xFF) EmptyString, Nil);
              (String (ascii_of_N 0xFE) EmptyString, Nil)] New = Ret c ∧
     MarshalJSON c = inl b ∧
     UnmarshalJSON b New = Ret (New, Some (ErrJSONDuplicate replacement))) ∧
  (∃ c, Set_ "c" Chan New = Ret c ∧ MarshalJSON c = inr UnsupportedTypeError).
Proof.
  split; [|split; [|split]].
  - eexists _, _, _. split; [reflexivity|]. split; [reflexivity|].
    split; [reflexivity|]. split; reflexivity.
  - eexists _, _, _. split; [reflexivity|]. split; [reflexivity|].
    split; [reflexivity|]. split; reflexivity.
  - eexists _, _. split; [reflexivity|]. split; [reflexivity|]. reflexivity.
  - eexists. split; reflexivity.
Qed.

(** C2, amended.  For a container built from the empty one by [Set] calls
    with keys of valid UTF-8 and with values that are nil, a [bool], a
    finite [float64], a string of valid UTF-8, a slice of such values or a
    container built the same way, and whose text nests no deeper than the
    library allows: [MarshalJSON] and [json.Marshal] return bytes, and
    unmarshaling them into an empty container gives back the container
    itself: the same [Keys()] in the same order and the same values, nested
    containers included. *)
Theorem Marshal_Unmarshal_round_trip (c : OrderedMap) :
  built c → depth (doc_of (OrderedMapV c)) ≤ maxNestingDepth →
  (∃ b, MarshalJSON c = inl b ∧ UnmarshalJSON b New = Ret (c, None)) ∧
  (∃ t, json_Marshal c = inl t ∧ UnmarshalJSON t New = Ret (c, None)).
Proof.
  intros [Hwf Hex]%built_shape Hd.
  destruct (faithful_round_trip c Hwf Hex Hd) as (b & Hb & Hrun & Ht & Hrun').
  split; [by exists b | by exists (compact b)].
Qed.

Lemma Marshal_Unmarshal_round_trip_witness :
  let inner := {| keys := ["y"; "x"]%string;
                  values := Some (<["x"%string:=Bool true]>
                                    (<["y"%string:=Float64 (float64_of_int 1)]> ∅)) |} in
  let c := {| keys := ["b"; "a"; "c"]%string;
              values := Some (<["c"%string:=Slice [Nil; OrderedMapV inner]]>
                               (<["a"%string:=OrderedMapV inner]>
                                  (<["b"%string:=String_ "s"]> ∅))) |} in
  built c ∧ depth (doc_of (OrderedMapV c)) ≤ maxNestingDepth ∧
  (∃ b, MarshalJSON c = inl b ∧ UnmarshalJSON b New = Ret (c, None)) ∧
  (∃ t, json_Marshal c = inl t ∧ UnmarshalJSON t New = Ret (c, None)).
Proof.
  intros inner c.
  assert (Hinner : built inner).
  { apply (built_Set {| keys := ["y"%string];
                        values := Some (<["y"%string:=Float64 (float64_of_int 1)]> ∅) |}
             "x"%string (Bool true)); [|reflexivity|constructor|reflexivity].
    apply (built_Set New "y"%string (Float64 (float64_of_int 1)));
      [constructor|reflexivity|by constructor|reflexivity]. }
  assert (Hc : built c).
  { apply (built_Set
             {| keys := ["b"; "a"]%string;
                values := Some (<["a"%string:=OrderedMapV inner]>
                                  (<["b"%string:=String_ "s"]> ∅)) |}
             "c"%string (Slice [Nil; OrderedMapV inner]));
      [|reflexivity|constructor; repeat constructor; exact Hinner|reflexivity].
    apply (built_Set
             {| keys := ["b"%string]; values := Some (<["b"%string:=String_ "s"]> ∅) |}
             "a"%string (OrderedMapV inner));
      [|reflexivity|constructor; exact Hinner|reflexivity].
    apply (built_Set New "b"%string (String_ "s"));
      [constructor|reflexivity|by constructor|reflexivity]. }
  assert (Hd : depth (doc_of (OrderedMapV c)) ≤ maxNestingDepth) by (by vm_compute).
  split; [exact Hc|]. split; [exact Hd|].
  exact (Marshal_Unmarshal_round_trip c Hc Hd).
Defined.

(** * Failure of UnmarshalJSON *)

(** C4. A call that fails on the text [null]: the container held the key
    ["z"]; [UnmarshalJSON] returns [io.EOF], and the container is left
    without keys and with a nil values map. *)
Theorem UnmarshalJSON_null_empties_container :
  ∃ o o',
    Set_ "z" (Int 1) New = Ret o ∧
    UnmarshalJSON [LNull] o = Ret (o', Some io_EOF) ∧
    Keys o = ["z"%string] ∧ Get "z" o = Int 1 ∧
    Keys o' = [] ∧ Get "z" o' = Nil ∧ values o' = None.
Proof.
  exists {| keys := ["z"%string]; values := Some (<["z"%string:=Int 1]> ∅) |}.
  exists {| keys := []; values := None |}.
  split; [reflexivity|]. split; [by apply UnmarshalJSON_null|]. done.
Qed.

(** X2.  Whenever [UnmarshalJSON] returns an error, either [Keys()] and every
    [Get] are what they were before the call, or the text was [null] and
    the container is left without keys and with a nil values map.  When it
    is the duplicate scan that fails, the container is untouched. *)
Theorem UnmarshalJSON_failure_state (b : list lexeme) (o o' : OrderedMap) (e : error) :
  UnmarshalJSON b o = Ret (o', Some e) →
  (Keys o' = Keys o ∧ ∀ k, Get k o' = Get k o) ∨
  (compact b = [LNull] ∧ e = io_EOF ∧ o' = {| keys := []; values := None |}).
Proof.
  intros H. apply UnmarshalJSON_outcome in H
    as [[e' [= -> _]]|[[e' [= -> _]]|[[Hb [= -> ->]]|(m & _ & _ & _ & _ & [= _ ?])]]].
  - by left.
  - left. split; [done|]. intros k. rewrite !Get_lookup. cbn.
    by destruct (values o).
  - by right.
Qed.

Lemma UnmarshalJSON_failure_state_witness :
  let o := {| keys := ["z"%string]; values := Some (<["z"%string:=Int 1]> ∅) |} in
  let b := [LDelim LBracket; LNumber (float64_of_int 1); LDelim RBracket] in
  UnmarshalJSON b o = Ret (o, Some UnmarshalTypeError) ∧
  ((Keys o = Keys o ∧ ∀ k, Get k o = Get k o) ∨
   (compact b = [LNull] ∧ UnmarshalTypeError = io_EOF ∧
    o = {| keys := []; values := None |})).
Proof.
  intros o b.
  assert (H : UnmarshalJSON b o = Ret (o, Some UnmarshalTypeError)) by reflexivity.
  split; [exact H|]. exact (UnmarshalJSON_failure_state b o o _ H).
Defined.

Lemma UnmarshalJSON_scan_failure (b : list lexeme) (o : OrderedMap) d (e : error) :
  CheckDuplicate (NewDecoder b) = Ret (d, Some e) →
  UnmarshalJSON b o = Ret (o, Some e).
Proof. intros H. unfold UnmarshalJSON. by rewrite H. Qed.

(** * The form of the output *)

(** C5 fails as stated: the output for the container [{"a": 1}] has a line
    feed after the key and after the value. *)
Lemma MarshalJSON_writes_line_feeds :
  ∃ b, MarshalJSON {| keys := ["a"%string];
                      values := Some (<["a"%string:=Int 1]> ∅) |} = inl b ∧
       b = [LDelim LBrace; LString "a"; LSpace LF; LColon;
            LNumber (float64_of_int 1); LSpace LF; LDelim RBrace] ∧
       ¬ Forall (λ x, is_space x = false) b.
Proof.
  eexists. split; [reflexivity|]. split; [reflexivity|]. intros H.
  apply Forall_cons in H as [_ H]. apply Forall_cons in H as [_ H].
  by apply Forall_cons in H as [? _].
Qed.

Lemma MarshalJSON_buf_first_error encode ks e i k :
  ks !! i = Some k → encode k = inr e →
  (∀ j k', (j < i)%nat → ks !! j = Some k' → ∃ t, encode k' = inl t) →
  MarshalJSON_buf encode ks = inr e.
Proof.
  intros Hi Hk Hbefore.
  destruct (MarshalJSON_buf encode ks) as [b|e'] eqn:E.
  - destruct (MarshalJSON_buf_inl _ _ _ E k) as [t Ht];
      [by eapply list_elem_of_lookup_2 | congruence].
  - apply MarshalJSON_buf_inr in E as (i' & k' & Hi' & Hk' & Hbefore').
    destruct (Nat.lt_trichotomy i i') as [Hlt|[->|Hlt]].
    + destruct (Hbefore' i k Hlt Hi) as [t Ht]. congruence.
    + congruence.
    + destruct (Hbefore i' k' Hlt Hi') as [t Ht]. congruence.
Qed.

(** C5, amended.  When the encoder accepts the value at every key,
    [MarshalJSON] writes [{], then for each key in [Keys()] order the key, a
    line feed, [:], the value and a line feed, with [,] between two members
    and none after the last, then [}]; the empty container gives exactly
    [{}].  The encoding of a value holds no white space, so the line feed
    after each key and each value is the only white space, and
    [json.Marshal], which compacts the output, gives the members as
    ["key":value].  When the encoder refuses the value at some key,
    [MarshalJSON] returns no bytes but the error of the first such key. *)
Theorem MarshalJSON_form (o : OrderedMap) :
  (∀ b, MarshalJSON o = inl b →
     (∀ k, k ∈ Keys o → marshal (Get k o) = inl (lexemes (doc_of (Get k o)))) ∧
     b = LDelim LBrace
           :: join_comma ((λ k, member_written k (lexemes (doc_of (Get k o)))) <$> Keys o)
           ++ [LDelim RBrace] ∧
     compact b =
       LDelim LBrace
         :: join_comma ((λ k, member_compact k (lexemes (doc_of (Get k o)))) <$> Keys o)
         ++ [LDelim RBrace] ∧
     (depth (doc_of (OrderedMapV o)) ≤ maxNestingDepth →
      json_Marshal o = inl (compact b))) ∧
  (∀ e, MarshalJSON o = inr e ↔
     ∃ i k, Keys o !! i = Some k ∧ marshal (Get k o) = inr e ∧
            ∀ j k', (j < i)%nat → Keys o !! j = Some k' →
                    ∃ t, marshal (Get k' o) = inl t) ∧
  (∀ v t, marshal v = inl t → Forall (λ x, is_space x = false) t) ∧
  MarshalJSON New = inl [LDelim LBrace; LDelim RBrace].
Proof.
  split; [|split; [|split]].
  - intros b Hb. destruct (MarshalJSON_inl o b Hb) as (Hall & Hw & Hc).
    split; [intros k Hk; by apply marshal_encodable, Hall|].
    split; [done|]. split.
    + rewrite Hc, doc_of_OrderedMapV.
      apply (lexemes_Object_members (λ k, doc_of (Get k o))).
    + intros Hd. apply json_Marshal_inl. by exists b.
  - intros e. split.
    + apply MarshalJSON_buf_inr.
    + intros (i & k & Hi & Hk & Hbefore).
      by apply (MarshalJSON_buf_first_error _ _ e i k).
  - intros v t ->%marshal_doc. apply lexemes_no_space.
  - done.
Qed.

Lemma MarshalJSON_form_witness :
  let o := {| keys := ["a"; "c"; "b"]%string;
              values := Some (<["c"%string:=Chan]>
                                (<["a"%string:=Slice [Nil; Bool true]]> ∅)) |} in
  MarshalJSON o = inr UnsupportedTypeError ∧
  ∃ i k, Keys o !! i = Some k ∧ marshal (Get k o) = inr UnsupportedTypeError ∧
         ∀ j k', (j < i)%nat → Keys o !! j = Some k' →
                 ∃ t, marshal (Get k' o) = inl t.
Proof.
  intros o.
  assert (H : MarshalJSON o = inr UnsupportedTypeError) by reflexivity.
  split; [exact H|].
  exact (proj1 (proj1 (proj2 (MarshalJSON_form o)) UnsupportedTypeError) H).
Defined.

(** * The invariant and the public API *)

(** C6.  [UnmarshalJSON] called on a container that holds the key ["z"]:
    the call succeeds, the entry for ["z"] stays in the values map, and the
    keys are rebuilt from the text alone, so that [Get] still finds ["z"]
    while [Keys()] no longer lists it. *)
Theorem UnmarshalJSON_keeps_stale_entries :
  ∃ o1 o2,
    Set_ "z" (Int 1) New = Ret o1 ∧
    UnmarshalJSON
      [LDelim LBrace; LString "a"; LColon; LNumber (float64_of_int 1); LDelim RBrace] o1
      = Ret (o2, None) ∧
    reachable o2 ∧ Keys o2 = ["a"%string] ∧ Get "z" o2 = Int 1 ∧
    "z"%string ∈ map_keys (values o2) ∧
    ¬ keys_match_values o2.
Proof.
  set (o1 := {| keys := ["z"%string]; values := Some (<["z"%string:=Int 1]> ∅) |}).
  exists o1.
  exists {| keys := ["a"%string];
            values := Some (<["a"%string:=Float64 (float64_of_int 1)]>
                              (<["z"%string:=Int 1]> ∅)) |}.
  assert (Hz : "z"%string ∈
            dom (<["a"%string:=Float64 (float64_of_int 1)]>
                   (<["z"%string:=Int 1]> (∅ : gmap string any)))).
  { apply elem_of_dom. by exists (Int 1). }
  split; [reflexivity|]. split; [reflexivity|].
  split; [|split; [done|split; [done|split; [done|]]]].
  - apply (reach_UnmarshalJSON _ _ o1
      [LDelim LBrace; LString "a"; LColon; LNumber (float64_of_int 1); LDelim RBrace]
      _ None);
      [|done|reflexivity].
    by apply (reach_Set _ _ New "z"%string (Int 1)); [constructor|].
  - intros [_ Hset].
    assert (Hin : "z"%string ∈ (list_to_set ["a"%string] : gset string)).
    { by rewrite (Hset : list_to_set ["a"%string] =
             dom (<["a"%string:=Float64 (float64_of_int 1)]> (<["z"%string:=Int 1]>
                    (∅ : gmap string any)))). }
    apply elem_of_list_to_set in Hin. by apply list_elem_of_singleton in Hin.
Qed.

(** [SortKeys] applies whatever function it is given, one that overwrites
    a key included. *)
Lemma SortKeys_applies_any_function :
  ∃ o1, Set_ "z" (Int 1) New = Ret o1 ∧
        reachable (SortKeys (λ ks, <[0%nat:="y"%string]> ks) o1) ∧
        ¬ keys_match_values (SortKeys (λ ks, <[0%nat:="y"%string]> ks) o1).
Proof.
  set (o1 := {| keys := ["z"%string]; values := Some (<["z"%string:=Int 1]> ∅) |}).
  exists o1. split; [reflexivity|]. split.
  - apply reach_SortKeys; [|done].
    by apply (reach_Set _ _ New "z"%string (Int 1)); [constructor|].
  - intros [_ Hset].
    assert (Hy : "y"%string ∈ (list_to_set ["y"%string] : gset string)) by set_solver.
    rewrite (Hset : list_to_set ["y"%string] =
                    dom (<["z"%string:=Int 1]> (∅ : gmap string any))) in Hy.
    assert (Hn : "y"%string ∉ dom (<["z"%string:=Int 1]> (∅ : gmap string any)))
      by (by apply not_elem_of_dom).
    done.
Qed.

(** X1.  For every container reached from the empty one by [Set],
    [Delete], [SortKeys] with a function that only permutes the keys,
    [Sort], and [UnmarshalJSON] called on a container without entries, the
    keys and the key set of the values map have the same members and every
    key appears in the keys exactly once. *)
Theorem reachable_invariant (o : OrderedMap) :
  reachable_by (λ f, ∀ ks, f ks ≡ₚ ks) (λ o, map_keys (values o) = ∅) o →
  NoDup (Keys o) ∧ list_to_set (Keys o) = map_keys (values o).
Proof. apply reachable_keys_match_values. Qed.

Lemma reachable_invariant_witness :
  let o1 := {| keys := ["b"; "a"]%string;
               values := Some (<["a"%string:=Float64 (float64_of_int 2)]>
                                 (<["b"%string:=Float64 (float64_of_int 1)]> ∅)) |} in
  let o2 := {| keys := ["b"; "a"; "c"]%string;
               values := Some (<["c"%string:=Nil]>
                                 (<["a"%string:=Float64 (float64_of_int 2)]>
                                    (<["b"%string:=Float64 (float64_of_int 1)]> ∅))) |} in
  let o3 := SortKeys (merge_sort String.le) (Delete "b" o2) in
  reachable_by (λ f, ∀ ks, f ks ≡ₚ ks) (λ o, map_keys (values o) = ∅) o3 ∧
  NoDup (Keys o3) ∧ list_to_set (Keys o3) = map_keys (values o3).
Proof.
  intros o1 o2 o3.
  assert (H : reachable_by (λ f, ∀ ks, f ks ≡ₚ ks)
                (λ o, map_keys (values o) = ∅) o3).
  { apply reach_SortKeys; [|intros ks; apply merge_sort_Permutation].
    apply reach_Delete.
    apply (reach_Set _ _ o1 "c"%string Nil); [|reflexivity].
    apply (reach_UnmarshalJSON _ _ New
             [LDelim LBrace; LString "b"; LColon; LNumber (float64_of_int 1); LComma;
              LString "a"; LColon; LNumber (float64_of_int 2); LDelim RBrace] o1 None);
      [constructor|reflexivity|reflexivity]. }
  split; [exact H|]. exact (reachable_invariant o3 H).
Defined.

(** * The statements at concrete containers *)

Lemma Set_keeps_insertion_order_witness :
  (∃ o, Set_all [("k2", Int 2); ("k1", Nil); ("k3", Bool true)]%string New = Ret o ∧
        Keys o = ["k2"; "k1"; "k3"]%string) ∧
  (∃ o', Set_ "k1" (String_ "new")
           {| keys := ["k2"; "k1"]%string;
              values := Some (<["k1"%string:=Nil]> (<["k2"%string:=Int 2]> ∅)) |}
         = Ret o' ∧
         Keys o' = ["k2"; "k1"]%string ∧ Get "k1" o' = String_ "new" ∧
         ∀ k', k' ≠ "k1"%string →
               Get k' o' =
               Get k' {| keys := ["k2"; "k1"]%string;
                         values := Some (<["k1"%string:=Nil]>
                                           (<["k2"%string:=Int 2]> ∅)) |}).
Proof.
  split.
  - apply (proj1 Set_keeps_insertion_order
             [("k2", Int 2); ("k1", Nil); ("k3", Bool true)]%string).
    compute_done.
  - apply (proj2 Set_keeps_insertion_order
             {| keys := ["k2"; "k1"]%string;
                values := Some (<["k1"%string:=Nil]> (<["k2"%string:=Int 2]> ∅)) |}
             "k1"%string (String_ "new")).
    apply elem_of_dom. by exists Nil.
Defined.

Lemma Delete_removes_key_witness :
  let o := {| keys := ["a"; "b"; "c"]%string;
              values := Some (<["c"%string:=Int 3]> (<["b"%string:=Int 2]>
                                (<["a"%string:=Int 1]> ∅))) |} in
  ("q"%string ∉ map_keys (values o)) ∧ "b"%string ∈ map_keys (values o) ∧
  NoDup (Keys o) ∧
  Delete "q" o = o ∧
  Keys (Delete "b" o) = ["a"; "c"]%string ∧ Get "b" (Delete "b" o) = Nil ∧
  Len (Delete "b" o) = 2 ∧
  GetKeyAt 0 (Delete "b" o) = GetKeyAt 0 o ∧
  GetKeyAt 1 (Delete "b" o) = GetKeyAt 2 o ∧
  GetValueAt 1 (Delete "b" o) = GetValueAt 2 o.
Proof.
  intros o.
  assert (Hq : "q"%string ∉ map_keys (values o)).
  { apply not_elem_of_dom. reflexivity. }
  assert (Hb : "b"%string ∈ map_keys (values o)).
  { apply elem_of_dom. by exists (Int 2). }
  assert (Hnd : NoDup (Keys o)) by compute_done.
  split; [exact Hq|]. split; [exact Hb|]. split; [exact Hnd|].
  split; [apply (proj1 (Delete_removes_key o "q") Hq)|].
  destruct (proj2 (Delete_removes_key o "b") Hb) as (_ & Hget & _ & Hkeys).
  destruct (Hkeys Hnd) as (_ & Hfilter & Hpos).
  destruct (Hpos 1%nat eq_refl) as [Hlen Hshift].
  split; [by rewrite Hfilter|]. split; [exact Hget|]. split; [by rewrite Hlen|].
  split; [apply (Hshift 0); lia|].
  split; [apply (Hshift 1); lia | apply (Hshift 1); lia].
Defined.

Lemma sorting_changes_only_key_order_witness :
  let o := {| keys := ["b"; "c"; "a"]%string;
              values := Some (<["a"%string:=Int 3]> (<["c"%string:=Int 2]>
                                (<["b"%string:=Int 1]> ∅))) |} in
  (∀ ks, Sorted String.le (merge_sort String.le ks) ∧ merge_sort String.le ks ≡ₚ ks) ∧
  Sorted String.le (Keys (SortKeys (merge_sort String.le) o)) ∧
  Keys (SortKeys (merge_sort String.le) o) ≡ₚ Keys o ∧
  (∀ k, Get k (SortKeys (merge_sort String.le) o) = Get k o) ∧
  (∀ k, Get k (Sort (λ x y, bool_decide (String.le (key y) (key x))) o) = Get k o).
Proof.
  intros o.
  assert (Hsort : ∀ ks, Sorted String.le (merge_sort String.le ks) ∧
                        merge_sort String.le ks ≡ₚ ks).
  { intros ks. split; [apply (Sorted_merge_sort String.le) | apply merge_sort_Permutation]. }
  split; [exact Hsort|].
  destruct (sorting_changes_only_key_order o) as [HSortKeys HSort].
  destruct (HSortKeys (merge_sort String.le)) as (Hsorted & _ & Hget).
  split; [apply (Hsorted Hsort)|]. split; [apply (Hsorted Hsort)|].
  split; [exact Hget|]. apply HSort.
Defined.

Lemma positional_access_bounds_witness :
  let o := {| keys := ["a"; "b"]%string;
              values := Some (<["b"%string:=Int 2]> (<["a"%string:=Int 1]> ∅)) |} in
  (-1 < 0 ∨ Len o ≤ -1) ∧ (2 < 0 ∨ Len o ≤ 2) ∧ 0 ≤ 1 < Len o ∧
  GetKeyAt (-1) o = Panics IndexOutOfRange ∧
  GetValueAt 2 o = Panics IndexOutOfRange ∧
  ∃ k, Keys o !! Z.to_nat 1 = Some k ∧
       GetKeyAt 1 o = Ret k ∧ GetValueAt 1 o = Ret (Get k o).
Proof.
  intros o.
  assert (H1 : -1 < 0 ∨ Len o ≤ -1) by (left; lia).
  assert (H2 : 2 < 0 ∨ Len o ≤ 2) by (right; unfold Len; simpl; lia).
  assert (H3 : 0 ≤ 1 < Len o) by (unfold Len; simpl; lia).
  split; [exact H1|]. split; [exact H2|]. split; [exact H3|].
  split; [apply (proj1 (positional_access_bounds o (-1)) H1)|].
  split; [apply (proj1 (positional_access_bounds o 2) H2)|].
  apply (proj2 (positional_access_bounds o 1) H3).
Defined.

Lemma Get_absent_is_nil_witness :
  let o := {| keys := ["a"%string]; values := Some (<["a"%string:=Nil]> ∅) |} in
  ("b"%string ∉ map_keys (values o)) ∧ Get "b" o = Nil ∧
  values o ≫= (.!! "a"%string) = Some Nil ∧
  ("a"%string ∉ map_keys (values New)) ∧
  "a"%string ∈ map_keys (values o) ∧ Get "a" o = Get "a" New.
Proof.
  intros o.
  assert (Hb : "b"%string ∉ map_keys (values o)).
  { apply not_elem_of_dom. reflexivity. }
  assert (Ha : "a"%string ∉ map_keys (values New)).
  { apply not_elem_of_dom. reflexivity. }
  split; [exact Hb|]. split; [apply (proj1 Get_absent_is_nil o _ Hb)|].
  split; [reflexivity|]. split; [exact Ha|].
  apply (proj2 Get_absent_is_nil o New "a"%string eq_refl Ha).
Defined.

(** * The scan returns on every input *)

Lemma More_true d : More d = true ↔ more_ahead (buf d).
Proof.
  unfold More, more_ahead.
  destruct (peek (buf d)) as [[[]| | | | | | | | |]|]; naive_solver.
Qed.

Lemma Token_value b : ∀ st stk d' t,
  value_ready st = true → (element_ready st = true → more_ahead b) →
  Token_loop b st stk = (d', inl t) →
  (length (buf d') < length b)%nat ∧
  match t with
  | TDelim LBrace =>
      tokenState d' = tokenObjectStart ∧ tokenStack d' = value_state st :: stk
  | TDelim LBracket =>
      tokenState d' = tokenArrayStart ∧ tokenStack d' = value_state st :: stk
  | TDelim _ => False
  | _ => tokenState d' = value_done st ∧ tokenStack d' = stk
  end.
Proof.
  induction b as [|x b IH]; intros st stk d' t Hst Hmore; [done|].
  destruct x as [[]| | | | | | | | |]; cbn [Token_loop];
    (destruct st; try discriminate Hst); cbn [tokenValueAllowed];
    intros H; try discriminate H;
    try (injection H as <- <-; cbn; split; [lia | done]);
    try (by destruct (Hmore eq_refl));
    try (apply IH in H as [Hlen H]; [split; [cbn; lia | done] | done | done]).
Qed.

Lemma Token_member b : ∀ st stk d' t,
  (key_ready st = true ∧ more_ahead b) ∨ st = tokenObjectKey →
  Token_loop b st stk = (d', inl t) →
  (length (buf d') < length b)%nat ∧
  (∃ k, t = TString k) ∧ tokenState d' = tokenObjectColon ∧ tokenStack d' = stk.
Proof.
  induction b as [|x b IH]; intros st stk d' t Hst; [done|].
  destruct x as [[]| | | | | | | | |]; cbn [Token_loop]; intros H;
    (destruct Hst as [[Hst Hmore]| ->]; [destruct st; try discriminate Hst|]);
    cbn [tokenValueAllowed] in H; try discriminate H;
    try (by destruct Hmore);
    try (injection H as <- <-; cbn; split; [lia | eauto]);
    try (apply IH in H as (Hlen & H);
         [split; [cbn; lia | done] | first [by right | by left]]).
Qed.

Lemma Token_closing b : ∀ st stk d' t,
  key_ready st = true ∨ element_ready st = true → ¬ more_ahead b →
  Token_loop b st stk = (d', inl t) →
  (length (buf d') < length b)%nat ∧
  tokenState d' = tokenPop stk ∧ tokenStack d' = tail stk.
Proof.
  induction b as [|x b IH]; intros st stk d' t Hst Hmore; [done|].
  destruct x as [[]| | | | | | | | |]; cbn [Token_loop]; intros H;
    try (by destruct Hmore);
    try (by apply IH in H as (Hlen & H); [split; [cbn; lia | done] | done | done]);
    destruct st; try discriminate H; injection H as <- <-; cbn; (split; [lia | done]).
Qed.

(** A run that ends in an error promises nothing more. *)
Ltac returns_error := eexists _, _; split; [reflexivity | by intros [=]].

Lemma CheckDuplicate_returns n :
  ∀ d, (length (buf d) < n)%nat → value_ready (tokenState d) = true →
       (element_ready (tokenState d) = true → More d = true) →
       ∃ d' e, CheckDuplicate_fuel n d = Ret (d', e) ∧
               (e = None →
                (length (buf d') < length (buf d))%nat ∧
                tokenState d' = value_done (tokenState d) ∧
                tokenStack d' = tokenStack d).
Proof.
  induction n as [n IH] using lt_wf_ind. intros d Hn Hst Hmore.
  destruct n as [|n]; [lia|].
  assert (Hobj : ∀ m d1 seen s0 stk,
    (length (buf d1) < m)%nat → (length (buf d1) < n)%nat →
    key_ready (tokenState d1) = true → tokenStack d1 = s0 :: stk →
    ∃ d' e, CheckDuplicate_object (CheckDuplicate_fuel n) m seen d1 = Ret (d', e) ∧
            (e = None → (length (buf d') < length (buf d1))%nat ∧
                        tokenState d' = tokenValueEnd s0 ∧ tokenStack d' = stk)).
  { induction m as [|m IHm]; intros d1 seen s0 stk Hm Hn1 Hst1 Hstk; [lia|].
    cbn [CheckDuplicate_object].
    destruct (More d1) eqn:Emore.
    - apply More_true in Emore.
      destruct (Token_ d1) as [d2 [t|err]] eqn:Et; [|returns_error].
      apply Token_member in Et as (Hlen & [k ->] & Hst2 & Hstk2); [|by left].
      destruct (decide (k ∈ seen)); [returns_error|].
      destruct (IH n (Nat.lt_succ_diag_r n) d2) as (d3 & e & -> & Hd3);
        [lia|by rewrite Hst2|by rewrite Hst2|].
      destruct e as [e|]; [returns_error|].
      destruct (Hd3 eq_refl) as (Hlen3 & Hst3 & Hstk3).
      destruct (IHm d3 ({[k]} ∪ seen) s0 stk) as (d4 & e & -> & Hd4);
        [lia|lia|by rewrite Hst3, Hst2|by rewrite Hstk3, Hstk2|].
      exists d4, e. split; [done|]. intros He.
      destruct (Hd4 He) as (? & ? & ?). split; [lia|done].
    - destruct (Token_ d1) as [d2 [t|err]] eqn:Et; [|returns_error].
      apply Token_closing in Et as (Hlen & Hst2 & Hstk2); [|by left|].
      + exists d2, None. split; [done|]. intros _.
        rewrite Hstk in *. by split.
      + rewrite <- More_true. by rewrite Emore. }
  assert (Harr : ∀ m d1 s0 stk,
    (length (buf d1) < m)%nat → (length (buf d1) < n)%nat →
    element_ready (tokenState d1) = true → tokenStack d1 = s0 :: stk →
    ∃ d' e, CheckDuplicate_array (CheckDuplicate_fuel n) m d1 = Ret (d', e) ∧
            (e = None → (length (buf d') < length (buf d1))%nat ∧
                        tokenState d' = tokenValueEnd s0 ∧ tokenStack d' = stk)).
  { induction m as [|m IHm]; intros d1 s0 stk Hm Hn1 Hst1 Hstk; [lia|].
    cbn [CheckDuplicate_array].
    destruct (More d1) eqn:Emore.
    - destruct (IH n (Nat.lt_succ_diag_r n) d1) as (d3 & e & -> & Hd3);
        [lia|by destruct (tokenState d1)|done|].
      destruct e as [e|]; [returns_error|].
      destruct (Hd3 eq_refl) as (Hlen3 & Hst3 & Hstk3).
      destruct (IHm d3 s0 stk) as (d4 & e & -> & Hd4);
        [lia|lia|by rewrite Hst3; destruct (tokenState d1)|by rewrite Hstk3|].
      exists d4, e. split; [done|]. intros He.
      destruct (Hd4 He) as (? & ? & ?). split; [lia|done].
    - destruct (Token_ d1) as [d2 [t|err]] eqn:Et; [|returns_error].
      apply Token_closing in Et as (Hlen & Hst2 & Hstk2); [|by right|].
      + exists d2, None. split; [done|]. intros _.
        rewrite Hstk in *. by split.
      + rewrite <- More_true. by rewrite Emore. }
  cbn [CheckDuplicate_fuel].
  destruct (Token_ d) as [d1 [t|err]] eqn:Et; [|returns_error].
  apply Token_value in Et as [Hlen Ht]; [|done|].
  - destruct t as [[]| | | |]; try done;
      try (exists d1, None; split; [done|]; intros _; by split).
    + destruct Ht as [Hst1 Hstk1].
      destruct (Hobj n d1 ∅ _ _ ltac:(lia) ltac:(lia) ltac:(by rewrite Hst1) Hstk1)
        as (d' & e & -> & Hd').
      exists d', e. split; [done|]. intros He.
      destruct (Hd' He) as (? & ? & ?). split; [lia|done].
    + destruct Ht as [Hst1 Hstk1].
      destruct (Harr n d1 _ _ ltac:(lia) ltac:(lia) ltac:(by rewrite Hst1) Hstk1)
        as (d' & e & -> & Hd').
      exists d', e. split; [done|]. intros He.
      destruct (Hd' He) as (? & ? & ?). split; [lia|done].
  - intros H. apply More_true. by apply Hmore.
Qed.

(** * What holds on every input *)

Lemma CheckDuplicate_fresh_returns (b : list lexeme) :
  ∃ d e, CheckDuplicate (NewDecoder b) = Ret (d, e).
Proof.
  destruct (CheckDuplicate_returns (S (length (buf (NewDecoder b)))) (NewDecoder b))
    as (d & e & H & _); [lia|done|done|]. by exists d, e.
Qed.

(** X3.  [CheckDuplicate] on a fresh decoder and [UnmarshalJSON] return,
    whatever the input and the container: they neither panic nor run out of
    fuel. *)
Theorem UnmarshalJSON_always_returns (b : list lexeme) :
  (∃ d e, CheckDuplicate (NewDecoder b) = Ret (d, e)) ∧
  (∀ o : OrderedMap, ∃ o' e, UnmarshalJSON b o = Ret (o', e)).
Proof.
  split; [apply CheckDuplicate_fresh_returns|]. intros o.
  destruct (parse b) as [j|] eqn:Ep.
  - apply parse_sound in Ep. destruct (first_fault j) as [k|] eqn:Ek.
    { rewrite (UnmarshalJSON_fault b j k o Ep Ek). eauto. }
    destruct (decide (depth j ≤ maxNestingDepth)) as [Hd|Hd].
    2:{ rewrite (UnmarshalJSON_deep b j o Ep Ek) by lia. eauto. }
    destruct j as [| | | | |l|m];
      try (rewrite (UnmarshalJSON_other b _ o Ep Ek) by done; eauto).
    + rewrite (UnmarshalJSON_null b o Ep). eauto.
    + rewrite (UnmarshalJSON_object b m o Ep Ek Hd). eauto.
  - unfold UnmarshalJSON.
    destruct (CheckDuplicate_fresh_returns b) as (d & e & ->).
    destruct e as [e|]; [by eauto|].
    unfold json_Unmarshal.
    destruct (values o) as [g|]; cbn [values keys]; rewrite Ep; eauto.
Qed.

(** X4.  The scan accepts exactly the documents without a repeated key and
    without a number too large for a [float64]; on the others it returns
    the error of what it meets first. *)
Theorem CheckDuplicate_accepts (b : list lexeme) (j : json) :
  compact b = lexemes j →
  (dup_free j ∧ overflows j = false ↔
   ∃ d, CheckDuplicate (NewDecoder b) = Ret (d, None)) ∧
  (∀ e, first_fault j = Some e →
        ∃ d, CheckDuplicate (NewDecoder b) = Ret (d, Some e)).
Proof.
  intros Hb. pose proof (CheckDuplicate_text b j Hb) as H. split; [split|].
  - intros Hfree%first_fault_None. rewrite Hfree in H. eauto.
  - intros [d Hd]. apply first_fault_None.
    destruct (first_fault j) as [k|]; [|done].
    destruct H as [d' H]. congruence.
  - intros e He. by rewrite He in H.
Qed.

Lemma CheckDuplicate_accepts_witness :
  let b := [LDelim LBracket; LSpace SP; LNumber (float64_of_int 1); LComma; LNull;
            LDelim RBracket] in
  let j := JArray [JNumber (float64_of_int 1); JNull] in
  compact b = lexemes j ∧
  (dup_free j ∧ overflows j = false ↔
   ∃ d, CheckDuplicate (NewDecoder b) = Ret (d, None)) ∧
  (∀ e, first_fault j = Some e →
        ∃ d, CheckDuplicate (NewDecoder b) = Ret (d, Some e)).
Proof.
  intros b j. split; [reflexivity|].
  exact (CheckDuplicate_accepts b j eq_refl).
Defined.

(** X5.  On the text of an object without repeated keys, without a number
    too large for a [float64] and nested no deeper than the library allows,
    [UnmarshalJSON] succeeds: the keys are its member keys in document
    order, the entries for them hold the member values with every nested
    object turned into an ordered map, and the other entries of the values
    map stay. *)
Theorem UnmarshalJSON_keeps_document_order (b : list lexeme)
    (m : list (string * json)) (o : OrderedMap) :
  compact b = lexemes (JObject m) → dup_free (JObject m) →
  overflows (JObject m) = false → depth (JObject m) ≤ maxNestingDepth →
  ∃ o', UnmarshalJSON b o = Ret (o', None) ∧
        Keys o' = m.*1 ∧
        (∀ k v, (k, v) ∈ m → Get k o' = promote v) ∧
        (∀ k, k ∉ m.*1 → Get k o' = Get k o).
Proof.
  intros Hb Hfree Hover Hd.
  rewrite (UnmarshalJSON_object b m o Hb) by (by try apply first_fault_None).
  eexists. split; [done|]. split; [done|].
  inversion_clear Hfree as [| | | | | |? Hnd _]. split.
  - intros k v Hin. rewrite Get_lookup. cbn.
    erewrite lookup_insert_all_NoDup; [done|by rewrite fst_tagged|].
    apply list_elem_of_fmap. by exists (k, v).
  - intros k Hk. rewrite !Get_lookup. cbn.
    rewrite lookup_insert_all_notin by (by rewrite fst_tagged).
    by destruct (values o).
Qed.

Lemma UnmarshalJSON_keeps_document_order_witness :
  let m := [("b"%string, JNumber (float64_of_int 1));
            ("a"%string, JObject [("y"%string, JNull); ("x"%string, JNull)])] in
  let b := [LDelim LBrace; LString "b"; LColon; LNumber (float64_of_int 1); LComma;
            LSpace LF;
            LString "a"; LColon; LDelim LBrace; LString "y"; LColon; LNull; LComma;
            LString "x"; LColon; LNull; LDelim RBrace; LDelim RBrace] in
  compact b = lexemes (JObject m) ∧ dup_free (JObject m) ∧
  overflows (JObject m) = false ∧ depth (JObject m) ≤ maxNestingDepth ∧
  ∃ o', UnmarshalJSON b New = Ret (o', None) ∧
        Keys o' = m.*1 ∧
        (∀ k v, (k, v) ∈ m → Get k o' = promote v) ∧
        (∀ k, k ∉ m.*1 → Get k o' = Get k New).
Proof.
  intros m b.
  assert (Hfree : dup_free (JObject m)) by (by apply first_fault_None).
  assert (Hd : depth (JObject m) ≤ maxNestingDepth) by (by vm_compute).
  split; [reflexivity|]. split; [exact Hfree|]. split; [reflexivity|].
  split; [exact Hd|].
  exact (UnmarshalJSON_keeps_document_order b m New eq_refl Hfree eq_refl Hd).
Defined.

(** * What no call breaks *)

Lemma keys_within_values_Set o k v o' :
  keys_within_values o → Set_ k v o = Ret o' → keys_within_values o'.
Proof.
  intros [Hnd Hsub]. unfold Set_, map_index, keys_within_values, map_keys in *.
  destruct (values o) as [m|]; [|done]. cbn.
  destruct (m !! k) as [x|] eqn:Ek; cbn; intros [= <-]; cbn.
  - split; [done|]. rewrite dom_insert_L. set_solver.
  - apply not_elem_of_dom in Ek. split.
    + apply NoDup_app. split; [done|]. split; [|apply NoDup_singleton].
      intros x Hx ->%list_elem_of_singleton. apply Ek, Hsub.
      by apply elem_of_list_to_set.
    + rewrite dom_insert_L, list_to_set_app_L. set_solver.
Qed.

Lemma keys_within_values_Delete o k :
  keys_within_values o → keys_within_values (Delete k o).
Proof.
  intros [Hnd Hsub].
  destruct (decide (k ∈ map_keys (values o))) as [Hin|Hout];
    [|by rewrite Delete_absent].
  split.
  - rewrite Delete_keys_filter by done. by apply NoDup_filter.
  - rewrite Delete_keys_filter by done. rewrite (Delete_present _ _ Hin).
    cbn [values]. unfold map_keys, map_delete in *.
    destruct (values o) as [m|]; cbn; [|set_solver].
    rewrite dom_delete_L. intros x.
    rewrite elem_of_list_to_set, list_elem_of_filter, elem_of_difference,
      elem_of_singleton. intros [Hne Hx]. split; [|done].
    apply Hsub. by apply elem_of_list_to_set.
Qed.

Lemma keys_within_values_Permutation ks vs ks' :
  ks' ≡ₚ ks → keys_within_values {| keys := ks; values := vs |} →
  keys_within_values {| keys := ks'; values := vs |}.
Proof.
  intros Hp [Hnd Hsub]. unfold keys_within_values in *. cbn in *. split.
  - by rewrite Hp.
  - intros x. rewrite elem_of_list_to_set, Hp. intros Hx.
    apply Hsub. by apply elem_of_list_to_set.
Qed.

Lemma keys_within_values_UnmarshalJSON b o o' err :
  keys_within_values o → UnmarshalJSON b o = Ret (o', err) → keys_within_values o'.
Proof.
  intros Hinv H.
  apply UnmarshalJSON_outcome in H
    as [[e [= -> _]]|[[e [= -> _]]|[[_ [= -> _]]|(m & _ & Hfree & _ & _ & [= -> _])]]].
  - done.
  - destruct Hinv as [Hnd Hsub]. split; [done|]. cbn. unfold map_keys in Hsub.
    destruct (values o); cbn; [done | set_solver].
  - split; [constructor | set_solver].
  - inversion_clear Hfree as [| | | | | |? Hnd _]. split; [done|]. cbn.
    rewrite dom_insert_all, fst_tagged. set_solver.
Qed.

(** X6.  Whatever the container [UnmarshalJSON] is called on, as long as
    [SortKeys] is given functions that only permute the keys, every key of
    [Keys()] appears there once and has an entry in the values map. *)
Theorem reachable_keys_within_values (o : OrderedMap) :
  reachable_by (λ f, ∀ ks, f ks ≡ₚ ks) (λ _, True) o →
  NoDup (Keys o) ∧ list_to_set (Keys o) ⊆ map_keys (values o).
Proof.
  induction 1 as [|o k v o' _ IH Hset|o k _ IH|o f _ IH Hf|o less _ IH
                  |o b o' err _ IH _ Hrun].
  - split; [constructor | set_solver].
  - by eapply keys_within_values_Set.
  - by apply keys_within_values_Delete.
  - destruct o as [ks vs]. by apply (keys_within_values_Permutation ks).
  - pose proof (Sort_keys_Permutation less o) as Hp.
    destruct o as [ks vs].
    by apply (keys_within_values_Permutation ks vs (keys (Sort less _))).
  - by eapply keys_within_values_UnmarshalJSON.
Qed.

Lemma reachable_keys_within_values_witness :
  let o1 := {| keys := ["z"%string]; values := Some (<["z"%string:=Int 1]> ∅) |} in
  let o2 := {| keys := ["a"%string];
               values := Some (<["a"%string:=Float64 (float64_of_int 1)]>
                                 (<["z"%string:=Int 1]> ∅)) |} in
  reachable_by (λ f, ∀ ks, f ks ≡ₚ ks) (λ _, True) o2 ∧
  NoDup (Keys o2) ∧ list_to_set (Keys o2) ⊆ map_keys (values o2).
Proof.
  intros o1 o2.
  assert (H : reachable_by (λ f, ∀ ks, f ks ≡ₚ ks) (λ _, True) o2).
  { apply (reach_UnmarshalJSON _ _ o1
             [LDelim LBrace; LString "a"; LColon; LNumber (float64_of_int 1);
              LDelim RBrace] o2 None);
      [|exact I|reflexivity].
    apply (reach_Set _ _ New "z"%string (Int 1)); [constructor|reflexivity]. }
  split; [exact H|]. exact (reachable_keys_within_values o2 H).
Defined.

(** * From a text to a container and back *)

Lemma UnmarshalJSON_clean b m o :
  compact b = lexemes (JObject m) → dup_free (JObject m) →
  overflows (JObject m) = false → depth (JObject m) ≤ maxNestingDepth →
  UnmarshalJSON b o =
    Ret ({| keys := m.*1;
            values := Some (insert_all (default ∅ (values o))
                              ((λ kv, (kv.1, promote kv.2)) <$> m)) |}, None).
Proof.
  intros Hb Hfree Hover Hd. apply UnmarshalJSON_object; [done| |done].
  by apply first_fault_None.
Qed.

Lemma decoded_overflows j : decoded j → overflows j = false.
Proof.
  induction j as [| | | | |l IH|m IH] using json_nested_ind;
    inversion_clear 1 as [| | | |? Hl|? Hm]; try done.
  - cbn [overflows]. apply existsb_false. rewrite Forall_forall in *.
    intros v Hv. by apply (IH v Hv), Hl.
  - cbn [overflows]. apply existsb_false. rewrite Forall_forall in *.
    intros kv Hkv. by apply (IH kv Hkv), (Hm kv Hkv).
Qed.

Lemma doc_of_promote j : dup_free j → decoded j → doc_of (promote j) = j.
Proof.
  induction j as [| | | | |l IH|m IH] using json_nested_ind;
    inversion_clear 1 as [| | | | |? Hl|? Hnd Hm];
    inversion_clear 1 as [| | |? Hs|? Hdl|? Hdm]; try done.
  - cbn. by rewrite Hs.
  - cbn [promote doc_of]. f_equal. rewrite <- list_fmap_compose.
    rewrite <- (list_fmap_id l) at 2. apply Forall_fmap_ext_1.
    rewrite Forall_forall in *. intros v Hv. by apply (IH v Hv); [apply Hl|apply Hdl].
  - cbn [promote doc_of]. f_equal. rewrite <- list_fmap_compose.
    transitivity (id <$> m); [|apply list_fmap_id]. apply list_fmap_ext.
    intros i [k v] Hi. cbn. rewrite lookup_fmap.
    rewrite (lookup_insert_all_NoDup _ ∅ k (promote v)).
    + cbn. rewrite Forall_lookup in IH, Hm, Hdm.
      destruct (Hdm i (k, v) Hi) as [Hk Hv]. cbn in Hk. rewrite Hk. f_equal.
      by apply (IH i (k, v) Hi); [apply (Hm i (k, v) Hi)|].
    + by rewrite fst_tagged.
    + apply list_elem_of_fmap. exists (k, v). split; [done|].
      by eapply list_elem_of_lookup_2.
Qed.

Lemma exact_promote j : decoded j → exact (promote j).
Proof.
  induction j as [| | | | |l IH|m IH] using json_nested_ind;
    inversion_clear 1 as [| | |? Hs|? Hdl|? Hdm]; try by constructor.
  - cbn [promote]. constructor. apply Forall_fmap. rewrite Forall_forall in *.
    intros v Hv. by apply (IH v Hv), Hdl.
  - cbn [promote]. constructor.
    + apply Forall_fmap. eapply Forall_impl; [done|]. by intros kv [? _].
    + intros k x [Hin|Hin]%lookup_insert_all_Some; [|by rewrite lookup_empty in Hin].
      apply list_elem_of_fmap in Hin as ([k' v] & [= -> ->] & Hin).
      rewrite Forall_forall in IH, Hdm. by apply (IH _ Hin), (Hdm _ Hin).
Qed.

(** The encoder writes what the decoder read. *)
Lemma marshal_promote j :
  dup_free j → decoded j → depth j ≤ maxNestingDepth →
  marshal (promote j) = inl (lexemes j).
Proof.
  intros Hfree Hdec Hd. rewrite <- (doc_of_promote j Hfree Hdec) at 2.
  apply marshal_encodable, exact_encodable; [by apply exact_promote|].
  by rewrite doc_of_promote.
Qed.

(** The entries [MarshalJSON] reads are those of the keys. *)
Lemma MarshalJSON_agree o1 o2 :
  keys o1 = keys o2 → (∀ k, k ∈ keys o1 → Get k o1 = Get k o2) →
  MarshalJSON o1 = MarshalJSON o2.
Proof.
  intros Hks H. unfold MarshalJSON. rewrite <- Hks.
  apply MarshalJSON_buf_ext. intros k Hk.
  change (marshal (Get k o1) = marshal (Get k o2)). by rewrite (H k Hk).
Qed.

Lemma json_Marshal_agree o1 o2 :
  keys o1 = keys o2 → (∀ k, k ∈ keys o1 → Get k o1 = Get k o2) →
  json_Marshal o1 = json_Marshal o2.
Proof.
  intros Hks H. unfold json_Marshal.
  by rewrite !marshal_OrderedMapV, (MarshalJSON_agree o1 o2).
Qed.

(** X7.  Text, container, text.  For the text of an object without
    repeated keys, nested no deeper than the library allows, whose strings
    and numbers are ones the decoder returns (valid UTF-8, finite):
    [UnmarshalJSON] into any container succeeds, and [json.Marshal] of the
    result writes the lexemes of the text, white space removed: the same
    nesting, the same keys in the same order and literals for the same
    strings and numbers; [MarshalJSON] itself writes them up to white
    space.  How a literal is spelled is the library's choice and not part
    of this statement. *)
Theorem Unmarshal_Marshal_round_trip (b : list lexeme) (m : list (string * json))
    (o : OrderedMap) :
  compact b = lexemes (JObject m) → dup_free (JObject m) → decoded (JObject m) →
  depth (JObject m) ≤ maxNestingDepth →
  ∃ o' b', UnmarshalJSON b o = Ret (o', None) ∧
           json_Marshal o' = inl (compact b) ∧
           MarshalJSON o' = inl b' ∧ compact b' = compact b.
Proof.
  intros Hb Hfree Hdec Hd.
  rewrite (UnmarshalJSON_clean b m o Hb Hfree (decoded_overflows _ Hdec) Hd).
  set (o' := {| keys := m.*1; values := Some (insert_all (default ∅ (values o)) _) |}).
  set (o0 := {| keys := m.*1;
                values := Some (insert_all ∅ ((λ kv, (kv.1, promote kv.2)) <$> m)) |}).
  assert (Hagree : ∀ k, k ∈ keys o' → Get k o' = Get k o0).
  { intros k Hk. cbn [keys] in Hk.
    inversion_clear Hfree as [| | | | | |? Hnd _].
    apply list_elem_of_fmap in Hk as ([k' v] & -> & Hin). cbn.
    rewrite !Get_lookup. cbn.
    rewrite !(lookup_insert_all_NoDup _ _ k' (promote v)); try done;
      try (by rewrite fst_tagged);
      apply list_elem_of_fmap; by exists (k', v). }
  assert (Hm : json_Marshal o' = inl (lexemes (JObject m))).
  { rewrite (json_Marshal_agree o' o0 eq_refl Hagree).
    apply (marshal_promote (JObject m) Hfree Hdec Hd). }
  apply json_Marshal_inl in Hm as (b' & Hb' & Hc & _).
  exists o', b'. split; [done|]. rewrite Hb, Hc. split; [|done].
  apply json_Marshal_inl. exists b'. split; [done|]. split; [done|].
  assert (Hj : doc_of (OrderedMapV o') = JObject m).
  { rewrite (doc_of_OrderedMapV o').
    rewrite <- (doc_of_promote (JObject m) Hfree Hdec).
    change (promote (JObject m)) with (OrderedMapV o0).
    rewrite (doc_of_OrderedMapV o0). f_equal. apply list_fmap_ext.
    intros i k Hi. by rewrite Hagree by (by eapply list_elem_of_lookup_2). }
  by rewrite Hj.
Qed.

Lemma Unmarshal_Marshal_round_trip_witness :
  let m := [("b"%string, JNumber (float64_of_int 1));
            ("a"%string, JArray [JObject [("y"%string, JNull)]; JBool true])] in
  let b := [LDelim LBrace; LSpace SP; LString "b"; LColon;
            LNumber (float64_of_int 1); LComma;
            LSpace LF; LString "a"; LColon; LDelim LBracket; LDelim LBrace;
            LString "y"; LColon; LNull; LDelim RBrace; LComma; LBool true;
            LDelim RBracket; LDelim RBrace] in
  let o := {| keys := ["z"%string]; values := Some (<["z"%string:=Int 1]> ∅) |} in
  compact b = lexemes (JObject m) ∧ dup_free (JObject m) ∧ decoded (JObject m) ∧
  depth (JObject m) ≤ maxNestingDepth ∧
  ∃ o' b', UnmarshalJSON b o = Ret (o', None) ∧
           json_Marshal o' = inl (compact b) ∧
           MarshalJSON o' = inl b' ∧ compact b' = compact b.
Proof.
  intros m b o.
  assert (Hfree : dup_free (JObject m)) by (by apply first_fault_None).
  assert (Hdec : decoded (JObject m)).
  { repeat (constructor; try done; try (split; [reflexivity|])). }
  assert (Hd : depth (JObject m) ≤ maxNestingDepth) by (by vm_compute).
  split; [reflexivity|]. split; [exact Hfree|]. split; [exact Hdec|].
  split; [exact Hd|].
  exact (Unmarshal_Marshal_round_trip b m o eq_refl Hfree Hdec Hd).
Defined.

(** * Calling UnmarshalJSON again *)

Lemma insert_all_twice (g : gmap string any) l :
  NoDup (l.*1) → insert_all (insert_all g l) l = insert_all g l.
Proof.
  intros Hnd. apply map_eq. intros k.
  destruct (decide (k ∈ l.*1)) as [Hk|Hk].
  - apply list_elem_of_fmap in Hk as ([k' v] & -> & Hin). cbn.
    by rewrite !(lookup_insert_all_NoDup l _ k' v).
  - by rewrite !lookup_insert_all_notin.
Qed.

(** X8.  A successful [UnmarshalJSON] called again with the same text on its
    own result changes nothing; and what a successful call leaves depends on
    the container it is called on only through the entries of its values map
    for keys that the text does not have: the keys it had are forgotten. *)
Theorem UnmarshalJSON_again (b : list lexeme) (o o1 : OrderedMap) :
  UnmarshalJSON b o = Ret (o1, None) →
  UnmarshalJSON b o1 = Ret (o1, None) ∧
  ∀ ks, UnmarshalJSON b {| keys := ks; values := values o |} = Ret (o1, None).
Proof.
  intros H. apply UnmarshalJSON_outcome in H
    as [[e [= _ ?]]|[[e [= _ ?]]|[[_ [= _ ?]]
       |(m & Hb & Hfree & Hover & Hd & [= ->])]]]; try done.
  split.
  - rewrite (UnmarshalJSON_clean b m _ Hb Hfree Hover Hd).
    cbn [values default from_option].
    do 4 f_equal. apply insert_all_twice. rewrite fst_tagged.
    by inversion_clear Hfree.
  - intros ks. by rewrite (UnmarshalJSON_clean b m _ Hb Hfree Hover Hd).
Qed.

Lemma UnmarshalJSON_again_witness :
  let b := [LDelim LBrace; LString "b"; LColon; LNumber (float64_of_int 1); LComma;
            LString "a"; LColon; LNull; LDelim RBrace] in
  let o := {| keys := ["z"%string]; values := Some (<["z"%string:=Int 1]> ∅) |} in
  ∃ o1, UnmarshalJSON b o = Ret (o1, None) ∧
        UnmarshalJSON b o1 = Ret (o1, None) ∧
        ∀ ks, UnmarshalJSON b {| keys := ks; values := values o |} = Ret (o1, None).
Proof.
  intros b o. eexists. split; [reflexivity|].
  exact (UnmarshalJSON_again b o _ eq_refl).
Defined.

(** * Which texts UnmarshalJSON accepts *)

Lemma UnmarshalJSON_empty b o :
  compact b = [] → UnmarshalJSON b o = Ret (o, Some io_EOF).
Proof.
  intros Hb. unfold UnmarshalJSON, CheckDuplicate, NewDecoder. cbn [buf].
  by rewrite Hb.
Qed.

Lemma Get_default_values o k :
  Get k {| keys := keys o; values := Some (default ∅ (values o)) |} = Get k o.
Proof. rewrite !Get_lookup. cbn. by destruct (values o). Qed.

(** X9.  [UnmarshalJSON] returns nil exactly on the valid texts whose value
    is an object, in which no object has a repeated key and no number is
    too large for a [float64], and which nest no deeper than the library
    allows.  On an input with nothing but white space it returns [io.EOF]
    and leaves the container alone.  On a valid text without repeated keys
    and without a number too large, it returns the library's type error
    when the value is a scalar or an array nested no deeper than allowed,
    and the library's syntax error when the text nests deeper than allowed,
    [Keys()] and every [Get] staying what they were. *)
Theorem UnmarshalJSON_verdict (b : list lexeme) (o : OrderedMap) :
  ((∃ o', UnmarshalJSON b o = Ret (o', None)) ↔
   (∃ m, parse b = Some (JObject m) ∧ dup_free (JObject m) ∧
         overflows (JObject m) = false ∧ depth (JObject m) ≤ maxNestingDepth)) ∧
  (compact b = [] → UnmarshalJSON b o = Ret (o, Some io_EOF)) ∧
  (∀ j, parse b = Some j → dup_free j → overflows j = false →
        depth j ≤ maxNestingDepth → j ≠ JNull → (∀ m, j ≠ JObject m) →
        ∃ o', UnmarshalJSON b o = Ret (o', Some UnmarshalTypeError) ∧
              Keys o' = Keys o ∧ ∀ k, Get k o' = Get k o) ∧
  (∀ j, parse b = Some j → dup_free j → overflows j = false →
        maxNestingDepth < depth j →
        ∃ o', UnmarshalJSON b o = Ret (o', Some SyntaxError) ∧
              Keys o' = Keys o ∧ ∀ k, Get k o' = Get k o).
Proof.
  split; [split|split; [|split]].
  - intros [o' H]. apply UnmarshalJSON_outcome in H
      as [[e [= _ ?]]|[[e [= _ ?]]|[[_ [= _ ?]]|(m & Hb & Hfree & Hover & Hd & _)]]];
      try done.
    exists m. split; [by apply parse_complete | done].
  - intros (m & Hp%parse_sound & Hfree & Hover & Hd).
    rewrite (UnmarshalJSON_clean b m o Hp Hfree Hover Hd). eauto.
  - apply UnmarshalJSON_empty.
  - intros j Hp%parse_sound Hfree Hover Hd Hnull Hobj.
    rewrite (UnmarshalJSON_other b j o Hp) by (by try apply first_fault_None).
    eexists. split; [done|]. split; [done|]. apply Get_default_values.
  - intros j Hp%parse_sound Hfree Hover Hd.
    rewrite (UnmarshalJSON_deep b j o Hp) by (by try apply first_fault_None).
    eexists. split; [done|]. split; [done|]. apply Get_default_values.
Qed.

(** * A nil values map *)

(** X10.  A container whose values map is nil, as the zero value
    [OrderedMap{}] and every container after [UnmarshalJSON] of the text
    [null], reads as if it had no entries, and [Delete] does nothing on it,
    but [Set] panics; an [UnmarshalJSON] that succeeds on [New()] succeeds
    on it as well, makes the map and leaves what it leaves on [New()]. *)
Theorem Set_panics_on_nil_map (o : OrderedMap) :
  values o = None →
  (∀ k v, Set_ k v o = Panics NilMapAssign) ∧
  (∀ k, Get k o = Nil) ∧
  (∀ k, Delete k o = o) ∧
  (∀ b o', UnmarshalJSON b New = Ret (o', None) →
           UnmarshalJSON b o = Ret (o', None)) ∧
  (∀ b o0 k v, compact b = [LNull] →
     ∃ o', UnmarshalJSON b o0 = Ret (o', Some io_EOF) ∧
           Set_ k v o' = Panics NilMapAssign).
Proof.
  intros Hnil. repeat split.
  - intros k v. unfold Set_, map_index, map_assign. by rewrite Hnil.
  - intros k. rewrite Get_lookup. by rewrite Hnil.
  - intros k. apply Delete_absent. rewrite Hnil. set_solver.
  - intros b o' H. apply UnmarshalJSON_outcome in H
      as [[e [= _ ?]]|[[e [= _ ?]]|[[_ [= _ ?]]
         |(m & Hb & Hfree & Hover & Hd & [= ->])]]]; try done.
    rewrite (UnmarshalJSON_clean b m o Hb Hfree Hover Hd). by rewrite Hnil.
  - intros b o0 k v Hb. rewrite (UnmarshalJSON_null b o0 Hb). eauto.
Qed.

Lemma Set_panics_on_nil_map_witness :
  let o := {| keys := ["z"%string]; values := None |} in
  let b := [LDelim LBrace; LString "a"; LColon; LNull; LDelim RBrace] in
  Set_ "a" Nil o = Panics NilMapAssign ∧
  ∃ o', UnmarshalJSON b New = Ret (o', None) ∧ UnmarshalJSON b o = Ret (o', None).
Proof.
  intros o b.
  destruct (Set_panics_on_nil_map o eq_refl) as (Hset & _ & _ & Hrun & _).
  split; [apply Hset|]. eexists. split; [reflexivity|]. by apply Hrun.
Defined.

(** * A text with more than one value *)

Lemma parse_trailing b j rest :
  compact b = lexemes j ++ rest → rest ≠ [] → parse b = None.
Proof.
  intros Hb Hrest. unfold parse. rewrite Hb.
  rewrite (proj1 (parse_complete_fuel _)) by lia.
  by destruct rest.
Qed.

Lemma CheckDuplicate_first_value b j rest :
  compact b = lexemes j ++ rest →
  scan_outcome (CheckDuplicate (NewDecoder b)) (first_fault j)
    (mkDecoder rest tokenTopValue []).
Proof.
  intros Hb. unfold CheckDuplicate, NewDecoder. cbn [buf]. rewrite Hb.
  apply (CheckDuplicate_document j _ tokenTopValue [] rest eq_refl).
  cbn [pending app]. lia.
Qed.

(** X11.  [CheckDuplicate] reads one value off the decoder.  For a text that
    starts with a document, whatever follows it and whatever white space it
    holds: when the document has no repeated key and no number too large
    for a [float64], the scan returns nil and leaves the decoder at what
    follows, unread; otherwise it returns the error of what it meets first
    in the document.  [UnmarshalJSON], which scans its input once, therefore
    never scans what follows the first value: when something does, the
    library refuses the text as a syntax error, and [Keys()] and every [Get]
    stay what they were. *)
Theorem CheckDuplicate_reads_one_value (b : list lexeme) (j : json)
    (rest : list lexeme) :
  compact b = lexemes j ++ rest →
  (dup_free j → overflows j = false →
     CheckDuplicate (NewDecoder b) = Ret (mkDecoder rest tokenTopValue [], None)) ∧
  (∀ e, first_fault j = Some e →
     ∃ d, CheckDuplicate (NewDecoder b) = Ret (d, Some e)) ∧
  (dup_free j → overflows j = false → rest ≠ [] → ∀ o,
     ∃ o', UnmarshalJSON b o = Ret (o', Some SyntaxError) ∧
           Keys o' = Keys o ∧ ∀ k, Get k o' = Get k o).
Proof.
  intros Hb. pose proof (CheckDuplicate_first_value b j rest Hb) as H.
  split; [|split].
  - intros Hfree Hover.
    rewrite (proj2 (first_fault_None j) (conj Hfree Hover)) in H. done.
  - intros e He. by rewrite He in H.
  - intros Hfree Hover Hrest o.
    rewrite (proj2 (first_fault_None j) (conj Hfree Hover)) in H.
    unfold scan_outcome in H.
    unfold UnmarshalJSON. rewrite H. unfold json_Unmarshal.
    rewrite (parse_trailing b j rest Hb Hrest).
    destruct (values o) as [g|] eqn:Eg; cbn [values keys]; rewrite ?Eg;
      eexists; (split; [done|]); (split; [done|]);
      intros k; rewrite !Get_lookup; cbn; by rewrite ?Eg.
Qed.

Lemma CheckDuplicate_reads_one_value_witness :
  let j := JObject [("a"%string, JNull)] in
  let rest := [LDelim LBracket; LDelim RBracket] in
  let b := [LSpace SP; LDelim LBrace; LString "a"; LSpace SP; LColon; LNull;
            LDelim RBrace; LSpace LF; LDelim LBracket; LDelim RBracket] in
  let o := {| keys := ["z"%string]; values := Some (<["z"%string:=Nil]> ∅) |} in
  compact b = lexemes j ++ rest ∧
  CheckDuplicate (NewDecoder b) = Ret (mkDecoder rest tokenTopValue [], None) ∧
  ∃ o', UnmarshalJSON b o = Ret (o', Some SyntaxError) ∧
        Keys o' = Keys o ∧ ∀ k, Get k o' = Get k o.
Proof.
  intros j rest b o.
  assert (Hfree : dup_free j) by (by apply first_fault_None).
  destruct (CheckDuplicate_reads_one_value b j rest eq_refl) as (Hscan & _ & Hrun).
  split; [reflexivity|]. split; [exact (Hscan Hfree eq_refl)|].
  apply (Hrun Hfree eq_refl). discriminate.
Defined.

(** * Set and Delete one after the other *)

Lemma keys_within_values_absent o g k :
  keys_within_values o → values o = Some g → g !! k = None → k ∉ keys o.
Proof.
  intros [_ Hsub] Hg Hk Hin. rewrite Hg in Hsub. cbn in Hsub.
  apply not_elem_of_dom in Hk. apply Hk, Hsub. by apply elem_of_list_to_set.
Qed.

Lemma index_of_snoc key ks :
  key ∉ ks → index_of key (ks ++ [key]) = Some (length ks).
Proof.
  induction ks as [|k ks IH]; intros Hk; cbn.
  - by rewrite decide_True.
  - apply not_elem_of_cons in Hk as [Hne Hk].
    rewrite decide_False by done. by rewrite IH.
Qed.

(** X12.  On a container in which every key of [Keys()] appears once and
    has an entry: [Delete] undoes a [Set] that added a key; [Set] after
    [Delete] of a present key leaves the key last in [Keys()], whatever its
    position was; of two [Set] calls on one key only the second value
    shows, the position being that of the first; and a second [Delete] of a
    key does nothing. *)
Theorem Set_Delete_compose (o : OrderedMap) (g : gmap string any)
    (k : string) (v : any) :
  keys_within_values o → values o = Some g →
  (g !! k = None → ∃ o', Set_ k v o = Ret o' ∧ Delete k o' = o) ∧
  (is_Some (g !! k) →
     Set_ k v (Delete k o) =
       Ret {| keys := filter (λ k', k' ≠ k) (keys o) ++ [k];
              values := Some (<[k:=v]> g) |}) ∧
  (∀ v', ∃ o', Set_ k v o = Ret o' ∧ Set_ k v' o' = Set_ k v' o) ∧
  Delete k (Delete k o) = Delete k o.
Proof.
  intros Hinv Hg. split; [|split; [|split]].
  - intros Hk. rewrite (Set_absent o k v g Hg Hk). eexists. split; [done|].
    pose proof (keys_within_values_absent o g k Hinv Hg Hk) as Hout.
    rewrite Delete_present by (cbn; apply elem_of_dom; rewrite lookup_insert_eq; eauto).
    cbn [keys values map_delete fmap option_fmap option_map].
    rewrite (index_of_snoc _ _ Hout).
    rewrite take_app_length, drop_ge by (rewrite length_app; cbn; lia).
    rewrite app_nil_r, delete_insert_eq, (delete_id g k Hk).
    destruct o as [ks vs]. cbn in *. by subst.
  - intros Hk. destruct Hinv as [Hnd _].
    assert (Hin : k ∈ map_keys (values o)) by (rewrite Hg; by apply elem_of_dom).
    pose proof (Delete_keys_filter o k Hnd Hin) as Hks.
    pose proof (Delete_present o k Hin) as Hd.
    rewrite (Set_absent (Delete k o) k v (delete k g)).
    + by rewrite Hks, insert_delete_eq.
    + rewrite Hd. cbn. by rewrite Hg.
    + apply lookup_delete_eq.
  - intros v'. unfold Set_, map_index, map_assign. rewrite Hg. cbn.
    destruct (g !! k) as [x|] eqn:Ek; cbn.
    + eexists. split; [done|]. cbn. by rewrite lookup_insert_eq, insert_insert_eq.
    + eexists. split; [done|]. cbn. by rewrite lookup_insert_eq, insert_insert_eq.
  - apply Delete_absent.
    destruct (decide (k ∈ map_keys (values o))) as [Hin|Hout];
      [|by rewrite Delete_absent].
    rewrite (Delete_present o k Hin), Hg. cbn. rewrite dom_delete_L. set_solver.
Qed.

Lemma Set_Delete_compose_witness :
  let o := {| keys := ["b"; "a"]%string;
              values := Some (<["a"%string:=Int 2]> (<["b"%string:=Int 1]> ∅)) |} in
  let g := <["a"%string:=Int 2]> (<["b"%string:=Int 1]> (∅ : gmap string any)) in
  keys_within_values o ∧ values o = Some g ∧
  (g !! "b"%string = None → ∃ o', Set_ "b" Nil o = Ret o' ∧ Delete "b" o' = o) ∧
  (is_Some (g !! "b"%string) →
     Set_ "b" Nil (Delete "b" o) =
       Ret {| keys := filter (λ k', k' ≠ "b"%string) (keys o) ++ ["b"%string];
              values := Some (<["b"%string:=Nil]> g) |}) ∧
  (∀ v', ∃ o', Set_ "b" Nil o = Ret o' ∧ Set_ "b" v' o' = Set_ "b" v' o) ∧
  Delete "b" (Delete "b" o) = Delete "b" o.
Proof.
  intros o g.
  assert (Hinv : keys_within_values o).
  { split; [compute_done|]. cbn. rewrite !dom_insert_L. set_solver. }
  split; [exact Hinv|]. split; [reflexivity|].
  exact (Set_Delete_compose o g "b" Nil Hinv eq_refl).
Defined.

(** * Values *)

Lemma Values_lookup o i :
  Values o !! i = (λ k, Get k o) <$> (keys o !! i).
Proof. unfold Values. by rewrite list_lookup_fmap. Qed.

(** X13.  [Values()] follows [Keys()]: it has [Len()] entries, and the one
    at a position is what [GetValueAt] returns there.  On a container in
    which every key of [Keys()] appears once and has an entry, [Set] of a key
    without an entry appends its value to [Values()], [Set] of a key of
    [Keys()] replaces the value at the position of the key, and [Delete] of
    a key of [Keys()] takes the value at its position out. *)
Theorem Values_follow_Keys (o : OrderedMap) (g : gmap string any) :
  keys_within_values o → values o = Some g →
  Z.of_nat (length (Values o)) = Len o ∧
  (∀ pos v, GetValueAt pos o = Ret v ↔ 0 ≤ pos ∧ Values o !! Z.to_nat pos = Some v) ∧
  (∀ k v, g !! k = None →
     ∃ o', Set_ k v o = Ret o' ∧ Values o' = Values o ++ [v]) ∧
  (∀ k v i, keys o !! i = Some k →
     ∃ o', Set_ k v o = Ret o' ∧ Values o' = <[i:=v]> (Values o)) ∧
  (∀ k i, keys o !! i = Some k → Values (Delete k o) = delete i (Values o)).
Proof.
  intros Hinv Hg.
  assert (Hentry : ∀ k i, keys o !! i = Some k → is_Some (g !! k)).
  { intros k i Hi. destruct Hinv as [_ Hsub]. rewrite Hg in Hsub. cbn in Hsub.
    apply elem_of_dom, Hsub, elem_of_list_to_set. by eapply list_elem_of_lookup_2. }
  split; [|split; [|split; [|split]]].
  - unfold Values, Len. by rewrite length_fmap.
  - intros pos v. unfold GetValueAt. rewrite Values_lookup.
    destruct (slice_index (keys o) pos) as [k| |] eqn:E.
    + apply slice_index_Ret in E as [Hpos ->]. cbn. unfold Get. naive_solver.
    + split; [done|]. intros [Hpos H].
      destruct (keys o !! Z.to_nat pos) as [k|] eqn:Ek; [|done].
      assert (slice_index (keys o) pos = Ret k) by (by apply slice_index_Ret).
      congruence.
    + split; [done|]. intros [Hpos H].
      destruct (keys o !! Z.to_nat pos) as [k|] eqn:Ek; [|done].
      assert (slice_index (keys o) pos = Ret k) by (by apply slice_index_Ret).
      congruence.
  - intros k v Hk. rewrite (Set_absent o k v g Hg Hk). eexists. split; [done|].
    pose proof (keys_within_values_absent o g k Hinv Hg Hk) as Hout.
    unfold Values. cbn [keys values]. rewrite fmap_app. f_equal.
    + rewrite Hg. apply list_fmap_ext. intros i k' Hi. unfold map_index. cbn.
      rewrite lookup_insert_ne; [done|]. intros ->. apply Hout.
      by eapply list_elem_of_lookup_2.
    + cbn. unfold map_index. cbn. by rewrite lookup_insert_eq.
  - intros k v i Hi. destruct (Hentry k i Hi) as [x Hx].
    destruct (Set_present o k v x) as (g' & Hg' & ->); [by rewrite Hg|].
    rewrite Hg in Hg'. injection Hg' as <-. eexists. split; [done|].
    apply list_eq. intros j. rewrite Values_lookup. cbn [keys].
    destruct (decide (i = j)) as [<-|Hne].
    + rewrite list_lookup_insert_eq
        by (unfold Values; rewrite length_fmap; by eapply lookup_lt_Some).
      rewrite Hi. cbn. rewrite Get_lookup. cbn. by rewrite lookup_insert_eq.
    + rewrite list_lookup_insert_ne by done. rewrite Values_lookup.
      destruct (keys o !! j) as [k'|] eqn:Ej; [|done]. cbn. f_equal.
      rewrite !Get_lookup, Hg. cbn. rewrite lookup_insert_ne; [done|].
      intros <-. destruct Hinv as [Hnd _].
      by pose proof (NoDup_lookup_inj _ _ _ _ Hnd Hi Ej).
  - intros k i Hi. destruct Hinv as [Hnd _].
    assert (Hin : k ∈ map_keys (values o))
      by (rewrite Hg; apply elem_of_dom; by eapply Hentry).
    rewrite (Delete_present o k Hin).
    destruct (index_of k (keys o)) as [i'|] eqn:Ei.
    2: { apply index_of_None in Ei. destruct Ei. by eapply list_elem_of_lookup_2. }
    apply index_of_Some in Ei as [Hi' _].
    pose proof (NoDup_lookup_inj _ _ _ _ Hnd Hi Hi') as <-.
    unfold Values at 2. rewrite <- list_fmap_delete, delete_take_drop.
    rewrite Hg. cbn [map_delete fmap option_fmap option_map].
    unfold Values. cbn [keys values]. apply list_fmap_ext. intros j k' Hj.
    unfold map_index. cbn. rewrite lookup_delete_ne; [done|].
    intros <-. eapply (cut_not_elem k (keys o) i); [done..|].
    by eapply list_elem_of_lookup_2.
Qed.

Lemma Values_follow_Keys_witness :
  let o := {| keys := ["b"; "a"]%string;
              values := Some (<["a"%string:=Int 2]> (<["b"%string:=Int 1]> ∅)) |} in
  let g := <["a"%string:=Int 2]> (<["b"%string:=Int 1]> (∅ : gmap string any)) in
  keys_within_values o ∧ values o = Some g ∧
  Z.of_nat (length (Values o)) = Len o ∧
  (∀ pos v, GetValueAt pos o = Ret v ↔ 0 ≤ pos ∧ Values o !! Z.to_nat pos = Some v) ∧
  (∀ k v, g !! k = None →
     ∃ o', Set_ k v o = Ret o' ∧ Values o' = Values o ++ [v]) ∧
  (∀ k v i, keys o !! i = Some k →
     ∃ o', Set_ k v o = Ret o' ∧ Values o' = <[i:=v]> (Values o)) ∧
  (∀ k i, keys o !! i = Some k → Values (Delete k o) = delete i (Values o)).
Proof.
  intros o g.
  assert (Hinv : keys_within_values o).
  { split; [compute_done|]. cbn. rewrite !dom_insert_L. set_solver. }
  split; [exact Hinv|]. split; [reflexivity|].
  exact (Values_follow_Keys o g Hinv eq_refl).
Defined.

(** * Len *)

Lemma keys_match_values_size o g :
  keys_match_values o → values o = Some g → length (keys o) = size g.
Proof.
  intros [Hnd Hset] Hg. rewrite Hg in Hset. cbn in Hset.
  rewrite <- size_dom, <- Hset. symmetry. by apply size_list_to_set.
Qed.

(** X14.  On a container whose keys are those of its values map, each
    once, [Len()] is the number of entries of [KeysValues()]; [Set] adds one
    to it for a key without an entry and leaves it for any other; [Delete]
    takes one off for a key with an entry and leaves it for any other. *)
Theorem Len_counts_entries (o : OrderedMap) (g : gmap string any) :
  keys_match_values o → KeysValues o = Some g →
  Len o = Z.of_nat (size g) ∧
  (∀ k v, ∃ o', Set_ k v o = Ret o' ∧
                Len o' = match g !! k with Some _ => Len o | None => Len o + 1 end) ∧
  (∀ k, Len (Delete k o) = match g !! k with Some _ => Len o - 1 | None => Len o end).
Proof.
  unfold KeysValues. intros Hinv Hg.
  pose proof (keys_match_values_size o g Hinv Hg) as Hlen.
  split; [|split].
  - unfold Len. by rewrite Hlen.
  - intros k v. unfold Set_, map_index, map_assign. rewrite Hg. cbn.
    destruct (g !! k) as [x|]; cbn; eexists; (split; [done|]); unfold Len; cbn.
    + done.
    + rewrite length_app. cbn. lia.
  - intros k. pose proof (keys_match_values_Delete o k Hinv) as Hinv'.
    destruct (g !! k) as [x|] eqn:Ek.
    + assert (Hin : k ∈ map_keys (values o)) by (rewrite Hg; by apply elem_of_dom).
      pose proof (Delete_present o k Hin) as Hd.
      unfold Len. rewrite Hlen.
      rewrite (keys_match_values_size (Delete k o) (delete k g) Hinv')
        by (rewrite Hd; cbn; by rewrite Hg).
      rewrite (map_size_delete_Some k g) by eauto.
      assert (size g ≠ 0%nat); [|lia].
      intros H0%map_size_empty_inv. by rewrite H0, lookup_empty in Ek.
    + rewrite Delete_absent; [done|]. rewrite Hg. by apply not_elem_of_dom.
Qed.

Lemma Len_counts_entries_witness :
  let o := {| keys := ["b"; "a"]%string;
              values := Some (<["a"%string:=Int 2]> (<["b"%string:=Int 1]> ∅)) |} in
  let g := <["a"%string:=Int 2]> (<["b"%string:=Int 1]> (∅ : gmap string any)) in
  keys_match_values o ∧ KeysValues o = Some g ∧
  Len o = Z.of_nat (size g) ∧
  (∀ k v, ∃ o', Set_ k v o = Ret o' ∧
                Len o' = match g !! k with Some _ => Len o | None => Len o + 1 end) ∧
  (∀ k, Len (Delete k o) = match g !! k with Some _ => Len o - 1 | None => Len o end).
Proof.
  intros o g.
  assert (Hinv : keys_match_values o).
  { split; [compute_done|]. cbn. rewrite !dom_insert_L. set_solver. }
  split; [exact Hinv|]. split; [reflexivity|].
  exact (Len_counts_entries o g Hinv eq_refl).
Defined.

(** * Any sequence of Set calls *)

Lemma Set_all_from kvs : ∀ o g,
  values o = Some g →
  ∃ o', Set_all kvs o = Ret o' ∧
        keys o' = keys o ++ first_occurrences (dom g) (kvs.*1) ∧
        values o' = Some (insert_all g kvs).
Proof.
  induction kvs as [|[k v] kvs IH]; intros o g Hg.
  - exists o. by rewrite app_nil_r.
  - cbn [Set_all fst snd fmap list_fmap first_occurrences].
    rewrite insert_all_cons. cbn [fst snd].
    destruct (g !! k) as [x|] eqn:Ek.
    + destruct (Set_present o k v x) as (g' & Hg' & ->); [by rewrite Hg|].
      rewrite Hg in Hg'. injection Hg' as <-.
      rewrite decide_True by (by apply elem_of_dom).
      destruct (IH {| keys := keys o; values := Some (<[k:=v]> g) |} _ eq_refl)
        as (o' & -> & Hks & Hvs).
      exists o'. split; [done|]. split; [|done]. rewrite Hks. cbn [keys].
      rewrite dom_insert_L. do 2 f_equal. apply elem_of_dom_2 in Ek. set_solver.
    + rewrite (Set_absent o k v g Hg Ek).
      rewrite decide_False by (by apply not_elem_of_dom).
      destruct (IH {| keys := keys o ++ [k]; values := Some (<[k:=v]> g) |} _ eq_refl)
        as (o' & -> & Hks & Hvs).
      exists o'. split; [done|]. split; [|done]. rewrite Hks. cbn [keys].
      by rewrite dom_insert_L, <- app_assoc.
Qed.

(** X15.  Any sequence of [Set] calls on a container whose values map is
    not nil returns.  [Keys()] is then the old one followed by the keys set
    that had no entry, each at the place of its first [Set]; [Get] of a key
    is the value of the last [Set] for it, and what it was for a key not
    set. *)
Theorem Set_all_first_position_last_value (kvs : list (string * any))
    (o : OrderedMap) (g : gmap string any) :
  values o = Some g →
  ∃ o', Set_all kvs o = Ret o' ∧
        Keys o' = Keys o ++ first_occurrences (dom g) (kvs.*1) ∧
        (∀ i k v, kvs !! i = Some (k, v) →
                  (∀ j v', (i < j)%nat → kvs !! j ≠ Some (k, v')) → Get k o' = v) ∧
        (∀ k, k ∉ kvs.*1 → Get k o' = Get k o).
Proof.
  intros Hg. destruct (Set_all_from kvs o g Hg) as (o' & Hrun & Hks & Hvs).
  exists o'. split; [done|]. split; [done|]. split.
  - intros i k v Hi Hlast. rewrite Get_lookup, Hvs. cbn.
    rewrite <- (take_drop_middle kvs i (k, v) Hi).
    unfold insert_all. rewrite foldl_app. cbn [foldl].
    fold (insert_all (<[k:=v]> (insert_all g (take i kvs))) (drop (S i) kvs)).
    rewrite lookup_insert_all_notin; [by rewrite lookup_insert_eq|].
    intros ([k' v'] & -> & [j Hj]%list_elem_of_lookup)%list_elem_of_fmap.
    rewrite lookup_drop in Hj. cbn in Hlast. by apply (Hlast (S i + j)%nat v'); [lia|].
  - intros k Hk. rewrite !Get_lookup, Hvs, Hg. cbn.
    by rewrite lookup_insert_all_notin.
Qed.

Lemma Set_all_first_position_last_value_witness :
  let kvs := [("b"%string, Int 1); ("a"%string, Int 2); ("b"%string, Int 3);
              ("z"%string, Nil)] in
  let o := {| keys := ["z"%string]; values := Some (<["z"%string:=Int 1]> ∅) |} in
  let g := <["z"%string:=Int 1]> (∅ : gmap string any) in
  values o = Some g ∧
  ∃ o', Set_all kvs o = Ret o' ∧
        Keys o' = Keys o ++ first_occurrences (dom g) (kvs.*1) ∧
        (∀ i k v, kvs !! i = Some (k, v) →
                  (∀ j v', (i < j)%nat → kvs !! j ≠ Some (k, v')) → Get k o' = v) ∧
        (∀ k, k ∉ kvs.*1 → Get k o' = Get k o).
Proof.
  intros kvs o g. split; [reflexivity|].
  exact (Set_all_first_position_last_value kvs o g eq_refl).
Defined.

(** * Sort puts the keys in order *)

Section sorted.
Variable less : pair_ → pair_ → bool.
Hypothesis less_asym : ∀ a b, less a b = true → less b a = false.
Hypothesis less_negtrans :
  ∀ a b c, less a b = false → less b c = false → less a c = false.

Lemma byPair_Less_adjacent (pre post : list pair_) p x :
  byPair_Less {| Pairs := pre ++ p :: x :: post; LessFunc := less |}
    (S (length pre)) (length pre) = less x p.
Proof.
  unfold byPair_Less. cbn [Pairs LessFunc].
  rewrite (lookup_app_r pre) by lia.
  rewrite (lookup_app_r pre) by lia.
  replace (S (length pre) - length pre)%nat with 1%nat by lia.
  by rewrite Nat.sub_diag.
Qed.

Lemma byPair_Swap_adjacent (pre post : list pair_) p x :
  byPair_Swap {| Pairs := pre ++ p :: x :: post; LessFunc := less |}
    (S (length pre)) (length pre) =
  {| Pairs := pre ++ x :: p :: post; LessFunc := less |}.
Proof.
  unfold byPair_Swap. cbn [Pairs LessFunc].
  rewrite (lookup_app_r pre) by lia.
  rewrite (lookup_app_r pre) by lia.
  replace (S (length pre) - length pre)%nat with 1%nat by lia.
  rewrite Nat.sub_diag. cbn [lookup list_lookup]. f_equal.
  rewrite (insert_app_r_alt pre _ (S (length pre))) by lia.
  replace (S (length pre) - length pre)%nat with 1%nat by lia.
  rewrite insert_app_r_alt by lia. by rewrite Nat.sub_diag.
Qed.

(** The inner loop moves the pair at position [j] to the left, past the
    pairs it is less than. *)
Lemma sift_down_shape j : ∀ pre x post,
  length pre = j →
  ∃ pre1 pre2,
    pre = pre1 ++ pre2 ∧
    sift_down j {| Pairs := pre ++ x :: post; LessFunc := less |} =
      {| Pairs := pre1 ++ x :: pre2 ++ post; LessFunc := less |} ∧
    Forall (λ q, less x q = true) pre2 ∧
    (∀ p, last pre1 = Some p → less x p = false).
Proof.
  induction j as [|j IH]; intros pre x post Hlen.
  - destruct pre; [|done]. exists [], []. by repeat split.
  - destruct pre as [|p0 pre0] using rev_ind; [done|]. clear IHpre0.
    rewrite length_app in Hlen. cbn in Hlen.
    assert (Hj : length pre0 = j) by lia. subst j.
    cbn [sift_down]. rewrite <- app_assoc. cbn [app].
    rewrite byPair_Less_adjacent.
    destruct (less x p0) eqn:Hless.
    + rewrite byPair_Swap_adjacent.
      destruct (IH pre0 x (p0 :: post) eq_refl) as (pre1 & pre2 & -> & -> & Hall & Hlast).
      exists pre1, (pre2 ++ [p0]). split; [by rewrite app_assoc|].
      split; [by rewrite <- app_assoc|]. split; [|done].
      apply Forall_app. split; [done|]. by constructor.
    + exists (pre0 ++ [p0]), []. split; [by rewrite app_nil_r|].
      split; [by rewrite <- app_assoc|]. split; [done|].
      intros p. rewrite last_snoc. by intros [= <-].
Qed.

Lemma in_order_insert pre1 pre2 x :
  StronglySorted (in_order less) (pre1 ++ pre2) →
  Forall (λ q, less x q = true) pre2 →
  (∀ p, last pre1 = Some p → less x p = false) →
  StronglySorted (in_order less) (pre1 ++ x :: pre2).
Proof using All.
  intros Hs Hafter Hbefore.
  apply StronglySorted_app in Hs as (Hcross & Hs1 & Hs2).
  apply StronglySorted_app. split; [|split; [done|]].
  - intros a b Ha Hb.
    assert (Hax : in_order less a x).
    { destruct pre1 as [|p0 pre0 _] using rev_ind; [by apply elem_of_nil in Ha|].
      specialize (Hbefore p0). rewrite last_snoc in Hbefore.
      specialize (Hbefore eq_refl).
      apply elem_of_app in Ha as [Ha| ->%list_elem_of_singleton]; [|done].
      unfold in_order. apply (less_negtrans x p0 a); [done|].
      apply (StronglySorted_app_1_elem_of _ _ _ _ _ Hs1 Ha).
      apply list_elem_of_singleton. done. }
    apply elem_of_cons in Hb as [->|Hb]; [done | by apply Hcross].
  - apply StronglySorted_cons. split; [|done].
    eapply Forall_impl; [done|]. intros q Hq. by apply less_asym.
Qed.

Lemma sift_down_sorted i (l : list pair_) :
  (i < length l)%nat →
  StronglySorted (in_order less) (take i l) →
  ∃ l', sift_down i {| Pairs := l; LessFunc := less |} =
          {| Pairs := l'; LessFunc := less |} ∧
        length l' = length l ∧
        StronglySorted (in_order less) (take (S i) l').
Proof using All.
  intros Hi Hs.
  destruct (lookup_lt_is_Some_2 l i Hi) as [x Hx].
  rewrite <- (take_drop_middle l i x Hx).
  destruct (sift_down_shape i (take i l) x (drop (S i) l))
    as (pre1 & pre2 & Hpre & -> & Hafter & Hbefore); [rewrite length_take; lia|].
  eexists. split; [done|].
  assert (Hlen : length (pre1 ++ pre2) = i) by (rewrite <- Hpre, length_take; lia).
  rewrite length_app in Hlen.
  split.
  - rewrite Hpre. rewrite !length_app. cbn. rewrite !length_app. lia.
  - replace (pre1 ++ x :: pre2 ++ drop (S i) l)
      with ((pre1 ++ x :: pre2) ++ drop (S i) l)
      by (by rewrite <- app_assoc).
    rewrite take_app_length' by (rewrite length_app; cbn; lia).
    apply in_order_insert; [by rewrite <- Hpre | done | done].
Qed.

Lemma insertion_rounds m : ∀ i (l : list pair_),
  (0 < i)%nat → (i + m = length l)%nat →
  StronglySorted (in_order less) (take i l) →
  ∃ l', foldl (λ d i, sift_down i d) {| Pairs := l; LessFunc := less |} (seq i m) =
          {| Pairs := l'; LessFunc := less |} ∧
        StronglySorted (in_order less) l'.
Proof using All.
  induction m as [|m IH]; intros i l Hpos Hlen Hs.
  - exists l. split; [done|]. by rewrite take_ge in Hs by lia.
  - cbn [seq foldl].
    destruct (sift_down_sorted i l) as (l1 & -> & Hlen1 & Hs1); [lia|done|].
    apply IH; [lia | lia | done].
Qed.

Lemma sort_Sort_sorted (l : list pair_) :
  ∃ l', sort_Sort {| Pairs := l; LessFunc := less |} =
          {| Pairs := l'; LessFunc := less |} ∧
        StronglySorted (in_order less) l'.
Proof using All.
  unfold sort_Sort, byPair_Len. cbn [Pairs].
  destruct l as [|x l].
  - exists []. split; [done|]. constructor.
  - apply insertion_rounds; [lia | cbn; lia |].
    cbn. rewrite take_0. repeat constructor.
Qed.
End sorted.

Lemma StronglySorted_lookup {A} (R : relation A) (l : list A) i j x y :
  StronglySorted R l → (i < j)%nat → l !! i = Some x → l !! j = Some y → R x y.
Proof.
  intros Hs Hij Hi Hj.
  rewrite <- (take_drop j l) in Hs.
  apply (StronglySorted_app_1_elem_of _ _ _ _ _ Hs).
  - apply list_elem_of_lookup. exists i. by rewrite lookup_take_lt.
  - apply list_elem_of_lookup. exists 0%nat. by rewrite lookup_drop, Nat.add_0_r.
Qed.

(** X16.  When [lessFunc] is a strict weak ordering of the pairs (what
    [sort.Sort] asks of [Less]), [Keys()] is in order after [Sort]: of two
    keys the later one is never less than the earlier one, each key being
    compared together with the value [Get] returns for it. *)
Theorem Sort_puts_keys_in_order (lessFunc : pair_ → pair_ → bool) (o : OrderedMap) :
  (∀ a b, lessFunc a b = true → lessFunc b a = false) →
  (∀ a b c, lessFunc a b = false → lessFunc b c = false → lessFunc a c = false) →
  ∀ (i j : nat) (k1 k2 : string),
    (i < j)%nat →
    Keys (Sort lessFunc o) !! i = Some k1 →
    Keys (Sort lessFunc o) !! j = Some k2 →
    lessFunc {| key := k2; value := Get k2 o |} {| key := k1; value := Get k1 o |}
      = false.
Proof.
  intros Hasym Htrans i j k1 k2 Hij. unfold Keys. rewrite Sort_keys.
  set (l := (λ k, {| key := k; value := fst (map_index (values o) k) |}) <$> keys o).
  pose proof (sort_Sort_Permutation {| Pairs := l; LessFunc := lessFunc |}) as Hperm.
  destruct (sort_Sort_sorted lessFunc Hasym Htrans l) as (l' & Hl' & Hs).
  rewrite Hl' in *. cbn [Pairs] in *.
  rewrite !list_lookup_fmap. intros Hi Hj.
  destruct (l' !! i) as [p1|] eqn:E1; [|done].
  destruct (l' !! j) as [p2|] eqn:E2; [|done].
  cbn in Hi, Hj. injection Hi as <-. injection Hj as <-.
  assert (Hval : ∀ p, p ∈ l' → p = {| key := key p; value := Get (key p) o |}).
  { intros p Hp. rewrite Hperm in Hp. subst l.
    by apply list_elem_of_fmap in Hp as (k & -> & _). }
  rewrite <- (Hval p1) by (by eapply list_elem_of_lookup_2).
  rewrite <- (Hval p2) by (by eapply list_elem_of_lookup_2).
  apply (StronglySorted_lookup (in_order lessFunc) l' i j p1 p2 Hs Hij E1 E2).
Qed.

Lemma Sort_puts_keys_in_order_witness :
  let less := λ a b : pair_, bool_decide (¬ String.le (key b) (key a)) in
  let o := {| keys := ["b"; "c"; "a"]%string;
              values := Some (<["a"%string:=Int 3]>
                               (<["c"%string:=Int 2]> (<["b"%string:=Int 1]> ∅))) |} in
  (∀ a b, less a b = true → less b a = false) ∧
  (∀ a b c, less a b = false → less b c = false → less a c = false) ∧
  (0 < 2)%nat ∧
  Keys (Sort less o) !! 0%nat = Some "a"%string ∧
  Keys (Sort less o) !! 2%nat = Some "c"%string ∧
  less {| key := "c"; value := Get "c" o |} {| key := "a"; value := Get "a" o |} = false.
Proof.
  intros less o.
  assert (Hasym : ∀ a b, less a b = true → less b a = false).
  { intros a b H%bool_decide_eq_true. apply bool_decide_eq_false. intros Hn.
    destruct (total String.le (key a) (key b)); done. }
  assert (Htrans : ∀ a b c, less a b = false → less b c = false → less a c = false).
  { intros a b c H1%bool_decide_eq_false H2%bool_decide_eq_false.
    apply bool_decide_eq_false. intros Hn. apply Hn.
    apply dec_stable in H1. apply dec_stable in H2. by etrans. }
  split; [exact Hasym|]. split; [exact Htrans|]. split; [lia|].
  split; [reflexivity|]. split; [reflexivity|].
  exact (Sort_puts_keys_in_order less o Hasym Htrans 0 2 "a" "c"
           ltac:(lia) eq_refl eq_refl).
Defined.

(** * The output of MarshalJSON has no repeated key *)





(** * Sorted keys and the plain map *)

Lemma keys_match_values_elements o g :
  keys_match_values o → values o = Some g → keys o ≡ₚ elements (dom g).
Proof.
  intros [Hnd Hset] Hg. rewrite Hg in Hset. cbn in Hset.
  rewrite <- Hset. symmetry. by apply elements_list_to_set.
Qed.

(** X18.  On a container whose values map is not nil and whose keys are
    those of its values map, each once: after [SortKeys] with a function
    that sorts the keys in increasing order, whatever [json.Marshal] writes
    for the container it writes for the plain map [KeysValues()]; and what
    it writes for the plain map it writes for the container, unless the
    text nests deeper than the library allows in the output of a
    [MarshalJSON] method. *)
Theorem sorted_container_marshals_as_map (sortFunc : list string → list string)
    (o : OrderedMap) (g : gmap string any) :
  keys_match_values o → KeysValues o = Some g →
  Sorted String.le (sortFunc (keys o)) → sortFunc (keys o) ≡ₚ keys o →
  (∀ t, json_Marshal (SortKeys sortFunc o) = inl t →
        marshal (Map (KeysValues o)) = inl t) ∧
  (∀ t, marshal (Map (KeysValues o)) = inl t →
        depth (doc_of (Map (KeysValues o))) ≤ maxNestingDepth →
        json_Marshal (SortKeys sortFunc o) = inl t).
Proof.
  unfold KeysValues. intros Hinv Hg Hsorted Hperm.
  assert (Hks : sortFunc (keys o) = merge_sort String.le (elements (dom g))).
  { apply (Sorted_unique String.le); [done | apply Sorted_merge_sort, _ |].
    rewrite Hperm, merge_sort_Permutation.
    by apply keys_match_values_elements. }
  unfold json_Marshal, OrderedMapV, SortKeys. cbn [keys values].
  rewrite Hg, Hks.
  set (ks := merge_sort String.le (elements (dom g))).
  assert (Hdoc : doc_of (OMap ks (Some g)) = doc_of (Map (Some g))) by done.
  split.
  - intros t Ht. pose proof (marshal_inl_encodable _ _ Ht) as Henc.
    apply marshal_doc in Ht as ->. rewrite Hdoc. apply marshal_encodable.
    inversion_clear Henc as [| | | | | | | | |? ? Hall _].
    constructor. intros k v Hv. apply (Hall k v); [|done].
    apply sorted_keys_elem. eauto.
  - intros t Ht Hd. pose proof (marshal_inl_encodable _ _ Ht) as Henc.
    apply marshal_doc in Ht as ->. rewrite <- Hdoc. apply marshal_encodable.
    inversion_clear Henc as [| | | | | | |? Hall| |].
    constructor; [|by rewrite Hdoc]. intros k v _ Hv. by apply (Hall k v).
Qed.

Lemma sorted_container_marshals_as_map_witness :
  let o := {| keys := ["b"; "a"]%string;
              values := Some (<["a"%string:=Int 2]> (<["b"%string:=Int 1]> ∅)) |} in
  let g := <["a"%string:=Int 2]> (<["b"%string:=Int 1]> (∅ : gmap string any)) in
  let sortFunc := merge_sort String.le in
  let t := [LDelim LBrace; LString "a"; LColon; LNumber (float64_of_int 2); LComma;
            LString "b"; LColon; LNumber (float64_of_int 1); LDelim RBrace] in
  keys_match_values o ∧ KeysValues o = Some g ∧
  Sorted String.le (sortFunc (keys o)) ∧ sortFunc (keys o) ≡ₚ keys o ∧
  json_Marshal (SortKeys sortFunc o) = inl t ∧
  marshal (Map (KeysValues o)) = inl t.
Proof.
  intros o g sortFunc t.
  assert (Hinv : keys_match_values o).
  { split; [compute_done|]. cbn. rewrite !dom_insert_L. set_solver. }
  assert (Hs : Sorted String.le (sortFunc (keys o))) by apply Sorted_merge_sort, _.
  assert (Hp : sortFunc (keys o) ≡ₚ keys o) by apply merge_sort_Permutation.
  assert (Ht : json_Marshal (SortKeys sortFunc o) = inl t) by reflexivity.
  split; [exact Hinv|]. split; [reflexivity|]. split; [exact Hs|]. split; [exact Hp|].
  split; [exact Ht|].
  exact (proj1 (sorted_container_marshals_as_map sortFunc o g Hinv eq_refl Hs Hp) t Ht).
Defined.

(** * decode on repeated keys and on any values map *)

Lemma remove_dups_NoDup (l : list string) : NoDup l → remove_dups l = l.
Proof.
  induction 1 as [|x l Hx _ IH]; [done|]. cbn.
  destruct (decide_rel _ _ _); [done | by rewrite IH].
Qed.

Lemma remove_dups_later (x : string) l1 l2 :
  x ∈ l2 → remove_dups (l1 ++ l2) = remove_dups (filter (λ y, y ≠ x) l1 ++ l2).
Proof.
  intros Hx. induction l1 as [|a l1 IH]; [done|]. cbn [app remove_dups].
  destruct (decide (a = x)) as [->|Hne].
  - rewrite filter_cons_False by naive_solver.
    destruct (decide_rel _ _ _) as [_|Hout]; [done|].
    destruct Hout. apply elem_of_app. by right.
  - rewrite filter_cons_True by done. cbn [app remove_dups]. rewrite IH.
    assert (Hiff : a ∈ l1 ++ l2 ↔ a ∈ filter (λ y, y ≠ x) l1 ++ l2).
    { rewrite !elem_of_app, list_elem_of_filter. naive_solver. }
    destruct (decide_rel _ a (l1 ++ l2)), (decide_rel _ a (filter _ l1 ++ l2));
      naive_solver.
Qed.

Lemma move_last (ab : list string) x key :
  match ab ++ [x] with
  | [] => None
  | _ => Some (<[pred (length (ab ++ [x])):=key]> (ab ++ [x]))
  end = Some (ab ++ [key]).
Proof.
  assert (<[pred (length (ab ++ [x])):=key]> (ab ++ [x]) = ab ++ [key]) as ->.
  { rewrite length_app. cbn [length].
    replace (pred (length ab + 1)) with (length ab + 0)%nat by lia.
    by rewrite insert_app_r. }
  by destruct ab.
Qed.

(** A key seen before moves to the end. *)
Lemma record_key_seen key ks :
  NoDup ks → key ∈ ks →
  record_key key true ks = Some (filter (λ k, k ≠ key) ks ++ [key]).
Proof.
  intros Hnd Hin. unfold record_key.
  destruct (index_of_elem key ks Hin) as [j Hj]. rewrite Hj.
  apply index_of_Some in Hj as [Hj _].
  assert (Hlen : (j < length ks)%nat) by (by eapply lookup_lt_Some).
  destruct (lookup_lt_is_Some_2 ks (pred (length ks))) as [x Hx]; [lia|].
  rewrite (drop_S ks x (pred (length ks)) Hx).
  rewrite (drop_ge ks (S (pred (length ks)))) by lia.
  rewrite app_assoc, move_last. by rewrite (cut_filter key ks j).
Qed.

Lemma record_keys_fresh l : ∀ ks,
  NoDup ks → record_keys l (list_to_set ks) ks = Some (remove_dups (ks ++ l)).
Proof.
  induction l as [|k l IH]; intros ks Hnd.
  - cbn. by rewrite app_nil_r, remove_dups_NoDup.
  - cbn [record_keys]. destruct (decide (k ∈ ks)) as [Hin|Hout].
    + rewrite bool_decide_eq_true_2 by (by apply elem_of_list_to_set).
      rewrite (record_key_seen k ks Hnd Hin).
      assert (Hset : {[k]} ∪ list_to_set ks =@{gset string}
                     list_to_set (filter (λ k', k' ≠ k) ks ++ [k])).
      { apply set_eq. intros y.
        rewrite list_to_set_app_L, !elem_of_union, !elem_of_list_to_set,
          list_elem_of_filter, list_elem_of_singleton, elem_of_singleton.
        destruct (decide (y = k)); naive_solver. }
      rewrite Hset, IH.
      * rewrite <- app_assoc. cbn [app]. f_equal. symmetry.
        apply remove_dups_later. left.
      * apply NoDup_app. split; [by apply NoDup_filter|].
        split; [|apply NoDup_singleton].
        intros y [Hne _]%list_elem_of_filter ->%list_elem_of_singleton. done.
    + rewrite bool_decide_eq_false_2 by (by rewrite elem_of_list_to_set).
      cbn [record_key].
      assert (Hset : {[k]} ∪ list_to_set ks =@{gset string} list_to_set (ks ++ [k])).
      { rewrite list_to_set_app_L. cbn. set_solver. }
      rewrite Hset, IH.
      * by rewrite <- app_assoc.
      * apply NoDup_app. split; [done|]. split; [|apply NoDup_singleton].
        by intros y Hy ->%list_elem_of_singleton.
Qed.

Lemma record_keys_start l : record_keys l ∅ [] = Some (remove_dups l).
Proof. apply (record_keys_fresh l []). constructor. Qed.

(** An entry that is not the nil of a missing key is in the map. *)
Lemma map_index_found vs k x :
  fst (map_index vs k) = x → x ≠ Nil →
  ∃ g, vs = Some g ∧ g !! k = Some x.
Proof.
  unfold map_index. destruct vs as [g|]; cbn; [|by intros <-].
  destruct (g !! k) as [y|] eqn:E; cbn; [|by intros <-].
  intros <- _. by exists g.
Qed.

Lemma map_keys_shared_write vs k x v :
  fst (map_index vs k) = x → x ≠ Nil →
  map_keys (shared_write vs k v) = map_keys vs.
Proof.
  intros Hx Hne. destruct (map_index_found vs k x Hx Hne) as (g & -> & Hg).
  cbn. rewrite dom_insert_L. apply elem_of_dom_2 in Hg. set_solver.
Qed.

Lemma map_assign_found vs k x v :
  fst (map_index vs k) = x → x ≠ Nil →
  ∃ vs', map_assign vs k v = Some vs' ∧ map_keys vs' = map_keys vs.
Proof.
  intros Hx Hne. destruct (map_index_found vs k x Hx Hne) as (g & -> & Hg).
  eexists. split; [done|]. cbn. rewrite dom_insert_L.
  apply elem_of_dom_2 in Hg. set_solver.
Qed.

Lemma decode_any n :
  (∀ m st s0 stk rest o hasKey ks',
     key_ready st = true →
     (length (obj_items st m ++ LDelim RBrace :: rest) < n)%nat →
     record_keys (m.*1) hasKey (keys o) = Some ks' →
     Forall (λ kv, overflows kv.2 = false) m →
     ∃ vs', map_keys vs' = map_keys (values o) ∧
       decode_loop n
         (mkDecoder (obj_items st m ++ LDelim RBrace :: rest) st (s0 :: stk))
         o hasKey =
       Ret (mkDecoder rest (tokenValueEnd s0) stk,
            {| keys := ks'; values := vs' |}, None)) ∧
  (∀ l st s0 stk rest s index,
     element_ready st = true →
     (length (arr_items st l ++ LDelim RBracket :: rest) < n)%nat →
     Forall (λ v, overflows v = false) l →
     ∃ s', length s' = length s ∧
       decodeSlice_loop n
         (mkDecoder (arr_items st l ++ LDelim RBracket :: rest) st (s0 :: stk))
         s index =
       Ret (mkDecoder rest (tokenValueEnd s0) stk, s', None)).
Proof.
  induction n as [n IH] using lt_wf_ind. destruct n as [|n].
  { split; intros; lia. }
  assert (IHm := λ m, proj1 (IH n (Nat.lt_succ_diag_r n)) m).
  assert (IHl := λ l, proj2 (IH n (Nat.lt_succ_diag_r n)) l).
  clear IH. split.
  - intros [|[k v] m] st s0 stk rest o hasKey ks' Hst Hn Hrec Hover.
    { cbn [obj_items app decode_loop]. rewrite (Token_close_brace _ _ _ _ Hst).
      cbn in Hrec. injection Hrec as <-. exists (values o).
      split; [done|]. by destruct o. }
    cbn [obj_items fst snd] in *. rewrite <- !app_assoc in *.
    cbn [app] in *. rewrite <- !app_assoc in *.
    cbn [fmap list_fmap fst record_keys] in Hrec.
    apply Forall_cons in Hover as [Hv Hover]. cbn [snd] in Hv.
    destruct (record_key k (bool_decide (k ∈ hasKey)) (keys o)) as [ks1|] eqn:Ek;
      [|done].
    cbn [decode_loop]. rewrite (Token_key _ _ _ _ Hst), Ek.
    cbv zeta. cbn [keys values].
    assert (Hnext : ∀ vs1 rest',
      map_keys vs1 = map_keys (values o) →
      (length (obj_items tokenObjectComma m ++ LDelim RBrace :: rest') < n)%nat →
      ∃ vs', map_keys vs' = map_keys (values o) ∧
        decode_loop n
          (mkDecoder (obj_items tokenObjectComma m ++ LDelim RBrace :: rest')
             tokenObjectComma (s0 :: stk))
          {| keys := ks1; values := vs1 |} ({[k]} ∪ hasKey) =
        Ret (mkDecoder rest' (tokenValueEnd s0) stk,
             {| keys := ks'; values := vs' |}, None)).
    { intros vs1 rest' Hdom Hlen.
      destruct (IHm m tokenObjectComma s0 stk rest'
                  {| keys := ks1; values := vs1 |} ({[k]} ∪ hasKey) ks' eq_refl Hlen Hrec
                  Hover)
        as (vs' & Hdom' & Hrun).
      exists vs'. split; [|done]. by rewrite Hdom'. }
    destruct (lexemes_cases v) as [(x & Hx & _ & t & Ht & Hnd')|[->|[[l ->]|[m2 ->]]]];
      [|done|..].
    + rewrite Hx in *. cbn [app] in *.
      rewrite (Token_colon_scalar _ x t _ Ht).
      destruct (Hnext (values o) rest eq_refl) as (vs' & Hdom & Hrun); [solve_length|].
      exists vs'. split; [done|]. rewrite <- Hrun.
      destruct t as [d| | | |]; [by destruct (Hnd' d) | done..].
    + rewrite lexemes_Array in *. cbn [app] in *. rewrite <- !app_assoc in *.
      cbn [app] in *. rewrite Token_colon_bracket.
      cbn [overflows] in Hv. apply existsb_false in Hv.
      destruct (fst (map_index (values o) k)) as [| | | | |vals| | |] eqn:Ev.
      6: { destruct (IHl l tokenArrayStart tokenObjectValue (s0 :: stk)
                       (obj_items tokenObjectComma m ++ LDelim RBrace :: rest)
                       vals 0%nat eq_refl) as (s' & _ & ->); [solve_length|done|].
           apply Hnext; [|solve_length].
           by apply (map_keys_shared_write _ _ _ _ Ev). }
      all: destruct (IHl l tokenArrayStart tokenObjectValue (s0 :: stk)
                      (obj_items tokenObjectComma m ++ LDelim RBrace :: rest)
                      [] 0%nat eq_refl) as (s' & _ & ->); [solve_length|done|];
        apply Hnext; [done | solve_length].
    + rewrite lexemes_Object in *. cbn [app] in *. rewrite <- !app_assoc in *.
      cbn [app] in *. rewrite Token_colon_brace.
      cbn [overflows] in Hv. apply existsb_false in Hv.
      destruct (fst (map_index (values o) k)) as [| | | | | |vals|oldKeys oldVals|] eqn:Ev.
      7: { destruct (IHm m2 tokenObjectStart tokenObjectValue (s0 :: stk)
                       (obj_items tokenObjectComma m ++ LDelim RBrace :: rest)
                       {| keys := []; values := vals |} ∅ (remove_dups (m2.*1)) eq_refl)
             as (vs2 & _ & ->); [solve_length | apply record_keys_start | done |].
           destruct (map_assign_found (values o) k _
                       (OrderedMapV {| keys := remove_dups (m2.*1); values := vs2 |}) Ev)
             as (vs1 & -> & Hdom); [done|].
           apply Hnext; [done | solve_length]. }
      7: { destruct (IHm m2 tokenObjectStart tokenObjectValue (s0 :: stk)
                       (obj_items tokenObjectComma m ++ LDelim RBrace :: rest)
                       {| keys := []; values := oldVals |} ∅ (remove_dups (m2.*1)) eq_refl)
             as (vs2 & _ & ->); [solve_length | apply record_keys_start | done |].
           destruct (map_assign_found (values o) k _
                       (OrderedMapV {| keys := remove_dups (m2.*1); values := vs2 |}) Ev)
             as (vs1 & -> & Hdom); [done|].
           apply Hnext; [done | solve_length]. }
      all: destruct (IHm m2 tokenObjectStart tokenObjectValue (s0 :: stk)
                      (obj_items tokenObjectComma m ++ LDelim RBrace :: rest)
                      {| keys := []; values := None |} ∅ (remove_dups (m2.*1)) eq_refl)
             as (vs2 & _ & ->); [solve_length | apply record_keys_start | done |];
        apply Hnext; [done | solve_length].
  - intros [|v l] st s0 stk rest s index Hst Hn Hover.
    { cbn [arr_items app decodeSlice_loop]. rewrite (Token_close_bracket _ _ _ _ Hst).
      by exists s. }
    cbn [arr_items] in *. rewrite <- !app_assoc in *.
    apply Forall_cons in Hover as [Hv Hover].
    assert (Hnext : ∀ s1 rest',
      length s1 = length s →
      (length (arr_items tokenArrayComma l ++ LDelim RBracket :: rest') < n)%nat →
      ∃ s', length s' = length s ∧
        decodeSlice_loop n
          (mkDecoder (arr_items tokenArrayComma l ++ LDelim RBracket :: rest')
             tokenArrayComma (s0 :: stk)) s1 (S index) =
        Ret (mkDecoder rest' (tokenValueEnd s0) stk, s', None)).
    { intros s1 rest' Hlen1 Hlen.
      destruct (IHl l tokenArrayComma s0 stk rest' s1 (S index) eq_refl Hlen Hover)
        as (s' & Hlen' & Hrun).
      exists s'. split; [|done]. by rewrite Hlen'. }
    assert (Hend : tokenValueEnd (value_state st) = tokenArrayComma)
      by (by destruct st).
    destruct (lexemes_cases v) as [(x & Hx & _ & t & Ht & Hnd')|[->|[[l2 ->]|[m2 ->]]]];
      [|done|..].
    + rewrite Hx in *. cbn [app] in *. cbn [decodeSlice_loop].
      rewrite (Token_scalar st _ x t _ (element_value_ready _ Hst) Ht).
      rewrite (value_done_element _ Hst).
      destruct (Hnext s rest eq_refl) as (s' & Hlen & Hrun); [solve_length|].
      exists s'. split; [done|]. rewrite <- Hrun.
      destruct t as [d| | | |]; [by destruct (Hnd' d) | done..].
    + rewrite lexemes_Array in *. cbn [app] in *. rewrite <- !app_assoc in *.
      cbn [app] in *. cbn [decodeSlice_loop].
      rewrite (Token_open_bracket st _ _ (element_value_ready _ Hst)).
      cbn [overflows] in Hv. apply existsb_false in Hv.
      destruct (s !! index) as [[| | | | |vals| | |]|] eqn:Ev.
      6: { destruct (IHl l2 tokenArrayStart (value_state st) (s0 :: stk)
                       (arr_items tokenArrayComma l ++ LDelim RBracket :: rest)
                       vals 0%nat eq_refl) as (s' & _ & ->); [solve_length|done|].
           rewrite Hend. apply Hnext; [by rewrite length_insert | solve_length]. }
      all: destruct (IHl l2 tokenArrayStart (value_state st) (s0 :: stk)
                      (arr_items tokenArrayComma l ++ LDelim RBracket :: rest)
                      [] 0%nat eq_refl) as (s' & _ & ->); [solve_length|done|];
        rewrite Hend; apply Hnext; [done | solve_length].
    + rewrite lexemes_Object in *. cbn [app] in *. rewrite <- !app_assoc in *.
      cbn [app] in *. cbn [decodeSlice_loop].
      rewrite (Token_open_brace st _ _ (element_value_ready _ Hst)).
      cbn [overflows] in Hv. apply existsb_false in Hv.
      destruct (s !! index) as [[| | | | | |vals|oldKeys oldVals|]|] eqn:Ev.
      7: { destruct (IHm m2 tokenObjectStart (value_state st) (s0 :: stk)
                       (arr_items tokenArrayComma l ++ LDelim RBracket :: rest)
                       {| keys := []; values := vals |} ∅ (remove_dups (m2.*1)) eq_refl)
             as (vs2 & _ & ->); [solve_length | apply record_keys_start | done |].
           rewrite Hend. apply Hnext; [by rewrite length_insert | solve_length]. }
      7: { destruct (IHm m2 tokenObjectStart (value_state st) (s0 :: stk)
                       (arr_items tokenArrayComma l ++ LDelim RBracket :: rest)
                       {| keys := []; values := oldVals |} ∅ (remove_dups (m2.*1)) eq_refl)
             as (vs2 & _ & ->); [solve_length | apply record_keys_start | done |].
           rewrite Hend. apply Hnext; [by rewrite length_insert | solve_length]. }
      all: destruct (IHm m2 tokenObjectStart (value_state st) (s0 :: stk)
                      (arr_items tokenArrayComma l ++ LDelim RBracket :: rest)
                      {| keys := []; values := None |} ∅ (remove_dups (m2.*1)) eq_refl)
             as (vs2 & _ & ->); [solve_length | apply record_keys_start | done |];
        rewrite Hend; apply Hnext; [done | solve_length].
Qed.

(** X19.  [decode] and [decodeSlice] on their own, entered as
    [UnmarshalJSON] enters [decode]: behind the opening delimiter of the
    text of an object or of an array.  Whatever the values map or the slice
    they are given, and whatever the text holds (nested values, keys
    repeated at any depth) as long as no number in it is too large for a
    [float64], they read to the end of the text and return nil without a
    panic.  [decode] leaves in [keys] every member key once, a repeated key
    at the place of its last occurrence ([remove_dups] keeps the last
    occurrences), and a values map with the keys it had; [decodeSlice]
    leaves a slice of the length it had. *)
Theorem decode_moves_repeated_keys_last (b : list lexeme) (j : json) :
  compact b = lexemes j → overflows j = false →
  (∀ m, j = JObject m →
     ∃ dec, Token_ (NewDecoder b) = (dec, inl (TDelim LBrace)) ∧
       ∀ vs, ∃ vs', map_keys vs' = map_keys vs ∧
         decode (S (length (buf dec))) dec {| keys := []; values := vs |} =
         Ret (mkDecoder [] tokenTopValue [],
              {| keys := remove_dups (m.*1); values := vs' |}, None)) ∧
  (∀ l, j = JArray l →
     ∃ dec, Token_ (NewDecoder b) = (dec, inl (TDelim LBracket)) ∧
       ∀ s, ∃ s', length s' = length s ∧
         decodeSlice (S (length (buf dec))) dec s =
         Ret (mkDecoder [] tokenTopValue [], s', None)).
Proof.
  intros Hb Hover. unfold NewDecoder. rewrite Hb. split.
  - intros m ->. rewrite lexemes_Object. eexists. split; [done|].
    intros vs. cbn [buf]. unfold decode.
    cbn [overflows] in Hover. apply existsb_false in Hover.
    destruct (proj1 (decode_any (S (length (obj_items tokenObjectStart m ++ [LDelim RBrace]))))
                m tokenObjectStart tokenTopValue [] []
                {| keys := []; values := vs |} ∅ (remove_dups (m.*1)) eq_refl)
      as (vs' & Hdom & Hrun); [lia | apply record_keys_start | done |].
    by exists vs'.
  - intros l ->. rewrite lexemes_Array. eexists. split; [done|].
    intros s. cbn [buf]. unfold decodeSlice.
    cbn [overflows] in Hover. apply existsb_false in Hover.
    destruct (proj2 (decode_any (S (length (arr_items tokenArrayStart l ++ [LDelim RBracket]))))
                l tokenArrayStart tokenTopValue [] [] s 0%nat eq_refl)
      as (s' & Hlen & Hrun); [lia | done |].
    by exists s'.
Qed.

Lemma decode_moves_repeated_keys_last_witness :
  let j := JObject [("a"%string, JNumber (float64_of_int 1));
                    ("b"%string, JObject [("x"%string, JNull); ("x"%string, JNull)]);
                    ("a"%string, JArray [JNull])] in
  let b := [LDelim LBrace; LString "a"; LColon; LNumber (float64_of_int 1); LComma;
            LSpace SP;
            LString "b"; LColon; LDelim LBrace; LString "x"; LColon; LNull; LComma;
            LString "x"; LColon; LNull; LDelim RBrace; LComma;
            LString "a"; LColon; LDelim LBracket; LNull; LDelim RBracket;
            LDelim RBrace] in
  compact b = lexemes j ∧ overflows j = false ∧
  (∀ m, j = JObject m →
     ∃ dec, Token_ (NewDecoder b) = (dec, inl (TDelim LBrace)) ∧
       ∀ vs, ∃ vs', map_keys vs' = map_keys vs ∧
         decode (S (length (buf dec))) dec {| keys := []; values := vs |} =
         Ret (mkDecoder [] tokenTopValue [],
              {| keys := remove_dups (m.*1); values := vs' |}, None)) ∧
  (∀ l, j = JArray l →
     ∃ dec, Token_ (NewDecoder b) = (dec, inl (TDelim LBracket)) ∧
       ∀ s, ∃ s', length s' = length s ∧
         decodeSlice (S (length (buf dec))) dec s =
         Ret (mkDecoder [] tokenTopValue [], s', None)).
Proof.
  intros j b. split; [reflexivity|]. split; [reflexivity|].
  exact (decode_moves_repeated_keys_last b j eq_refl eq_refl).
Defined.

(** * The invariant at every depth of what UnmarshalJSON builds *)

Lemma well_formed_promote j : dup_free j → well_formed (promote j).
Proof.
  induction j as [| | | | |l IH|m IH] using json_nested_ind;
    inversion_clear 1 as [| | | | |? Hl|? Hnd Hm]; try by constructor.
  - cbn [promote]. constructor. apply Forall_fmap.
    eapply Forall_impl; [apply Forall_and; split; [apply IH | apply Hl]|].
    intros v [H1 H2]. by apply H1.
  - cbn [promote]. constructor; [done| |].
    + rewrite dom_insert_all, fst_tagged. set_solver.
    + intros k x [Hin|Hin]%lookup_insert_all_Some; [|by rewrite lookup_empty in Hin].
      apply list_elem_of_fmap in Hin as ([k' v] & [= -> ->] & Hin).
      rewrite Forall_forall in IH, Hm. by apply (IH _ Hin), (Hm _ Hin).
Qed.

(** X20.  What a successful [UnmarshalJSON] stores for the members of the
    text holds no plain map, and every ordered map in it, at any depth, has
    as keys those of its values map, each once.  Called on a container whose
    values map has no entries, this holds of the container itself. *)
Theorem UnmarshalJSON_builds_ordered_maps (b : list lexeme) (o o' : OrderedMap) :
  UnmarshalJSON b o = Ret (o', None) →
  (∀ k, k ∈ Keys o' → well_formed (Get k o')) ∧
  (map_keys (values o) = ∅ → well_formed (OrderedMapV o')).
Proof.
  intros H. apply UnmarshalJSON_outcome in H
    as [[e [= _ ?]]|[[e [= _ ?]]|[[_ [= _ ?]]|(m & Hb & Hfree & _ & _ & [= ->])]]]; try done.
  pose proof (well_formed_promote _ Hfree) as Hwf. cbn [promote] in Hwf.
  inversion Hwf as [| | | | |ks g Hnd Hdom Hall [Hks Hg]].
  inversion_clear Hfree as [| | | | | |? Hnd' Hm]. split.
  - intros k Hk. unfold Keys in Hk. cbn [keys] in Hk.
    apply list_elem_of_fmap in Hk as ([k' v] & -> & Hin). cbn [fst].
    rewrite Get_lookup. cbn.
    rewrite (lookup_insert_all_NoDup _ _ k' (promote v)).
    + cbn. apply well_formed_promote. rewrite Forall_forall in Hm. by apply (Hm _ Hin).
    + by rewrite fst_tagged.
    + apply list_elem_of_fmap. by exists (k', v).
  - intros Hempty.
    assert (Hg0 : default ∅ (values o) = (∅ : gmap string any)).
    { unfold map_keys in Hempty. destruct (values o) as [g0|]; [|done].
      cbn. by apply dom_empty_inv_L. }
    unfold OrderedMapV. cbn [keys values]. by rewrite Hg0.
Qed.

Lemma UnmarshalJSON_builds_ordered_maps_witness :
  let b := [LDelim LBrace; LString "b"; LColon;
            LDelim LBrace; LString "y"; LColon; LNull; LComma;
            LString "x"; LColon; LDelim LBracket; LDelim LBrace; LDelim RBrace;
            LDelim RBracket; LDelim RBrace; LDelim RBrace] in
  ∃ o', UnmarshalJSON b New = Ret (o', None) ∧
        (∀ k, k ∈ Keys o' → well_formed (Get k o')) ∧
        (map_keys (values New) = ∅ → well_formed (OrderedMapV o')).
Proof.
  intros b. eexists. split; [reflexivity|].
  exact (UnmarshalJSON_builds_ordered_maps b New _ eq_refl).
Defined.

(** * What the scan has read when it returns nil *)

Lemma Token_value_text b : ∀ st stk d' t,
  Forall (λ x, is_space x = false) b →
  value_ready st = true → (element_ready st = true → more_ahead b) →
  Token_loop b st stk = (d', inl t) →
  ∃ x, b = pending st ++ x :: buf d' ∧
       match t with
       | TDelim LBrace => x = LDelim LBrace
       | TDelim LBracket => x = LDelim LBracket
       | TDelim _ => False
       | _ => scalar_token x = Some t
       end.
Proof.
  induction b as [|x b IH]; intros st stk d' t Hsp Hst Hmore; [done|].
  apply Forall_cons in Hsp as [Hx Hsp].
  destruct x as [[]| | | | | | | | |]; try discriminate Hx; cbn [Token_loop];
    (destruct st; try discriminate Hst); cbn [tokenValueAllowed];
    intros H; try discriminate H;
    try (injection H as <- <-; cbn; by eexists);
    try (by destruct (Hmore eq_refl));
    try (apply IH in H as (x' & -> & H); [by exists x' | done | done | done]).
Qed.

Lemma Token_member_text b : ∀ st stk d' t,
  Forall (λ x, is_space x = false) b →
  (key_ready st = true ∧ more_ahead b) ∨ st = tokenObjectKey →
  Token_loop b st stk = (d', inl t) →
  ∃ k, t = TString k ∧ b = pending st ++ LString k :: buf d'.
Proof.
  induction b as [|x b IH]; intros st stk d' t Hsp Hst; [done|].
  apply Forall_cons in Hsp as [Hx Hsp].
  destruct x as [[]| | | | | | | | |]; try discriminate Hx; cbn [Token_loop]; intros H;
    (destruct Hst as [[Hst Hmore]| ->]; [destruct st; try discriminate Hst|]);
    cbn [tokenValueAllowed] in H; try discriminate H;
    try (by destruct Hmore);
    try (injection H as <- <-; cbn; by eexists);
    try (apply IH in H as (k & -> & ->); [by exists k | done | by right]).
Qed.

Lemma Token_closing_text b : ∀ st stk d' t,
  Forall (λ x, is_space x = false) b →
  key_ready st = true ∨ element_ready st = true → ¬ more_ahead b →
  Token_loop b st stk = (d', inl t) →
  b = LDelim (if key_ready st then RBrace else RBracket) :: buf d'.
Proof.
  intros st stk d' t Hsp Hst Hmore. destruct b as [|x b]; [done|].
  apply Forall_cons in Hsp as [Hx Hsp].
  destruct x as [[]| | | | | | | | |]; try discriminate Hx; cbn [Token_loop]; intros H;
    try (by destruct Hmore);
    destruct st; try discriminate H; injection H as <- <-; cbn;
    by destruct Hst.
Qed.

Lemma scalar_document x t :
  scalar_token x = Some t → ∃ j, lexemes j = [x] ∧ first_fault j = None.
Proof.
  destruct x as [| | |s|z| |c| | |]; intros [=].
  - by exists (JString s).
  - by exists (JNumber z).
  - by exists (JBool c).
  - by exists JNull.
Qed.

Lemma CheckDuplicate_sound n :
  ∀ d d', (length (buf d) < n)%nat →
    Forall (λ x, is_space x = false) (buf d) →
    value_ready (tokenState d) = true →
    (element_ready (tokenState d) = true → More d = true) →
    CheckDuplicate_fuel n d = Ret (d', None) →
    ∃ j, first_fault j = None ∧ buf d = pending (tokenState d) ++ lexemes j ++ buf d'.
Proof.
  induction n as [n IH] using lt_wf_ind. intros d d' Hn Hsp Hst Hmore Hrun.
  destruct n as [|n]; [lia|].
  assert (Hobj : ∀ m d1 seen s0 stk,
    (length (buf d1) < m)%nat → (length (buf d1) < n)%nat →
    Forall (λ x, is_space x = false) (buf d1) →
    key_ready (tokenState d1) = true → tokenStack d1 = s0 :: stk →
    CheckDuplicate_object (CheckDuplicate_fuel n) m seen d1 = Ret (d', None) →
    ∃ ms, buf d1 = obj_items (tokenState d1) ms ++ LDelim RBrace :: buf d' ∧
          NoDup (ms.*1) ∧ (∀ k, k ∈ ms.*1 → k ∉ seen) ∧
          Forall (λ kv, first_fault kv.2 = None) ms).
  { induction m as [|m IHm]; intros d1 seen s0 stk Hm Hn1 Hsp1 Hst1 Hstk; [lia|].
    cbn [CheckDuplicate_object].
    destruct (More d1) eqn:Emore.
    - apply More_true in Emore.
      destruct (Token_ d1) as [d2 [t|err]] eqn:Et; [|done].
      pose proof Et as Et'.
      apply Token_member in Et as (Hlen & _ & Hst2 & Hstk2); [|by left].
      apply Token_member_text in Et' as (k & -> & Hb1); [|done|by left].
      destruct (decide (k ∈ seen)) as [|Hk]; [done|].
      destruct (CheckDuplicate_returns n d2) as (d3 & e & Hrun2 & Hd3);
        [lia|by rewrite Hst2|by rewrite Hst2|].
      rewrite Hrun2. destruct e as [e|]; [done|].
      destruct (Hd3 eq_refl) as (Hlen3 & Hst3 & Hstk3).
      assert (Hsp2 : Forall (λ x, is_space x = false) (buf d2)).
      { rewrite Hb1 in Hsp1. apply Forall_app in Hsp1 as [_ Hsp1].
        by apply Forall_cons in Hsp1 as [_ Hsp1]. }
      destruct (IH n (Nat.lt_succ_diag_r n) d2 d3) as (v & Hv & Hb2);
        [lia|done|by rewrite Hst2|by rewrite Hst2|done|].
      rewrite Hst2 in Hb2. cbn [pending app] in Hb2.
      assert (Hsp3 : Forall (λ x, is_space x = false) (buf d3)).
      { rewrite Hb2 in Hsp2. apply Forall_cons in Hsp2 as [_ Hsp2].
        by apply Forall_app in Hsp2 as [_ Hsp2]. }
      intros Hloop.
      destruct (IHm d3 ({[k]} ∪ seen) s0 stk) as (ms & Hb3 & Hnd & Hfresh & Hall);
        [lia|lia|done|by rewrite Hst3, Hst2|by rewrite Hstk3, Hstk2|done|].
      rewrite Hst3, Hst2 in Hb3.
      change (value_done tokenObjectColon) with tokenObjectComma in Hb3.
      exists ((k, v) :: ms). split; [|split; [|split]].
      + cbn [obj_items fst snd]. rewrite Hb1, Hb2, Hb3.
        rewrite <- !app_assoc. cbn [app]. by rewrite <- !app_assoc.
      + cbn. apply NoDup_cons. split; [|done].
        intros Hin. apply (Hfresh k Hin). set_solver.
      + intros k' [->|Hin]%elem_of_cons; [done|].
        intros Hs. apply (Hfresh k' Hin). set_solver.
      + by constructor.
    - destruct (Token_ d1) as [d2 [t|err]] eqn:Et; [|done].
      apply Token_closing_text in Et; [|done|by left|].
      + intros [= ->]. rewrite Hst1 in Et. exists []. split; [done|].
        split; [constructor|]. split; [|done]. intros k Hk. by apply elem_of_nil in Hk.
      + rewrite <- More_true. by rewrite Emore. }
  assert (Harr : ∀ m d1 s0 stk,
    (length (buf d1) < m)%nat → (length (buf d1) < n)%nat →
    Forall (λ x, is_space x = false) (buf d1) →
    element_ready (tokenState d1) = true → tokenStack d1 = s0 :: stk →
    CheckDuplicate_array (CheckDuplicate_fuel n) m d1 = Ret (d', None) →
    ∃ l, buf d1 = arr_items (tokenState d1) l ++ LDelim RBracket :: buf d' ∧
         Forall (λ v, first_fault v = None) l).
  { induction m as [|m IHm]; intros d1 s0 stk Hm Hn1 Hsp1 Hst1 Hstk; [lia|].
    cbn [CheckDuplicate_array].
    destruct (More d1) eqn:Emore.
    - destruct (CheckDuplicate_returns n d1) as (d3 & e & Hrun2 & Hd3);
        [lia|by destruct (tokenState d1)|done|].
      rewrite Hrun2. destruct e as [e|]; [done|].
      destruct (Hd3 eq_refl) as (Hlen3 & Hst3 & Hstk3).
      destruct (IH n (Nat.lt_succ_diag_r n) d1 d3) as (v & Hv & Hb2);
        [lia|done|by destruct (tokenState d1)|done|done|].
      assert (Hsp3 : Forall (λ x, is_space x = false) (buf d3)).
      { rewrite Hb2 in Hsp1. apply Forall_app in Hsp1 as [_ Hsp1].
        by apply Forall_app in Hsp1 as [_ Hsp1]. }
      intros Hloop.
      destruct (IHm d3 s0 stk) as (l & Hb3 & Hall);
        [lia|lia|done|by rewrite Hst3; destruct (tokenState d1)
        |by rewrite Hstk3|done|].
      rewrite Hst3, (value_done_element _ Hst1) in Hb3.
      exists (v :: l). split; [|by constructor].
      cbn [arr_items]. rewrite Hb2, Hb3. by rewrite <- !app_assoc.
    - destruct (Token_ d1) as [d2 [t|err]] eqn:Et; [|done].
      apply Token_closing_text in Et; [|done|by right|].
      + intros [= ->]. exists []. split; [|done]. cbn [arr_items app].
        rewrite Et. by destruct (tokenState d1).
      + rewrite <- More_true. by rewrite Emore. }
  cbn [CheckDuplicate_fuel] in Hrun.
  destruct (Token_ d) as [d1 [t|err]] eqn:Et; [|done].
  pose proof Et as Et'.
  apply Token_value in Et as [Hlen Ht]; [|done|by intros H; apply More_true, Hmore].
  apply Token_value_text in Et' as (x & Hb & Hx);
    [|done|done|by intros H; apply More_true, Hmore].
  assert (Hsp1 : Forall (λ x, is_space x = false) (buf d1)).
  { rewrite Hb in Hsp. apply Forall_app in Hsp as [_ Hsp].
    by apply Forall_cons in Hsp as [_ Hsp]. }
  assert (Hscalar : scalar_token x = Some t → Ret (d1, @None error) = Ret (d', None) →
            ∃ j, first_fault j = None ∧ buf d = pending (tokenState d) ++ lexemes j ++ buf d').
  { intros Hs [= <-]. destruct (scalar_document x t Hs) as (j & Hj & Hfree).
    exists j. split; [done|]. by rewrite Hj. }
  destruct t as [[]| | | |]; try done; try (by apply Hscalar).
  - destruct Ht as [Hst1 Hstk1]. subst x.
    destruct (Hobj n d1 ∅ _ _ ltac:(lia) ltac:(lia) Hsp1 ltac:(by rewrite Hst1)
                Hstk1 Hrun) as (ms & Hb1 & Hnd & _ & Hall).
    exists (JObject ms). split; [by apply first_fault_Object|].
    rewrite lexemes_Object, Hb, Hb1, Hst1. cbn [app]. by rewrite <- !app_assoc.
  - destruct Ht as [Hst1 Hstk1]. subst x.
    destruct (Harr n d1 _ _ ltac:(lia) ltac:(lia) Hsp1 ltac:(by rewrite Hst1)
                Hstk1 Hrun) as (l & Hb1 & Hall).
    exists (JArray l). split; [by apply first_fault_Array|].
    rewrite lexemes_Array, Hb, Hb1, Hst1. cbn [app]. by rewrite <- !app_assoc.
Qed.

Lemma compact_is_clean b : Forall (λ x, is_space x = false) (compact b).
Proof.
  apply Forall_forall. intros x Hx. by apply list_elem_of_filter in Hx as [Hx _].
Qed.

(** X21.  [CheckDuplicate] on a fresh decoder returns nil exactly when the
    input starts with one complete JSON value in which no object has a
    repeated key and no number is too large for a [float64]; the decoder is
    then behind that value, ready for the next one.  On every other input
    it returns an error. *)
Theorem CheckDuplicate_nil_iff (b : list lexeme) :
  (∀ d, CheckDuplicate (NewDecoder b) = Ret (d, None) ↔
        ∃ j, dup_free j ∧ overflows j = false ∧ compact b = lexemes j ++ buf d ∧
             tokenState d = tokenTopValue ∧ tokenStack d = []) ∧
  ((∀ j rest, dup_free j → overflows j = false → compact b ≠ lexemes j ++ rest) →
   ∃ d e, CheckDuplicate (NewDecoder b) = Ret (d, Some e)).
Proof.
  assert (Hnil : ∀ d, CheckDuplicate (NewDecoder b) = Ret (d, None) →
            ∃ j, dup_free j ∧ overflows j = false ∧ compact b = lexemes j ++ buf d ∧
                 tokenState d = tokenTopValue ∧ tokenStack d = []).
  { intros d H. unfold CheckDuplicate in H.
    destruct (CheckDuplicate_returns (S (length (buf (NewDecoder b)))) (NewDecoder b))
      as (d1 & e & Hrun & Hd); [lia|done|done|].
    rewrite H in Hrun. injection Hrun as <- <-.
    destruct (Hd eq_refl) as (_ & Hst & Hstk).
    destruct (CheckDuplicate_sound (S (length (buf (NewDecoder b)))) (NewDecoder b) d)
      as (j & [Hfree Hover]%first_fault_None & Hb);
      [lia | apply compact_is_clean | done | done | done |].
    exists j. by repeat split. }
  split; [intros d; split; [apply Hnil|]|].
  - intros (j & Hfree & Hover & Hb & Hst & Hstk).
    unfold CheckDuplicate, NewDecoder. cbn [buf]. rewrite Hb.
    pose proof (CheckDuplicate_document j (S (length (lexemes j ++ buf d)))
                  tokenTopValue [] (buf d) eq_refl) as H.
    cbn [pending app] in H.
    rewrite (proj2 (first_fault_None j) (conj Hfree Hover)) in H. rewrite H by lia.
    destruct d as [rest st stk]. cbn in *. by subst.
  - intros Hno. destruct (CheckDuplicate_fresh_returns b) as (d & [e|] & H); [by eauto|].
    destruct (Hnil d H) as (j & Hfree & Hover & Hb & _). by destruct (Hno j (buf d)).
Qed.

(** * The output of MarshalJSON is a valid text *)

(** X22.  The encoder writes a value exactly when the value holds no
    [float64] that is not finite, no channel, and no ordered map whose text
    nests deeper than the library allows.  [MarshalJSON] returns bytes
    exactly when the encoder accepts the value [Get] returns for every key
    of [Keys()].  The bytes are then a valid JSON text whose
    value is an object: it has one member for each position of [Keys()],
    in that order, with that key as the encoder writes it and the document
    of the value [Get] returns for it, whether the key has an entry or not.
    [json.Marshal] writes the compact text of the same object, unless that
    text nests deeper than the library allows. *)
Theorem MarshalJSON_writes_valid_object (o : OrderedMap) :
  (∀ v, encodable v ↔ ∃ t, marshal v = inl t) ∧
  ((∃ b, MarshalJSON o = inl b) ↔ ∀ k, k ∈ Keys o → encodable (Get k o)) ∧
  (∀ b, MarshalJSON o = inl b →
     ∃ m, parse b = Some (JObject m) ∧
          m.*1 = coerce <$> Keys o ∧
          (∀ i k, Keys o !! i = Some k →
                  m !! i = Some (coerce k, doc_of (Get k o))) ∧
          (∀ t, json_Marshal o = inl t → t = lexemes (JObject m)) ∧
          (depth (JObject m) ≤ maxNestingDepth →
           json_Marshal o = inl (lexemes (JObject m)))).
Proof.
  split; [|split; [split|]].
  - intros v. split.
    + intros Hv. eexists. by apply marshal_encodable.
    + intros [t Ht]. by apply (marshal_inl_encodable v t).
  - intros [b Hb]. by apply (MarshalJSON_inl o b).
  - intros Hall. destruct (MarshalJSON_encodable o Hall) as (b & Hb & _). by exists b.
  - intros b Hb. destruct (MarshalJSON_inl o b Hb) as (_ & _ & Hc).
    exists ((λ k, (coerce k, doc_of (Get k o))) <$> keys o).
    rewrite <- doc_of_OrderedMapV. split; [|split; [|split; [|split]]].
    + by apply parse_complete.
    + by rewrite <- list_fmap_compose.
    + intros i k Hi. rewrite list_lookup_fmap. unfold Keys in Hi. by rewrite Hi.
    + intros t Ht. by apply marshal_doc in Ht.
    + intros Hd. rewrite <- Hc. apply json_Marshal_inl. by exists b.
Qed.

(** * The round trip after any call *)

Lemma well_formed_keys_match_values o :
  well_formed (OrderedMapV o) →
  ∃ g, values o = Some g ∧ keys_match_values o ∧
       ∀ k v, g !! k = Some v → well_formed v.
Proof.
  unfold OrderedMapV. inversion 1 as [| | | | |ks g Hnd Hdom Hall [Hks Hg]].
  exists g. split; [done|]. split; [|done].
  split; [done|]. by rewrite <- Hg.
Qed.

Lemma well_formed_OrderedMapV o g :
  values o = Some g → keys_match_values o →
  (∀ k v, g !! k = Some v → well_formed v) →
  well_formed (OrderedMapV o).
Proof.
  intros Hg [Hnd Hset] Hall. unfold OrderedMapV. rewrite Hg in *.
  by constructor.
Qed.

Lemma well_formed_Delete o k :
  well_formed (OrderedMapV o) → well_formed (OrderedMapV (Delete k o)).
Proof.
  intros (g & Hg & Hinv & Hall)%well_formed_keys_match_values.
  destruct (decide (k ∈ map_keys (values o))) as [Hin|Hout].
  - apply (well_formed_OrderedMapV _ (delete k g)).
    + rewrite (Delete_present o k Hin). cbn. by rewrite Hg.
    + by apply keys_match_values_Delete.
    + intros k' v [_ Hv]%lookup_delete_Some. by apply (Hall k').
  - rewrite (Delete_absent o k Hout). by apply (well_formed_OrderedMapV _ g).
Qed.

Lemma well_formed_Permutation o ks :
  ks ≡ₚ keys o → well_formed (OrderedMapV o) →
  well_formed (OrderedMapV {| keys := ks; values := values o |}).
Proof.
  intros Hp (g & Hg & Hinv & Hall)%well_formed_keys_match_values.
  apply (well_formed_OrderedMapV _ g); [done| |done].
  destruct o as [ks0 vs]. by apply (keys_match_values_Permutation ks0).
Qed.

Lemma exact_Permutation o ks :
  ks ≡ₚ keys o → exact (OrderedMapV o) →
  exact (OrderedMapV {| keys := ks; values := values o |}).
Proof.
  unfold OrderedMapV. destruct o as [ks0 vs]. cbn [keys values]. intros Hp.
  inversion_clear 1 as [| | | | |? g Hks Hall]. constructor; [|done]. by rewrite Hp.
Qed.

Lemma exact_Delete o k :
  well_formed (OrderedMapV o) → exact (OrderedMapV o) →
  exact (OrderedMapV (Delete k o)).
Proof.
  intros (g & Hg & [Hnd _] & _)%well_formed_keys_match_values Hex.
  destruct (decide (k ∈ map_keys (values o))) as [Hin|Hout];
    [|by rewrite (Delete_absent o k Hout)].
  unfold OrderedMapV in *. rewrite Delete_keys_filter by done.
  rewrite (Delete_present o k Hin). cbn [values]. rewrite Hg in *. cbn.
  inversion_clear Hex as [| | | | |? ? Hks Hall]. constructor.
  - rewrite Forall_forall in *. intros k' [_ Hk']%list_elem_of_filter. by apply Hks.
  - intros k' v [_ Hv]%lookup_delete_Some. by apply (Hall k').
Qed.

Lemma foldr_max_le (l : list Z) c :
  0 ≤ c → Forall (λ x, x ≤ c) l → foldr Z.max 0 l ≤ c.
Proof. intros Hc. induction 1 as [|x l Hx _ IH]; cbn; lia. Qed.

(** Fewer keys with the same values nest no deeper. *)
Lemma depth_fewer_keys o o' :
  (∀ k, k ∈ keys o' → k ∈ keys o ∧ Get k o' = Get k o) →
  depth (doc_of (OrderedMapV o')) ≤ depth (doc_of (OrderedMapV o)).
Proof.
  intros H. rewrite (doc_of_OrderedMapV o').
  change (1 + foldr Z.max 0 ((λ kv : string * json, depth kv.2)
                               <$> ((λ k, (coerce k, doc_of (Get k o'))) <$> keys o'))
          ≤ depth (doc_of (OrderedMapV o))).
  assert (foldr Z.max 0 ((λ kv : string * json, depth kv.2)
                           <$> ((λ k, (coerce k, doc_of (Get k o'))) <$> keys o'))
          ≤ depth (doc_of (OrderedMapV o)) - 1); [|lia].
  apply foldr_max_le.
  - rewrite doc_of_OrderedMapV. cbn [depth].
    assert (0 ≤ foldr Z.max 0 ((λ kv : string * json, depth kv.2)
                                 <$> ((λ k, (coerce k, doc_of (Get k o))) <$> keys o)));
      [|lia].
    generalize ((λ kv : string * json, depth kv.2)
                  <$> ((λ k, (coerce k, doc_of (Get k o))) <$> keys o)).
    intros l. induction l; cbn; lia.
  - rewrite <- list_fmap_compose. apply Forall_fmap, Forall_forall.
    intros k Hk.
    change (depth (doc_of (Get k o')) ≤ depth (doc_of (OrderedMapV o)) - 1).
    destruct (H k Hk) as [Hin ->].
    pose proof (depth_Get o k Hin). lia.
Qed.

Lemma depth_Delete o k :
  NoDup (keys o) →
  depth (doc_of (OrderedMapV (Delete k o))) ≤ depth (doc_of (OrderedMapV o)).
Proof.
  intros Hnd. destruct (decide (k ∈ map_keys (values o))) as [Hin|Hout];
    [|by rewrite (Delete_absent o k Hout)].
  apply depth_fewer_keys. intros k'. rewrite Delete_keys_filter by done.
  intros [Hne Hk']%list_elem_of_filter. split; [done|].
  by rewrite Get_Delete, decide_False.
Qed.

Lemma depth_Permutation o ks :
  ks ≡ₚ keys o →
  depth (doc_of (OrderedMapV {| keys := ks; values := values o |})) ≤
  depth (doc_of (OrderedMapV o)).
Proof.
  intros Hp. apply depth_fewer_keys. cbn [keys]. intros k Hk.
  split; [by rewrite <- Hp|]. by rewrite !Get_lookup.
Qed.

Lemma comes_back_faithful o :
  well_formed (OrderedMapV o) → exact (OrderedMapV o) →
  depth (doc_of (OrderedMapV o)) ≤ maxNestingDepth → comes_back o.
Proof.
  intros Hwf Hex Hd. destruct (faithful_round_trip o Hwf Hex Hd) as (b & Hb & Hrun & _).
  by exists b.
Qed.

(** X23.  The round trip holds after any call.  Take a container that
    holds no plain map, in which every ordered map, at any depth, has as
    keys those of its values map, each once, in which every key and every
    string is valid UTF-8 and every number a finite [float64], and whose
    text nests no deeper than the library allows.  [UnmarshalJSON] of its
    [MarshalJSON] output into an empty container returns the container, and
    the same is true of the container after [Delete], after [Sort], after
    [SortKeys] with a function that permutes the keys, and after [Set] of a
    key and a value of that kind, when the text still nests no deeper than
    allowed. *)
Theorem round_trip_after_any_call (o : OrderedMap) :
  well_formed (OrderedMapV o) → exact (OrderedMapV o) →
  depth (doc_of (OrderedMapV o)) ≤ maxNestingDepth →
  comes_back o ∧
  (∀ k, comes_back (Delete k o)) ∧
  (∀ lessFunc, comes_back (Sort lessFunc o)) ∧
  (∀ sortFunc, (∀ ks, sortFunc ks ≡ₚ ks) → comes_back (SortKeys sortFunc o)) ∧
  (∀ k v o', coerce k = k → well_formed v → exact v → Set_ k v o = Ret o' →
     depth (doc_of (OrderedMapV o')) ≤ maxNestingDepth → comes_back o').
Proof.
  intros Hwf Hex Hd. split; [|split; [|split; [|split]]].
  - by apply comes_back_faithful.
  - intros k. apply comes_back_faithful.
    + by apply well_formed_Delete.
    + by apply exact_Delete.
    + destruct (well_formed_keys_match_values o Hwf) as (_ & _ & [Hnd _] & _).
      pose proof (depth_Delete o k Hnd). lia.
  - intros less. pose proof (Sort_keys_Permutation less o) as Hp.
    apply comes_back_faithful.
    + by apply (well_formed_Permutation o (keys (Sort less o))).
    + by apply (exact_Permutation o (keys (Sort less o))).
    + pose proof (depth_Permutation o (keys (Sort less o)) Hp). cbn in *. lia.
  - intros f Hf. apply comes_back_faithful.
    + by apply (well_formed_Permutation o (f (keys o))).
    + by apply (exact_Permutation o (f (keys o))).
    + pose proof (depth_Permutation o (f (keys o)) (Hf _)). cbn in *. lia.
  - intros k v o' Hk Hvw Hve Hset Hd'. apply comes_back_faithful; [| |done].
    + by eapply well_formed_Set.
    + by eapply exact_Set.
Qed.

Lemma round_trip_after_any_call_witness :
  let o := {| keys := ["b"; "a"]%string;
              values := Some (<["a"%string:=Slice [Nil]]>
                                (<["b"%string:=Float64 (float64_of_int 1)]> ∅)) |} in
  well_formed (OrderedMapV o) ∧ exact (OrderedMapV o) ∧
  depth (doc_of (OrderedMapV o)) ≤ maxNestingDepth ∧
  comes_back o ∧
  (∀ k, comes_back (Delete k o)) ∧
  (∀ lessFunc, comes_back (Sort lessFunc o)) ∧
  (∀ sortFunc, (∀ ks, sortFunc ks ≡ₚ ks) → comes_back (SortKeys sortFunc o)) ∧
  (∀ k v o', coerce k = k → well_formed v → exact v → Set_ k v o = Ret o' →
     depth (doc_of (OrderedMapV o')) ≤ maxNestingDepth → comes_back o').
Proof.
  intros o.
  assert (Hwf : well_formed (OrderedMapV o)).
  { constructor.
    - compute_done.
    - rewrite !dom_insert_L. set_solver.
    - intros k v. rewrite !lookup_insert_Some, lookup_empty.
      intros [[_ <-]|[_ [[_ <-]|[_ [=]]]]]; repeat constructor. }
  assert (Hex : exact (OrderedMapV o)).
  { constructor.
    - by repeat constructor.
    - intros k v. rewrite !lookup_insert_Some, lookup_empty.
      intros [[_ <-]|[_ [[_ <-]|[_ [=]]]]]; by repeat constructor. }
  assert (Hd : depth (doc_of (OrderedMapV o)) ≤ maxNestingDepth) by (by vm_compute).
  split; [exact Hwf|]. split; [exact Hex|]. split; [exact Hd|].
  exact (round_trip_after_any_call o Hwf Hex Hd).
Defined.

(** * Plain maps in a container *)



